(** * Algorithm Visualizer: grid BFS and graph DFS

    A shallow embedding of [src/graph.js] (classes [Grid], [Graph],
    [GraphNode]) and of the two traversal engines ([BFSVisualizer],
    [DFSVisualizer]), followed by the properties the specification states
    about them.

    Conventions.
    - JavaScript objects live in a store and are named by a reference.  A
      grid cell is created once by [initializeGrid], one per position, and
      its [col]/[row] fields are never reassigned: the reference to a cell is
      its position [(col, row)], and [cell.col], [cell.row] are the two
      projections of the reference.  A graph node is named by its [id].
    - [null] is [None]; the number [Infinity] is a constructor of [Num].
    - Loops that the source writes as [while] or as recursion without a
      syntactic bound take a [fuel] argument; running out of fuel is [None]
      and every result theorem shows that enough fuel yields a result.
    - Canvas drawing, DOM updates and pixel coordinates are left out. *)

From stdpp Require Import gmap list sorting.
From Stdlib Require Import ZArith Lia.

Local Open Scope Z_scope.
#[local] Set Warnings "-clear-no-such-hyp,-level-tolerance".

(** JavaScript numbers as they occur in [distance]: an integer or
    [Infinity]. *)
Inductive Num := Fin (n : Z) | Infinity.

Global Instance Num_eq_dec : EqDecision Num.
Proof. solve_decision. Defined.

Definition plus1 (x : Num) : Num :=
  match x with Fin n => Fin (n + 1) | Infinity => Infinity end.

(** A cell reference: [(col, row)]. *)
Definition Pos : Type := Z * Z.

(* ===================================================================== *)
(** * Part I: the grid and breadth-first search                           *)
(* ===================================================================== *)

Module GridBFS.

(** ** The grid ([class Grid] of graph.js) *)

Inductive CellType := Empty | Wall | Start | Goal.
Inductive CellState := Unvisited | Frontier | Visited | Path.

Global Instance CellType_eq_dec : EqDecision CellType.
Proof. solve_decision. Defined.
Global Instance CellState_eq_dec : EqDecision CellState.
Proof. solve_decision. Defined.

(** The mutable fields of a cell object. *)
Record Cell := mkCell {
  type : CellType;
  state : CellState;
  parent : option Pos;
  distance : Num;
  gScore : Num;
  fScore : Num
}.

Global Instance Cell_eq_dec : EqDecision Cell.
Proof. solve_decision. Defined.

Definition set_type (t : CellType) (c : Cell) : Cell :=
  mkCell t (state c) (parent c) (distance c) (gScore c) (fScore c).
Definition set_state (s : CellState) (c : Cell) : Cell :=
  mkCell (type c) s (parent c) (distance c) (gScore c) (fScore c).
Definition set_parent (p : option Pos) (c : Cell) : Cell :=
  mkCell (type c) (state c) p (distance c) (gScore c) (fScore c).
Definition set_distance (d : Num) (c : Cell) : Cell :=
  mkCell (type c) (state c) (parent c) d (gScore c) (fScore c).

(** The cell literal of [initializeGrid]. *)
Definition newCell : Cell := mkCell Empty Unvisited None Infinity Infinity Infinity.

Record Grid := mkGrid {
  cols : Z;
  rows : Z;
  cells : list (list Cell);   (* cells[row][col] *)
  start : option Pos;
  goal : option Pos
}.

Definition set_cells (cs : list (list Cell)) (g : Grid) : Grid :=
  mkGrid (cols g) (rows g) cs (start g) (goal g).
Definition set_start (s : option Pos) (g : Grid) : Grid :=
  mkGrid (cols g) (rows g) (cells g) s (goal g).
Definition set_goal (t : option Pos) (g : Grid) : Grid :=
  mkGrid (cols g) (rows g) (cells g) (start g) t.

(** [isValidCell(col, row)] *)
Definition isValidCell (g : Grid) (col row : Z) : bool :=
  (0 <=? col) && (col <? cols g) && (0 <=? row) && (row <? rows g).

Definition validPos (g : Grid) (p : Pos) : bool := isValidCell g p.1 p.2.

(** Reading the object behind a reference: [this.cells[row][col]]. *)
Definition cellAt (g : Grid) (p : Pos) : option Cell :=
  if validPos g p
  then cells g !! Z.to_nat p.2 ≫= λ r, r !! Z.to_nat p.1
  else None.

(** References held by the program are obtained from [getCell] or are
    [start]/[goal], so they denote a cell of the grid; [cellOf] reads
    through such a reference. *)
Definition cellOf (g : Grid) (p : Pos) : Cell := default newCell (cellAt g p).

(** Writing fields of the object behind a reference. *)
Definition updCell (f : Cell → Cell) (p : Pos) (g : Grid) : Grid :=
  if validPos g p
  then set_cells (alter (alter f (Z.to_nat p.1)) (Z.to_nat p.2) (cells g)) g
  else g.

(** [getCell(col, row)]: the cell, or [null]. *)
Definition getCell (g : Grid) (col row : Z) : option Pos :=
  if isValidCell g col row then Some (col, row) else None.

(** [setStart(col, row)] *)
Definition setStart (col row : Z) (g : Grid) : Grid :=
  let g1 := match start g with
            | Some s => updCell (set_type Empty) s g
            | None => g
            end in
  if isValidCell g1 col row
  then updCell (set_type Start) (col, row) (set_start (Some (col, row)) g1)
  else g1.

(** [setGoal(col, row)] *)
Definition setGoal (col row : Z) (g : Grid) : Grid :=
  let g1 := match goal g with
            | Some t => updCell (set_type Empty) t g
            | None => g
            end in
  if isValidCell g1 col row
  then updCell (set_type Goal) (col, row) (set_goal (Some (col, row)) g1)
  else g1.

(** [toggleWall(col, row)] *)
Definition toggleWall (col row : Z) (g : Grid) : Grid :=
  if isValidCell g col row
  then match type (cellOf g (col, row)) with
       | Empty => updCell (set_type Wall) (col, row) g
       | Wall => updCell (set_type Empty) (col, row) g
       | _ => g
       end
  else g.

(** [initializeGrid()], for a grid of [cols] by [rows] cells. *)
Definition initializeGrid (cols rows : Z) : Grid :=
  let g := mkGrid cols rows
             (replicate (Z.to_nat rows) (replicate (Z.to_nat cols) newCell))
             None None in
  setGoal (cols - 2) (rows - 2) (setStart 1 1 g).

(** [new Grid(width, height, cellSize)] *)
Definition newGrid (width height cellSize : Z) : Grid :=
  initializeGrid (width / cellSize) (height / cellSize).

(** The four directions of [getNeighbors], as [[dx, dy]]. *)
Definition directions : list (Z * Z) := [(-1, 0); (1, 0); (0, -1); (0, 1)].

(** [getNeighbors(cell)]: the in-range, non-wall cells next to [cell], in
    the order of [directions]. *)
Definition getNeighbors (g : Grid) (cell : Pos) : list Pos :=
  omap (λ d : Z * Z,
          let col := cell.1 + d.1 in
          let row := cell.2 + d.2 in
          match getCell g col row with
          | Some neighbor =>
              if decide (type (cellOf g neighbor) ≠ Wall) then Some neighbor else None
          | None => None
          end) directions.

Definition resetCell (c : Cell) : Cell :=
  mkCell (type c) Unvisited None Infinity Infinity Infinity.

(** [reset()]: every cell loses its run state and keeps its type. *)
Definition Grid_reset (g : Grid) : Grid :=
  set_cells (map (map resetCell) (cells g)) g.

(** [clear()]: as [reset()], and walls become empty. *)
Definition Grid_clear (g : Grid) : Grid :=
  set_cells
    (map (map (λ c, resetCell (if decide (type c = Wall) then set_type Empty c else c)))
       (cells g)) g.

(** ** The BFS engine ([class BFSVisualizer]) *)

Record BFSVisualizer := mkBFS {
  grid : Grid;
  isRunning : bool;
  isPaused : bool;
  visitedCount : Z;
  pathLength : Z
}.

Definition set_grid (g : Grid) (v : BFSVisualizer) : BFSVisualizer :=
  mkBFS g (isRunning v) (isPaused v) (visitedCount v) (pathLength v).
Definition set_visitedCount (n : Z) (v : BFSVisualizer) : BFSVisualizer :=
  mkBFS (grid v) (isRunning v) (isPaused v) n (pathLength v).
Definition set_pathLength (n : Z) (v : BFSVisualizer) : BFSVisualizer :=
  mkBFS (grid v) (isRunning v) (isPaused v) (visitedCount v) n.

(** The object returned by [runBFS]. *)
Record BFSResult := mkResult { pathFound : bool; path : list Pos }.

Definition noPath : BFSResult := mkResult false [].

(** The locals of [runBFS] together with [this]. *)
Record Loop := mkLoop {
  queue : list Pos;
  visited : gset Pos;
  this : BFSVisualizer
}.

(** [reconstructPath(goalCell)]: follow [parent] up to [null], putting each
    cell in front of the path. *)
Fixpoint reconstructPath_from (fuel : nat) (g : Grid) (current : option Pos)
    (path : list Pos) : option (list Pos) :=
  match current with
  | None => Some path
  | Some c =>
      match fuel with
      | O => None
      | S fuel' => reconstructPath_from fuel' g (parent (cellOf g c)) (c :: path)
      end
  end.

Definition reconstructPath (fuel : nat) (g : Grid) (goalCell : Pos) : option (list Pos) :=
  reconstructPath_from fuel g (Some goalCell) [].

(** The body of [for (let neighbor of neighbors)] in [runBFS]. *)
Definition explore (current : Pos) (L : Loop) (neighbor : Pos) : Loop :=
  if decide (neighbor ∈ visited L) then L
  else
    let g := grid (this L) in
    let g1 := updCell (set_parent (Some current)) neighbor g in
    let g2 := updCell (set_distance (plus1 (distance (cellOf g1 current)))) neighbor g1 in
    let g3 := updCell (set_state Frontier) neighbor g2 in
    mkLoop (queue L ++ [neighbor]) ({[neighbor]} ∪ visited L) (set_grid g3 (this L)).

(** [queue.shift(); current.state = 'visited'; this.visitedCount++] *)
Definition dequeue (current : Pos) (rest : list Pos) (L : Loop) : Loop :=
  let v := this L in
  mkLoop rest (visited L)
    (set_visitedCount (visitedCount v + 1)
       (set_grid (updCell (set_state Visited) current (grid v)) v)).

(** One round of the [while] loop of [runBFS]: either the function returns,
    or the loop goes on. *)
Inductive Round :=
  | Return (r : BFSResult) (v : BFSVisualizer)
  | Continue (L : Loop).

(** The loop body after its first [await]: [current] is the cell that
    [queue.shift()] returns and [rest] is what stays in the queue. *)
Definition bfs_body (fuel : nat) (current : Pos) (rest : list Pos) (L : Loop) : option Round :=
  let L1 := dequeue current rest L in
  if decide (goal (grid (this L1)) = Some current) then
    p ← reconstructPath fuel (grid (this L1)) current;
    Some (Return (mkResult true p)
            (set_pathLength (Z.of_nat (length p) - 1) (this L1)))
  else
    Some (Continue (foldl (explore current) L1 (getNeighbors (grid (this L1)) current))).

(** The loop test [queue.length > 0 && !this.isPaused], then the body.  With
    no event the inner [while (this.isPaused && this.isRunning)] is not
    entered: [isPaused] was just read as [false]. *)
Definition bfs_round (fuel : nat) (L : Loop) : option Round :=
  match queue L with
  | [] => Some (Return noPath (this L))
  | current :: rest =>
      if isPaused (this L) then Some (Return noPath (this L))
      else bfs_body fuel current rest L
  end.

Fixpoint bfs_while (fuel : nat) (L : Loop) : option (BFSResult * BFSVisualizer) :=
  match fuel with
  | O => None
  | S fuel' =>
      match bfs_round fuel' L with
      | None => None
      | Some (Return r v) => Some (r, v)
      | Some (Continue L') => bfs_while fuel' L'
      end
  end.

(** The statements of [runBFS] before its loop; [None] when [grid.start] is
    [null] (the assignment to [start.distance] throws). *)
Definition bfs_init (v : BFSVisualizer) : option Loop :=
  match start (grid v) with
  | None => None
  | Some s =>
      let g1 := updCell (set_distance (Fin 0)) s (grid v) in
      let g2 := updCell (set_state Frontier) s g1 in
      Some (mkLoop [s] {[s]} (set_grid g2 v))
  end.

(** [runBFS()], run without interruption. *)
Definition runBFS (fuel : nat) (v : BFSVisualizer) : option (BFSResult * BFSVisualizer) :=
  L ← bfs_init v; bfs_while fuel L.

(** *** Runs with user events

    [runBFS] is an [async] function: at every [await Utils.delay(..)] it is
    suspended and handlers of user events may run before it resumes. *)

(** [pause()], [resume()], [reset()] of [BFSVisualizer]. *)
Definition BFS_pause (v : BFSVisualizer) : BFSVisualizer :=
  mkBFS (grid v) (isRunning v) true (visitedCount v) (pathLength v).
Definition BFS_resume (v : BFSVisualizer) : BFSVisualizer :=
  mkBFS (grid v) (isRunning v) false (visitedCount v) (pathLength v).
Definition BFS_reset (v : BFSVisualizer) : BFSVisualizer :=
  mkBFS (Grid_reset (grid v)) false false 0 0.

Inductive Event := Pause | Resume | Reset.

Definition handle (v : BFSVisualizer) (e : Event) : BFSVisualizer :=
  match e with
  | Pause => BFS_pause v
  | Resume => BFS_resume v
  | Reset => BFS_reset v
  end.

(** Modelled from the spec: [Utils.delay] is not part of the sources at
    hand; by the specification it is the suspension point between steps, at
    which the driver's pause and cancel requests take effect.  A schedule
    lists, for each suspension point the run passes, the handlers that run
    there; past its end no event arrives. *)
Definition Schedule : Type := list (list Event).

Definition await (sch : Schedule) (v : BFSVisualizer) : Schedule * BFSVisualizer :=
  match sch with
  | [] => ([], v)
  | events :: sch' => (sch', foldl handle v events)
  end.

Definition set_this (v : BFSVisualizer) (L : Loop) : Loop :=
  mkLoop (queue L) (visited L) v.

(** [while (this.isPaused && this.isRunning) await Utils.delay(100)] *)
Fixpoint waitWhilePaused (fuel : nat) (sch : Schedule) (v : BFSVisualizer)
    : option (Schedule * BFSVisualizer) :=
  if isPaused v && isRunning v then
    match fuel with
    | O => None
    | S fuel' => let '(sch', v') := await sch v in waitWhilePaused fuel' sch' v'
    end
  else Some (sch, v).

Fixpoint bfs_while_sched (fuel : nat) (sch : Schedule) (L : Loop)
    : option (BFSResult * BFSVisualizer) :=
  match fuel with
  | O => None
  | S fuel' =>
      match queue L with
      | [] => Some (noPath, this L)
      | current :: rest =>
          if isPaused (this L) then Some (noPath, this L)
          else
            let '(sch1, v1) := await sch (this L) in
            match bfs_body fuel' current rest (set_this v1 L) with
            | None => None
            | Some (Return r v) => Some (r, v)
            | Some (Continue L') =>
                match waitWhilePaused fuel' sch1 (this L') with
                | None => None
                | Some (sch2, v2) => bfs_while_sched fuel' sch2 (set_this v2 L')
                end
            end
      end
  end.

(** [runBFS()] under a schedule of user events. *)
Definition runBFS_sched (fuel : nat) (sch : Schedule) (v : BFSVisualizer)
    : option (BFSResult * BFSVisualizer) :=
  L ← bfs_init v; bfs_while_sched fuel sch L.

(** A visualizer over a given grid, as [startBFS] sets its fields before
    it calls [runBFS]. *)
Definition started (g : Grid) : BFSVisualizer := mkBFS (Grid_reset g) true false 0 0.

(** [highlightPath(path)], run without interruption: every cell of the
    path but the first and the last gets state [Path]. *)
Definition highlightPath (path : list Pos) (v : BFSVisualizer) : BFSVisualizer :=
  foldl (λ v i,
           match path !! i with
           | Some c => set_grid (updCell (set_state Path) c (grid v)) v
           | None => v
           end) v (seq 1 (length path - 2)).

(** [startBFS()], run without interruption; a request while a run is
    active is ignored. *)
Definition startBFS (fuel : nat) (v : BFSVisualizer) : option BFSVisualizer :=
  if isRunning v then Some v
  else '(result, v1) ← runBFS fuel (started (grid v));
       let v2 := if pathFound result then highlightPath (path result) v1 else v1 in
       Some (mkBFS (grid v2) false (isPaused v2) (visitedCount v2) (pathLength v2)).

(** The body of the loops of [ensureAccessibility]: the cell at
    [(col, row)], when there is one and it is a wall, becomes empty. *)
Definition clearWall (col row : Z) (g : Grid) : Grid :=
  match getCell g col row with
  | Some cell =>
      if decide (type (cellOf g cell) = Wall) then updCell (set_type Empty) cell g else g
  | None => g
  end.

(** The pairs [(dc, dr)] of the two nested loops, [dr] being the outer
    one. *)
Definition offsets3 : list (Z * Z) :=
  [(-1, -1); (0, -1); (1, -1); (-1, 0); (0, 0); (1, 0); (-1, 1); (0, 1); (1, 1)].

Definition clearAround (p : Pos) (g : Grid) : Grid :=
  foldl (λ g d, clearWall (p.1 + d.1) (p.2 + d.2) g) g offsets3.

(** [ensureAccessibility()]; reading [this.start.col] or [this.goal.col]
    when there is no start or goal throws, which is [None]. *)
Definition ensureAccessibility (g : Grid) : option Grid :=
  s ← start g;
  let g1 := clearAround s g in
  t ← goal g1;
  Some (clearAround t g1).

(** ** Notions used by the specification *)

(** The shape of a grid built by [initializeGrid]: [rows] arrays of [cols]
    cells each. *)
Definition wf_grid (g : Grid) : Prop :=
  0 ≤ cols g ∧ 0 ≤ rows g ∧
  length (cells g) = Z.to_nat (rows g) ∧
  Forall (λ r, length r = Z.to_nat (cols g)) (cells g).

(** A grid on which no run has left marks: what [grid.reset()] produces. *)
Definition freshCell (c : Cell) : Prop :=
  state c = Unvisited ∧ parent c = None ∧ distance c = Infinity.

Definition fresh (g : Grid) : Prop := Forall (Forall freshCell) (cells g).

(** Orthogonal adjacency of two positions. *)
Definition adjacent (p q : Pos) : Prop :=
  Z.abs (p.1 - q.1) + Z.abs (p.2 - q.2) = 1.

(** A cell of the grid that is not a wall. *)
Definition passable (g : Grid) (p : Pos) : Prop :=
  validPos g p = true ∧ type (cellOf g p) ≠ Wall.

(** [walk g p q n]: [q] is reached from [p] in [n] hops, each hop entering
    an adjacent passable cell. *)
Inductive walk (g : Grid) (p : Pos) : Pos → nat → Prop :=
  | walk_here : walk g p p 0
  | walk_hop q r n : walk g p q n → adjacent q r → passable g r → walk g p r (S n).

Definition reachable (g : Grid) (p q : Pos) : Prop := ∃ n, walk g p q n.

(** [n] is the minimum hop count from [p] to [q]. *)
Definition min_hops (g : Grid) (p q : Pos) (n : nat) : Prop :=
  walk g p q n ∧ ∀ m, walk g p q m → (n ≤ m)%nat.

(** Consecutive cells of a path are adjacent, and all its cells passable. *)
Fixpoint linked (g : Grid) (l : list Pos) : Prop :=
  match l with
  | [] => True
  | a :: l' =>
      passable g a ∧
      match l' with
      | [] => True
      | b :: _ => adjacent a b
      end ∧ linked g l'
  end.

(** The distance field as an integer ([-1] stands for [Infinity], which no
    discovered cell carries). *)
Definition dz (g : Grid) (p : Pos) : Z :=
  match distance (cellOf g p) with Fin n => n | Infinity => -1 end.

(** The loop invariant of [runBFS], for a run entered with grid [g0],
    start cell [s] and counter value [vc0]. *)
Record Inv (g0 : Grid) (s : Pos) (vc0 : Z) (L : Loop) : Prop := mkInv {
  inv_wf : wf_grid (grid (this L));
  inv_cols : cols (grid (this L)) = cols g0;
  inv_rows : rows (grid (this L)) = rows g0;
  inv_start : start (grid (this L)) = start g0;
  inv_goal : goal (grid (this L)) = goal g0;
  inv_type : ∀ p, type (cellOf (grid (this L)) p) = type (cellOf g0 p);
  inv_valid : ∀ p, p ∈ visited L → validPos g0 p = true;
  inv_queue : ∀ p, p ∈ queue L → p ∈ visited L;
  inv_nodup : NoDup (queue L);
  inv_s : s ∈ visited L ∧ parent (cellOf (grid (this L)) s) = None ∧
          distance (cellOf (grid (this L)) s) = Fin 0;
  inv_dist : ∀ p, p ∈ visited L →
             ∃ n, 0 ≤ n ∧ distance (cellOf (grid (this L)) p) = Fin n;
  inv_tree : ∀ p, p ∈ visited L → p ≠ s →
             ∃ u, parent (cellOf (grid (this L)) p) = Some u ∧
                  u ∈ visited L ∧ (u ∉ queue L) ∧ p ∈ getNeighbors g0 u ∧
                  distance (cellOf (grid (this L)) p) =
                    plus1 (distance (cellOf (grid (this L)) u));
  inv_sorted : StronglySorted Z.le (dz (grid (this L)) <$> queue L);
  inv_span : ∀ h a, head (queue L) = Some h → a ∈ queue L →
             dz (grid (this L)) a ≤ dz (grid (this L)) h + 1;
  inv_closed : ∀ u w, u ∈ visited L → u ∉ queue L → w ∈ getNeighbors g0 u →
               w ∈ visited L;
  inv_edge : ∀ u w, u ∈ visited L → w ∈ visited L → w ∈ getNeighbors g0 u →
             dz (grid (this L)) w ≤ dz (grid (this L)) u + 1;
  inv_done : ∀ u q, u ∈ visited L → u ∉ queue L → q ∈ queue L →
             dz (grid (this L)) u ≤ dz (grid (this L)) q;
  inv_state : ∀ p, state (cellOf (grid (this L)) p) =
                if decide (p ∈ visited L)
                then if decide (p ∈ queue L) then Frontier else Visited
                else Unvisited;
  inv_count : visitedCount (this L) =
                vc0 + Z.of_nat (size (visited L)) - Z.of_nat (length (queue L));
  inv_unseen : ∀ p, p ∉ visited L → freshCell (cellOf (grid (this L)) p);
  inv_pending : ∀ t, goal g0 = Some t → t ∈ visited L → t ∈ queue L;
  inv_paused : isPaused (this L) = false
}.

(** What the loop body writes into a newly discovered neighbour of
    [current], whose distance is [d]. *)
Definition discover (current : Pos) (d : Num) (c : Cell) : Cell :=
  set_state Frontier (set_distance (plus1 d) (set_parent (Some current) c)).

(** The number of cells of the grid. *)
Definition cellCount (g : Grid) : nat := (Z.to_nat (cols g) * Z.to_nat (rows g))%nat.

(** Every position of the grid. *)
Definition allPos (g : Grid) : list Pos :=
  list_prod (seqZ 0 (cols g)) (seqZ 0 (rows g)).

(** The loop states a run passes through, each at the head of the [while]
    loop. *)
Inductive bfs_reaches (L0 : Loop) : Loop → Prop :=
  | reaches_first : bfs_reaches L0 L0
  | reaches_next L L' fuel :
      bfs_reaches L0 L → bfs_round fuel L = Some (Continue L') →
      bfs_reaches L0 L'.

Definition grid5 : Grid := initializeGrid 5 5.

(** A corridor of three cells: start, wall, goal. *)
Definition corridor : Grid :=
  toggleWall 1 0 (setGoal 2 0 (setStart 0 0 (initializeGrid 3 1))).

(** What the loop has established when it returns: it stopped at a loop
    state [Lf], either with an empty queue or with the goal at the head of
    the queue. *)
Definition Exhausted (Lf : Loop) (r : BFSResult) (v' : BFSVisualizer) : Prop :=
  queue Lf = [] ∧ r = noPath ∧ v' = this Lf.

Definition Found (g0 : Grid) (s : Pos) (Lf : Loop) (r : BFSResult) (v' : BFSVisualizer)
    : Prop :=
  ∃ t rest l,
    queue Lf = t :: rest ∧ goal g0 = Some t ∧ r = mkResult true l ∧
    v' = set_pathLength (Z.of_nat (length l) - 1) (this (dequeue t rest Lf)) ∧
    head l = Some s ∧ last l = Some t ∧ linked g0 l ∧
    Z.of_nat (length l) - 1 = dz (grid (this Lf)) t.



(** [q] is [p] or one of its eight neighbours. *)
Definition near (p q : Pos) : Prop := Z.abs (q.1 - p.1) ≤ 1 ∧ Z.abs (q.2 - p.2) ≤ 1.

(** The cells of a path other than its first and its last. *)
Definition interior (l : list Pos) : list Pos := take (length l - 2) (drop 1 l).

(** Every cell of type [Start] is the one [start] refers to, and likewise
    for [Goal]: there is at most one start cell and one goal cell. *)
Definition marks_unique (g : Grid) : Prop :=
  ∀ p, (type (cellOf g p) = Start → start g = Some p) ∧
       (type (cellOf g p) = Goal → goal g = Some p).

(** What [toggleWall] does to the type of the cell it is given. *)
Definition flipWall (t : CellType) : CellType :=
  match t with Empty => Wall | Wall => Empty | t => t end.

(** ** The store: reading after writing *)

Lemma validPos_spec g p :
  validPos g p = true ↔ 0 ≤ p.1 < cols g ∧ 0 ≤ p.2 < rows g.
Proof. unfold validPos, isValidCell. rewrite !andb_true_iff. lia. Qed.

Lemma cellAt_valid g p : wf_grid g → validPos g p = true → is_Some (cellAt g p).
Proof.
  intros (Hc & Hr & Hlen & Hall) Hv. unfold cellAt. rewrite Hv.
  apply validPos_spec in Hv.
  destruct (lookup_lt_is_Some_2 (cells g) (Z.to_nat p.2)) as [r Hrow]; [lia|].
  rewrite Hrow. simpl.
  apply lookup_lt_is_Some_2.
  rewrite Forall_forall in Hall.
  rewrite (Hall r); [lia|]. by eapply list_elem_of_lookup_2.
Qed.

Lemma updCell_cols f p g : cols (updCell f p g) = cols g.
Proof. unfold updCell. by destruct (validPos g p). Qed.
Lemma updCell_rows f p g : rows (updCell f p g) = rows g.
Proof. unfold updCell. by destruct (validPos g p). Qed.
Lemma updCell_start f p g : start (updCell f p g) = start g.
Proof. unfold updCell. by destruct (validPos g p). Qed.
Lemma updCell_goal f p g : goal (updCell f p g) = goal g.
Proof. unfold updCell. by destruct (validPos g p). Qed.

Lemma updCell_validPos f p g q : validPos (updCell f p g) q = validPos g q.
Proof. unfold validPos, isValidCell. by rewrite updCell_cols, updCell_rows. Qed.

Lemma updCell_wf f p g : wf_grid g → wf_grid (updCell f p g).
Proof.
  intros (Hc & Hr & Hlen & Hall). unfold updCell.
  destruct (validPos g p); [|done].
  repeat split; simpl; [done|done|by rewrite length_alter|].
  rewrite Forall_forall in *. intros r Hin.
  apply list_elem_of_lookup in Hin as [i Hi].
  destruct (decide (i = Z.to_nat p.2)) as [->|Hne].
  - rewrite list_lookup_alter_eq in Hi.
    destruct (cells g !! Z.to_nat p.2) as [r0|] eqn:E; [|done].
    simpl in Hi. injection Hi as <-. rewrite length_alter.
    apply Hall. by eapply list_elem_of_lookup_2.
  - rewrite list_lookup_alter_ne in Hi by done.
    apply Hall. by eapply list_elem_of_lookup_2.
Qed.

Lemma cellAt_updCell f p g q :
  cellAt (updCell f p g) q = if decide (p = q) then f <$> cellAt g q else cellAt g q.
Proof.
  unfold cellAt. rewrite updCell_validPos. unfold updCell.
  destruct (validPos g p) eqn:Hp.
  - destruct (validPos g q) eqn:Hq; [|by case_decide].
    simpl. apply validPos_spec in Hp, Hq.
    case_decide as Hpq.
    + subst q. rewrite list_lookup_alter_eq.
      destruct (cells g !! Z.to_nat p.2); [|done]. simpl.
      by rewrite list_lookup_alter_eq.
    + destruct (decide (p.2 = q.2)) as [E2|N2].
      * rewrite E2, list_lookup_alter_eq.
        destruct (cells g !! Z.to_nat q.2); [|done]. simpl.
        rewrite list_lookup_alter_ne; [done|].
        intros E. apply Hpq. destruct p, q; simpl in *. f_equal; lia.
      * rewrite list_lookup_alter_ne; [done|lia].
  - case_decide; [subst q; by rewrite Hp|done].
Qed.

Lemma cellOf_updCell f p g q :
  wf_grid g → validPos g p = true →
  cellOf (updCell f p g) q = if decide (p = q) then f (cellOf g q) else cellOf g q.
Proof.
  intros Hwf Hp. unfold cellOf. rewrite cellAt_updCell.
  case_decide; [|done]. subst q.
  by destruct (cellAt_valid g p Hwf Hp) as [c ->].
Qed.

Lemma cellOf_updCell_ne f p g q : p ≠ q → cellOf (updCell f p g) q = cellOf g q.
Proof. intros Hne. unfold cellOf. rewrite cellAt_updCell. by case_decide. Qed.

Lemma cellOf_updCell_eq f p g :
  wf_grid g → validPos g p = true → cellOf (updCell f p g) p = f (cellOf g p).
Proof. intros Hwf Hp. rewrite cellOf_updCell by done. by case_decide. Qed.

(** ** Neighbours *)

Lemma getNeighbors_ext g g' c :
  cols g = cols g' → rows g = rows g' →
  (∀ p, type (cellOf g p) = type (cellOf g' p)) →
  getNeighbors g c = getNeighbors g' c.
Proof.
  intros Hc Hr Ht. unfold getNeighbors. apply list_omap_ext.
  apply Forall2_same_length_lookup. split; [done|].
  intros i d d' Hd Hd'. assert (d' = d) as -> by congruence.
  simpl. unfold getCell, isValidCell. rewrite Hc, Hr.
  destruct (_ && _); [|done]. by rewrite Ht.
Qed.

Lemma elem_of_getNeighbors g p q :
  q ∈ getNeighbors g p ↔ adjacent p q ∧ passable g q.
Proof.
  unfold getNeighbors, adjacent, passable. rewrite list_elem_of_omap. split.
  - intros (d & Hd & Hq). simpl in Hq. unfold getCell in Hq.
    destruct (isValidCell g (p.1 + d.1) (p.2 + d.2)) eqn:Hv; [|done].
    case_decide as Hw; [|done]. injection Hq as <-.
    split; [|by split].
    unfold directions in Hd. simpl.
    set_unfold. destruct Hd as [->|[->|[->|[->|[]]]]]; simpl; lia.
  - intros (Hadj & Hv & Hw).
    exists (q.1 - p.1, q.2 - p.2). split.
    + unfold directions. set_unfold.
      assert (q.1 - p.1 = -1 ∧ q.2 - p.2 = 0 ∨ q.1 - p.1 = 1 ∧ q.2 - p.2 = 0 ∨
              q.1 - p.1 = 0 ∧ q.2 - p.2 = -1 ∨ q.1 - p.1 = 0 ∧ q.2 - p.2 = 1)
        as [[-> ->]|[[-> ->]|[[-> ->]|[-> ->]]]] by lia; auto.
    + simpl. unfold getCell.
      replace (p.1 + (q.1 - p.1)) with q.1 by lia.
      replace (p.2 + (q.2 - p.2)) with q.2 by lia.
      unfold validPos in Hv. rewrite Hv.
      destruct q as [qc qr]. simpl in *. by case_decide.
Qed.

(** ** The inner loop of [runBFS] *)

Lemma explore_old cur L n :
  n ∈ visited L → explore cur L n = L.
Proof. intros H. unfold explore. by case_decide. Qed.

Lemma explore_new cur L n :
  n ∉ visited L → wf_grid (grid (this L)) → validPos (grid (this L)) n = true →
  cur ≠ n →
  ∃ g', explore cur L n =
          mkLoop (queue L ++ [n]) ({[n]} ∪ visited L) (set_grid g' (this L)) ∧
        wf_grid g' ∧ cols g' = cols (grid (this L)) ∧ rows g' = rows (grid (this L)) ∧
        start g' = start (grid (this L)) ∧ goal g' = goal (grid (this L)) ∧
        ∀ p, cellOf g' p =
             if decide (p = n)
             then discover cur (distance (cellOf (grid (this L)) cur)) (cellOf (grid (this L)) p)
             else cellOf (grid (this L)) p.
Proof.
  intros Hn Hwf Hv Hne. unfold explore. case_decide; [done|].
  eexists. split; [reflexivity|].
  set (g := grid (this L)) in *.
  set (g1 := updCell (set_parent (Some cur)) n g).
  set (g2 := updCell _ n g1).
  assert (wf_grid g1) by by apply updCell_wf.
  assert (wf_grid g2) by by apply updCell_wf.
  assert (validPos g1 n = true) by by (unfold g1; rewrite updCell_validPos).
  assert (validPos g2 n = true) by by (unfold g2; rewrite updCell_validPos).
  split; [by apply updCell_wf|].
  unfold g2, g1. rewrite !updCell_cols, !updCell_rows, !updCell_start, !updCell_goal.
  repeat split; try done.
  intros p. fold g1. fold g2.
  rewrite cellOf_updCell by done.
  case_decide as E1; case_decide as E2; try congruence.
  - subst p. unfold g2. rewrite cellOf_updCell_eq by done.
    unfold g1 at 2. rewrite cellOf_updCell_eq by done.
    unfold g1. rewrite cellOf_updCell_ne by (intros ->; done). done.
  - unfold g2. rewrite cellOf_updCell_ne by done.
    unfold g1. by rewrite cellOf_updCell_ne.
Qed.

Lemma explore_fold cur ns : ∀ L,
  wf_grid (grid (this L)) →
  (∀ n, n ∈ ns → validPos (grid (this L)) n = true) →
  cur ∈ visited L →
  ∃ fresh g',
    foldl (explore cur) L ns =
      mkLoop (queue L ++ fresh) (visited L ∪ list_to_set fresh) (set_grid g' (this L)) ∧
    NoDup fresh ∧
    (∀ p, p ∈ fresh ↔ p ∈ ns ∧ p ∉ visited L) ∧
    wf_grid g' ∧ cols g' = cols (grid (this L)) ∧ rows g' = rows (grid (this L)) ∧
    start g' = start (grid (this L)) ∧ goal g' = goal (grid (this L)) ∧
    ∀ p, cellOf g' p =
         if decide (p ∈ fresh)
         then discover cur (distance (cellOf (grid (this L)) cur)) (cellOf (grid (this L)) p)
         else cellOf (grid (this L)) p.
Proof.
  induction ns as [|n ns IH]; intros L Hwf Hval Hcur.
  - exists [], (grid (this L)). simpl. rewrite app_nil_r, union_empty_r_L.
    destruct L as [q vs [g r pz vc pl]]; simpl.
    split; [done|]. split; [apply NoDup_nil_2|]. split; [set_solver|].
    simpl in *. by split_and!.
  - simpl. destruct (decide (n ∈ visited L)) as [Hin|Hnin].
    + rewrite explore_old by done.
      destruct (IH L) as (fresh & g' & Hfold & Hnd & Hfresh & Hrest); [done|set_solver|done|].
      exists fresh, g'. split; [done|]. split; [done|]. split; [|done].
      intros p. rewrite Hfresh. set_solver.
    + assert (cur ≠ n) as Hne by (intros ->; done).
      destruct (explore_new cur L n) as (g1 & -> & Hwf1 & Hc1 & Hr1 & Hs1 & Hg1 & Hcell1);
        [done|done|apply Hval; set_solver|done|].
      set (L1 := mkLoop _ _ _).
      destruct (IH L1) as (fresh & g' & Hfold & Hnd & Hfresh & Hwf' & Hc' & Hr' & Hs' & Hg' & Hcell').
      { done. }
      { intros m Hm. simpl. unfold validPos, isValidCell. rewrite Hc1, Hr1.
        apply Hval. set_solver. }
      { simpl. set_solver. }
      simpl in *.
      exists (n :: fresh), g'. split.
      { rewrite Hfold. f_equal.
        - by rewrite <-app_assoc.
        - simpl. set_solver. }
      split.
      { apply NoDup_cons_2; [|done]. rewrite Hfresh. set_solver. }
      split.
      { intros p. rewrite elem_of_cons, Hfresh. set_unfold.
        destruct (decide (p = n)) as [->|]; naive_solver. }
      split; [done|].
      split; [congruence|]. split; [congruence|].
      split; [congruence|]. split; [congruence|].
      intros p. rewrite Hcell', !Hcell1.
      destruct (decide (cur = n)); [done|].
      destruct (decide (p = n)) as [->|Hpn].
      * rewrite decide_False by (rewrite Hfresh; set_solver).
        by rewrite decide_True by set_solver.
      * destruct (decide (p ∈ fresh)).
        -- by rewrite decide_True by set_solver.
        -- by rewrite decide_False by set_solver.
Qed.

(** ** One round of the loop preserves the invariant *)

Lemma dz_Fin g p n : distance (cellOf g p) = Fin n → dz g p = n.
Proof. unfold dz. by intros ->. Qed.

Section Round.
Variables (g0 : Grid) (s : Pos) (vc0 : Z) (L : Loop) (cur : Pos) (rest : list Pos).
Hypothesis HI : Inv g0 s vc0 L.
Hypothesis HQ : queue L = cur :: rest.

Let g := grid (this L).
Let V := visited L.
Let L1 := dequeue cur rest L.
Let L' := foldl (explore cur) L1 (getNeighbors (grid (this L1)) cur).

Lemma cur_visited : cur ∈ V.
Proof. apply (inv_queue _ _ _ _ HI). rewrite HQ. set_solver. Qed.

Lemma cur_valid : validPos g cur = true.
Proof.
  unfold validPos, isValidCell, g.
  rewrite (inv_cols _ _ _ _ HI), (inv_rows _ _ _ _ HI).
  apply (inv_valid _ _ _ _ HI), cur_visited.
Qed.

Lemma cur_not_rest : cur ∉ rest.
Proof.
  pose proof (inv_nodup _ _ _ _ HI) as Hnd. rewrite HQ in Hnd.
  by apply NoDup_cons_1_1 in Hnd.
Qed.

Lemma cur_dist : ∃ n, 0 ≤ n ∧ distance (cellOf g cur) = Fin n.
Proof. apply (inv_dist _ _ _ _ HI), cur_visited. Qed.

Lemma neighbors_round : getNeighbors (grid (this L1)) cur = getNeighbors g0 cur.
Proof.
  apply getNeighbors_ext; simpl.
  - rewrite updCell_cols. apply HI.
  - rewrite updCell_rows. apply HI.
  - intros p. rewrite cellOf_updCell by (apply HI || apply cur_valid).
    case_decide; [subst p; simpl|]; apply HI.
Qed.

Lemma round_summary :
  ∃ fresh g',
    L' = mkLoop (rest ++ fresh) (V ∪ list_to_set fresh)
           (set_visitedCount (visitedCount (this L) + 1) (set_grid g' (this L))) ∧
    NoDup fresh ∧
    (∀ p, p ∈ fresh ↔ p ∈ getNeighbors g0 cur ∧ p ∉ V) ∧
    wf_grid g' ∧ cols g' = cols g0 ∧ rows g' = rows g0 ∧
    start g' = start g0 ∧ goal g' = goal g0 ∧
    ∀ p, cellOf g' p =
         if decide (p ∈ fresh) then discover cur (distance (cellOf g cur)) (cellOf g p)
         else if decide (p = cur) then set_state Visited (cellOf g p)
         else cellOf g p.
Proof.
  pose proof cur_valid as Hcv. pose proof cur_visited as Hcur.
  assert (wf_grid g) as Hwf by apply HI.
  destruct (explore_fold cur (getNeighbors (grid (this L1)) cur) L1)
    as (fresh & g' & Hfold & Hnd & Hfresh & Hwf' & Hc & Hr & Hs & Hg & Hcell).
  { simpl. by apply updCell_wf. }
  { intros n Hn. apply elem_of_getNeighbors in Hn as [_ [Hv _]]. done. }
  { done. }
  exists fresh, g'. rewrite neighbors_round in Hfresh. simpl in *.
  rewrite updCell_cols in Hc. rewrite updCell_rows in Hr.
  rewrite updCell_start in Hs. rewrite updCell_goal in Hg.
  split.
  { unfold L'. rewrite Hfold. by destruct L as [q vs [? ? ? ? ?]]. }
  split; [done|]. split; [done|]. split; [done|].
  split; [rewrite Hc; apply HI|]. split; [rewrite Hr; apply HI|].
  split; [rewrite Hs; apply HI|]. split; [rewrite Hg; apply HI|].
  intros p. rewrite Hcell.
  rewrite !(cellOf_updCell _ cur) by done.
  rewrite (decide_True (P := cur = cur)) by done.
  destruct (decide (p ∈ fresh)) as [Hp|Hp].
  - assert (cur ≠ p) by (intros ->; apply Hfresh in Hp; tauto).
    by rewrite decide_False by done.
  - destruct (decide (p = cur)) as [->|]; [by rewrite decide_True|].
    by rewrite decide_False by done.
Qed.

Lemma queue_lower n :
  distance (cellOf g cur) = Fin n → ∀ q, q ∈ queue L → n ≤ dz g q.
Proof.
  intros Hd q Hq. pose proof (inv_sorted _ _ _ _ HI) as Hs.
  rewrite HQ in Hs, Hq. rewrite fmap_cons in Hs.
  apply StronglySorted_cons in Hs as [Hall _].
  fold g in Hall. rewrite (dz_Fin _ _ _ Hd) in Hall.
  apply elem_of_cons in Hq as [->|Hq]; [by rewrite (dz_Fin _ _ _ Hd)|].
  rewrite Forall_forall in Hall. apply Hall. by apply list_elem_of_fmap_2.
Qed.

Lemma visited_upper n :
  distance (cellOf g cur) = Fin n → ∀ w, w ∈ V → dz g w ≤ n + 1.
Proof.
  intros Hd w Hw. destruct (decide (w ∈ queue L)) as [Hq|Hq].
  - pose proof (inv_span _ _ _ _ HI cur w) as Hsp. rewrite HQ in Hsp.
    fold g in Hsp. rewrite (dz_Fin _ _ _ Hd) in Hsp. apply Hsp; [done|].
    by rewrite <-HQ.
  - pose proof (inv_done _ _ _ _ HI w cur Hw Hq) as Hdn.
    fold g in Hdn. rewrite (dz_Fin _ _ _ Hd) in Hdn.
    assert (cur ∈ queue L) by (rewrite HQ; set_solver). specialize (Hdn H). lia.
Qed.

Hypothesis Hng : goal (grid (this L)) ≠ Some cur.

Lemma round_inv : Inv g0 s vc0 L'.
Proof.
  destruct round_summary
    as (fresh & g' & -> & Hnd & Hfresh & Hwf' & Hc & Hr & Hs & Hg & Hcell).
  destruct cur_dist as (n & Hn0 & Hd).
  pose proof cur_visited as Hcur. pose proof cur_not_rest as Hcr.
  pose proof (queue_lower n Hd) as Hlow.
  pose proof (visited_upper n Hd) as Hup.
  assert (∀ p, p ∈ fresh → p ∉ V) as Hfv by (intros p Hp; apply Hfresh in Hp; tauto).
  assert (cur ∉ fresh) as Hcf by (intros Hp; by apply Hfv in Hp).
  assert (∀ p, p ∈ rest → p ∈ V) as Hrv.
  { intros p Hp. apply (inv_queue _ _ _ _ HI). rewrite HQ. set_solver. }
  assert (∀ p, p ∈ rest → p ∉ fresh) as Hrf by (intros p Hp Hf; by apply (Hfv p Hf), Hrv).
  assert (∀ p, type (cellOf g' p) = type (cellOf g p)) as Htype.
  { intros p. rewrite Hcell. by repeat case_decide. }
  assert (∀ p, distance (cellOf g' p) =
               if decide (p ∈ fresh) then Fin (n + 1) else distance (cellOf g p)) as Hdist.
  { intros p. rewrite Hcell. repeat case_decide; simpl; by rewrite ?Hd. }
  assert (∀ p, parent (cellOf g' p) =
               if decide (p ∈ fresh) then Some cur else parent (cellOf g p)) as Hpar.
  { intros p. rewrite Hcell. by repeat case_decide. }
  assert (∀ p, dz g' p = if decide (p ∈ fresh) then n + 1 else dz g p) as Hdz.
  { intros p. unfold dz. rewrite Hdist. by case_decide. }
  assert (∀ q, q ∈ rest ++ fresh → n ≤ dz g' q ≤ n + 1) as Hband.
  { intros q Hq. rewrite Hdz. case_decide; [lia|].
    apply elem_of_app in Hq as [Hq|Hq]; [|done].
    split; [apply Hlow; rewrite HQ; set_solver|apply Hup, Hrv, Hq]. }
  constructor; simpl.
  - done.
  - done.
  - done.
  - done.
  - done.
  - intros p. rewrite Htype. apply HI.
  - intros p Hp. apply elem_of_union in Hp as [Hp|Hp]; [by apply HI|].
    apply elem_of_list_to_set, Hfresh in Hp as [Hp _].
    apply elem_of_getNeighbors in Hp as [_ [Hv _]]. done.
  - intros p Hp. apply elem_of_app in Hp as [Hp|Hp]; set_solver.
  - apply NoDup_app. split; [|split; [|done]].
    + pose proof (inv_nodup _ _ _ _ HI) as H. rewrite HQ in H.
      by apply NoDup_cons_1_2 in H.
    + done.
  - destruct (inv_s _ _ _ _ HI) as (Hs1 & Hs2 & Hs3).
    split; [set_solver|].
    rewrite Hpar, Hdist.
    rewrite !decide_False by (intros Hp; by apply Hfv in Hp). done.
  - intros p Hp. rewrite Hdist. case_decide; [exists (n + 1); split; [lia|done]|].
    apply (inv_dist _ _ _ _ HI). set_solver.
  - intros p Hp Hps. rewrite Hpar, Hdist.
    destruct (decide (p ∈ fresh)) as [Hpf|Hpf].
    + exists cur. split; [done|]. split; [set_solver|].
      split; [rewrite elem_of_app; tauto|].
      split; [by apply Hfresh in Hpf as [? _]|].
      rewrite Hdist, decide_False by done. fold g. by rewrite Hd.
    + assert (p ∈ V) as HpV by set_solver.
      destruct (inv_tree _ _ _ _ HI p HpV Hps) as (u & Hu1 & Hu2 & Hu3 & Hu4 & Hu5).
      exists u. split; [done|]. split; [set_solver|].
      split.
      { rewrite elem_of_app. intros [Hur|Huf].
        - apply Hu3. rewrite HQ. set_solver.
        - by apply (Hfv u). }
      split; [done|].
      rewrite Hdist, decide_False by (intros Huf; by apply (Hfv u)). done.
  - rewrite fmap_app. apply StronglySorted_app. split; [|split].
    + intros x1 x2 Hx1 Hx2.
      apply list_elem_of_fmap in Hx1 as (a & -> & Ha).
      apply list_elem_of_fmap in Hx2 as (b & -> & Hb).
      rewrite !Hdz. rewrite decide_False by by apply Hrf.
      rewrite decide_True by done. by apply Hup, Hrv.
    + pose proof (inv_sorted _ _ _ _ HI) as H. rewrite HQ, fmap_cons in H.
      apply StronglySorted_cons in H as [_ H].
      erewrite list_fmap_ext; [exact H|].
      intros i a Ha. simpl. rewrite Hdz, decide_False; [done|].
      apply Hrf. by eapply list_elem_of_lookup_2.
    + erewrite (list_fmap_ext _ (λ _, n + 1)).
      * clear. induction fresh; simpl; constructor; [done|].
        apply Forall_forall. intros x Hx.
        apply list_elem_of_fmap in Hx as (? & -> & ?). lia.
      * intros i a Ha. simpl. rewrite Hdz, decide_True; [done|].
        by eapply list_elem_of_lookup_2.
  - intros h a Hh Ha.
    assert (h ∈ rest ++ fresh) as Hhin.
    { destruct (rest ++ fresh); simplify_eq/=. set_solver. }
    apply Hband in Hhin, Ha. lia.
  - intros u w Hu Huq Hw.
    assert (u ∉ fresh) as Huf by (rewrite elem_of_app in Huq; tauto).
    assert (u ∈ V) as HuV by set_solver.
    destruct (decide (u = cur)) as [->|Hne].
    + destruct (decide (w ∈ V)); [set_solver|].
      apply elem_of_union_r, elem_of_list_to_set, Hfresh. done.
    + apply elem_of_union_l. apply (inv_closed _ _ _ _ HI u w); [done| |done].
      rewrite HQ. rewrite elem_of_cons. rewrite elem_of_app in Huq. tauto.
  - intros u w Hu Hw Hedge. rewrite !Hdz.
    destruct (decide (w ∈ fresh)) as [Hwf|Hwf]; destruct (decide (u ∈ fresh)) as [Huf|Huf].
    + lia.
    + assert (u ∈ V) as HuV by set_solver.
      assert (u ∈ queue L) as Huq.
      { destruct (decide (u ∈ queue L)) as [|Hnq]; [done|].
        exfalso. apply (Hfv w Hwf). by apply (inv_closed _ _ _ _ HI u w). }
      apply Hlow in Huq. lia.
    + assert (w ∈ V) as HwV by set_solver. apply Hup in HwV. lia.
    + apply (inv_edge _ _ _ _ HI); set_solver.
  - intros u q Hu Huq Hq. rewrite elem_of_app in Huq.
    assert (u ∉ fresh) as Huf by tauto.
    assert (u ∈ V) as HuV by set_solver.
    apply Hband in Hq. rewrite Hdz, decide_False by done.
    destruct (decide (u = cur)) as [->|Hne].
    + rewrite (dz_Fin _ _ _ Hd). lia.
    + assert (u ∉ queue L) as Hnq by (rewrite HQ, elem_of_cons; tauto).
      pose proof (inv_done _ _ _ _ HI u cur HuV Hnq) as H.
      fold g in H. rewrite (dz_Fin _ _ _ Hd) in H.
      assert (cur ∈ queue L) by (rewrite HQ; set_solver). specialize (H H0). lia.
  - intros p. rewrite Hcell.
    destruct (decide (p ∈ fresh)) as [Hpf|Hpf].
    + rewrite decide_True by (apply elem_of_union_r; by apply elem_of_list_to_set).
      rewrite decide_True by (rewrite elem_of_app; tauto). done.
    + destruct (decide (p = cur)) as [->|Hne].
      * rewrite decide_True by by apply elem_of_union_l.
        rewrite decide_False by (rewrite elem_of_app; tauto). done.
      * simpl. unfold g. rewrite (inv_state _ _ _ _ HI p). fold V. rewrite HQ.
        assert (p ∈ V ∪ list_to_set fresh ↔ p ∈ V) as E1
          by (rewrite elem_of_union, elem_of_list_to_set; tauto).
        assert (p ∈ rest ++ fresh ↔ p ∈ cur :: rest) as E2
          by (rewrite elem_of_app, elem_of_cons; tauto).
        repeat case_decide; tauto || done.
  - rewrite (inv_count _ _ _ _ HI), HQ. fold V.
    rewrite size_union by (set_unfold; intros x Hx1 Hx2; by apply (Hfv x)).
    rewrite size_list_to_set by done.
    rewrite length_app. simpl. lia.
  - intros p Hp. apply not_elem_of_union in Hp as [HpV Hpf].
    rewrite elem_of_list_to_set in Hpf. rewrite Hcell.
    rewrite decide_False by done.
    rewrite decide_False by (intros ->; by apply HpV).
    by apply (inv_unseen _ _ _ _ HI).
  - intros t Ht Htv. rewrite elem_of_app.
    apply elem_of_union in Htv as [Htv|Htv];
      [left|right; by apply elem_of_list_to_set in Htv].
    pose proof (inv_pending _ _ _ _ HI t Ht Htv) as Hq.
    rewrite HQ in Hq. apply elem_of_cons in Hq as [->|Hq]; [|done].
    exfalso. apply Hng. by rewrite (inv_goal _ _ _ _ HI).
  - apply HI.
Qed.

End Round.

Lemma round_continue g0 s vc0 fuel L cur rest :
  Inv g0 s vc0 L → queue L = cur :: rest → goal g0 ≠ Some cur →
  ∃ L', bfs_round fuel L = Some (Continue L') ∧ Inv g0 s vc0 L' ∧
        visitedCount (this L') = visitedCount (this L) + 1 ∧
        (∀ p, p ∈ visited L → p ∈ visited L' ∧
              distance (cellOf (grid (this L')) p) = distance (cellOf (grid (this L)) p) ∧
              parent (cellOf (grid (this L')) p) = parent (cellOf (grid (this L)) p)).
Proof.
  intros HI HQ Hng.
  assert (goal (grid (this L)) ≠ Some cur) as Hng' by by rewrite (inv_goal _ _ _ _ HI).
  eexists. split; [|split; [|split]].
  - unfold bfs_round, bfs_body. rewrite HQ, (inv_paused _ _ _ _ HI).
    rewrite decide_False; [reflexivity|]. simpl. by rewrite updCell_goal.
  - by apply round_inv.
  - destruct (round_summary g0 s vc0 L cur rest HI HQ) as (fresh & g' & -> & _).
    reflexivity.
  - intros p Hp.
    destruct (round_summary g0 s vc0 L cur rest HI HQ)
      as (fresh & g' & -> & Hnd & Hfresh & Hwf' & Hc & Hr & Hs & Hg & Hcell).
    simpl. split; [by apply elem_of_union_l|]. rewrite Hcell.
    rewrite decide_False by (intros Hf; apply Hfresh in Hf; tauto).
    by case_decide.
Qed.



(** ** The state on entry to the loop *)

Lemma fresh_cellOf g p : fresh g → freshCell (cellOf g p).
Proof.
  intros Hf. unfold cellOf, cellAt.
  destruct (validPos g p); [|done].
  destruct (cells g !! Z.to_nat p.2) as [r|] eqn:Er; [|done]. simpl.
  destruct (r !! Z.to_nat p.1) as [c|] eqn:Ec; [|done]. simpl.
  unfold fresh in Hf. rewrite Forall_forall in Hf.
  specialize (Hf r (list_elem_of_lookup_2 _ _ _ Er)).
  rewrite Forall_forall in Hf. apply Hf. by eapply list_elem_of_lookup_2.
Qed.

Lemma Grid_reset_fresh g : fresh (Grid_reset g).
Proof.
  unfold fresh, Grid_reset. simpl.
  apply Forall_forall. intros r Hr. apply list_elem_of_fmap in Hr as (r0 & -> & _).
  apply Forall_forall. intros c Hc. apply list_elem_of_fmap in Hc as (c0 & -> & _).
  done.
Qed.

Lemma init_inv v s :
  wf_grid (grid v) → fresh (grid v) → isPaused v = false →
  start (grid v) = Some s → validPos (grid v) s = true →
  ∃ L0, bfs_init v = Some L0 ∧ Inv (grid v) s (visitedCount v) L0 ∧
        queue L0 = [s] ∧ visited L0 = {[s]}.
Proof.
  intros Hwf Hfr0 Hp Hs Hv. unfold bfs_init. rewrite Hs.
  assert (∀ p, freshCell (cellOf (grid v) p)) as Hfr by (intros p; by apply fresh_cellOf).
  eexists. split; [reflexivity|]. split; [|done].
  set (g := grid v).
  set (g1 := updCell (set_distance (Fin 0)) s g).
  assert (wf_grid g1) as Hwf1 by by apply updCell_wf.
  assert (validPos g1 s = true) as Hv1 by by (unfold g1; rewrite updCell_validPos).
  assert (∀ p, cellOf (updCell (set_state Frontier) s g1) p =
               if decide (p = s) then set_state Frontier (set_distance (Fin 0) (cellOf g p))
               else cellOf g p) as Hcell.
  { intros p. rewrite cellOf_updCell by done. unfold g1.
    rewrite cellOf_updCell by done.
    destruct (decide (s = p)) as [->|]; [by rewrite decide_True|].
    by rewrite decide_False by done. }
  constructor; cbn [queue visited this grid visitedCount isPaused set_grid].
  - by apply updCell_wf.
  - unfold g1. by rewrite !updCell_cols.
  - unfold g1. by rewrite !updCell_rows.
  - unfold g1. by rewrite !updCell_start.
  - unfold g1. by rewrite !updCell_goal.
  - intros p. rewrite Hcell. by case_decide.
  - intros p Hp'. by apply elem_of_singleton in Hp' as ->.
  - intros p Hp'. set_solver.
  - apply NoDup_singleton.
  - split; [set_solver|]. rewrite Hcell, decide_True by done. simpl.
    split; [apply Hfr|done].
  - intros p Hp'. apply elem_of_singleton in Hp' as ->. exists 0.
    split; [done|]. rewrite Hcell, decide_True by done. done.
  - intros p Hp'. apply elem_of_singleton in Hp' as ->. done.
  - repeat constructor.
  - intros h a Hh Ha. apply list_elem_of_singleton in Ha as ->.
    injection Hh as ->. lia.
  - intros u w Hu Hnq. set_solver.
  - intros u w Hu Hw _. apply elem_of_singleton in Hu as ->.
    apply elem_of_singleton in Hw as ->. lia.
  - intros u q Hu Hnq. set_solver.
  - intros p. rewrite Hcell.
    destruct (decide (p = s)) as [->|Hne].
    + rewrite decide_True by set_solver. rewrite decide_True by set_solver. done.
    + rewrite decide_False by set_solver. apply Hfr.
  - rewrite size_singleton. simpl. lia.
  - intros p Hp'. rewrite Hcell, decide_False by set_solver. apply Hfr.
  - intros t _ Ht. set_solver.
  - done.
Qed.

(** ** Distances recorded by the loop are hop counts *)

Section Distances.
Variables (g0 : Grid) (s : Pos) (vc0 : Z) (L : Loop).
Hypothesis HI : Inv g0 s vc0 L.

Local Abbreviation g := (grid (this L)).
Local Abbreviation V := (visited L).

Lemma dz_start : dz g s = 0.
Proof. apply dz_Fin, HI. Qed.

Lemma dz_nonneg p : p ∈ V → 0 ≤ dz g p.
Proof.
  intros Hp. destruct (inv_dist _ _ _ _ HI p Hp) as (n & Hn & Hd).
  by rewrite (dz_Fin _ _ _ Hd).
Qed.

Lemma tree_parent p :
  p ∈ V → p ≠ s →
  ∃ u, parent (cellOf g p) = Some u ∧ u ∈ V ∧ p ∈ getNeighbors g0 u ∧
       dz g p = dz g u + 1.
Proof.
  intros Hp Hps.
  destruct (inv_tree _ _ _ _ HI p Hp Hps) as (u & Hu1 & Hu2 & _ & Hu4 & Hu5).
  exists u. split; [done|]. split; [done|]. split; [done|].
  destruct (inv_dist _ _ _ _ HI u Hu2) as (n & Hn & Hd).
  unfold dz. rewrite Hu5, Hd. done.
Qed.

Lemma visited_walk : ∀ (k : nat) p, p ∈ V → dz g p = Z.of_nat k → walk g0 s p k.
Proof.
  induction k as [|k IH]; intros p Hp Hk.
  - destruct (decide (p = s)) as [->|Hps]; [constructor|].
    destruct (tree_parent p Hp Hps) as (u & _ & Hu & _ & Hd).
    pose proof (dz_nonneg u Hu). lia.
  - destruct (decide (p = s)) as [->|Hps]; [rewrite dz_start in Hk; lia|].
    destruct (tree_parent p Hp Hps) as (u & _ & Hu & Hnb & Hd).
    apply elem_of_getNeighbors in Hnb as [Hadj Hpass].
    eapply walk_hop; [|done..]. apply IH; [done|lia].
Qed.

Lemma walk_lower v k :
  walk g0 s v k →
  (v ∈ V → dz g v ≤ Z.of_nat k) ∧
  (v ∉ V → ∃ q, q ∈ queue L ∧ dz g q < Z.of_nat k).
Proof.
  induction 1 as [|q r n Hw [IH1 IH2] Hadj Hpass].
  - split; [intros _; rewrite dz_start; lia|].
    intros Hs. exfalso. by destruct (inv_s _ _ _ _ HI) as [? _].
  - assert (r ∈ getNeighbors g0 q) as Hnb by by apply elem_of_getNeighbors.
    destruct (decide (q ∈ V)) as [Hq|Hq].
    + specialize (IH1 Hq). split.
      * intros Hr. pose proof (inv_edge _ _ _ _ HI q r Hq Hr Hnb). lia.
      * intros Hr. exists q. split; [|lia].
        destruct (decide (q ∈ queue L)) as [|Hnq]; [done|].
        exfalso. apply Hr. by apply (inv_closed _ _ _ _ HI q r).
    + destruct (IH2 Hq) as (q' & Hq' & Hlt). split.
      * intros Hr.
        destruct (queue L) as [|cur rest] eqn:HQ; [set_solver|].
        destruct (cur_dist g0 s vc0 L cur rest HI HQ) as (m & _ & Hd).
        pose proof (queue_lower g0 s vc0 L cur rest HI HQ m Hd q') as H1.
        pose proof (visited_upper g0 s vc0 L cur rest HI HQ m Hd r Hr) as H2.
        rewrite HQ in H1. specialize (H1 Hq'). lia.
      * intros _. exists q'. split; [done|lia].
Qed.

Lemma visited_min_hops p :
  p ∈ V → ∃ k : nat, distance (cellOf g p) = Fin (Z.of_nat k) ∧ min_hops g0 s p k.
Proof.
  intros Hp. destruct (inv_dist _ _ _ _ HI p Hp) as (n & Hn & Hd).
  exists (Z.to_nat n). rewrite Z2Nat.id by done. split; [done|]. split.
  - apply visited_walk; [done|]. rewrite (dz_Fin _ _ _ Hd). lia.
  - intros m Hm. destruct (walk_lower p m Hm) as [H _].
    specialize (H Hp). rewrite (dz_Fin _ _ _ Hd) in H. lia.
Qed.

Lemma walk_visited_or_pending v k :
  walk g0 s v k → queue L = [] → v ∈ V.
Proof.
  intros Hw HQ. destruct (decide (v ∈ V)) as [|Hv]; [done|].
  destruct (walk_lower v k Hw) as [_ H]. destruct (H Hv) as (q & Hq & _).
  rewrite HQ in Hq. set_solver.
Qed.

Lemma visited_bound : (size V ≤ cellCount g0)%nat.
Proof.
  unfold cellCount, size, set_size. simpl.
  transitivity (length (allPos g0)).
  - apply NoDup_incl_length.
    + apply NoDup_ListNoDup, NoDup_elements.
    + intros p Hp. apply list_elem_of_In in Hp. apply elem_of_elements in Hp.
      apply (inv_valid _ _ _ _ HI) in Hp. apply validPos_spec in Hp.
      unfold allPos. destruct p as [c r]. apply in_prod.
      * apply list_elem_of_In, elem_of_seqZ. simpl in *. lia.
      * apply list_elem_of_In, elem_of_seqZ. simpl in *. lia.
  - unfold allPos.
    pose proof (length_prod (seqZ 0 (cols g0)) (seqZ 0 (rows g0))) as H.
    rewrite !length_seqZ in H. unfold Pos. lia.
Qed.

End Distances.

(** ** Path reconstruction *)

Lemma linked_snoc g l u p :
  linked g l → last l = Some u → adjacent u p → passable g p → linked g (l ++ [p]).
Proof.
  intros Hl Hlast Hadj Hp. induction l as [|a l IH]; [done|].
  destruct l as [|b l].
  - simpl in *. injection Hlast as ->. tauto.
  - destruct Hl as (Ha & Hab & Hl). specialize (IH Hl Hlast).
    split; [done|]. split; [done|]. exact IH.
Qed.

Lemma reconstruct_visited g0 s vc0 L g' :
  Inv g0 s vc0 L → passable g0 s →
  (∀ q, parent (cellOf g' q) = parent (cellOf (grid (this L)) q)) →
  ∀ (k : nat) p, p ∈ visited L → dz (grid (this L)) p = Z.of_nat k →
  ∃ l, (∀ fuel acc, (k < fuel)%nat →
          reconstructPath_from fuel g' (Some p) acc = Some (l ++ acc)) ∧
       head l = Some s ∧ last l = Some p ∧ length l = S k ∧ linked g0 l ∧
       (∀ (i : nat) x, l !! i = Some x →
          x ∈ visited L ∧ dz (grid (this L)) x = Z.of_nat i).
Proof.
  intros HI Hs Hpar. induction k as [|k IH]; intros p Hp Hk.
  - assert (p = s) as ->.
    { destruct (decide (p = s)) as [|Hps]; [done|].
      destruct (tree_parent _ _ _ _ HI p Hp Hps) as (u & _ & Hu & _ & Hd).
      pose proof (dz_nonneg _ _ _ _ HI u Hu). lia. }
    exists [s]. split.
    { intros [|fuel] acc Hf; [lia|]. simpl.
      rewrite Hpar. destruct (inv_s _ _ _ _ HI) as (_ & -> & _). by destruct fuel. }
    split; [done|]. split; [done|]. split; [done|].
    split; [simpl; tauto|].
    intros [|i] x Hx; [|done]. injection Hx as <-. split; [done|]. by rewrite Hk.
  - assert (p ≠ s) as Hps.
    { intros ->. rewrite (dz_start _ _ _ _ HI) in Hk. lia. }
    destruct (tree_parent _ _ _ _ HI p Hp Hps) as (u & Hpu & Hu & Hnb & Hd).
    destruct (IH u Hu) as (l & Hrec & Hhd & Hlast & Hlen & Hlink & Hidx); [lia|].
    apply elem_of_getNeighbors in Hnb as [Hadj Hpass].
    exists (l ++ [p]). split.
    { intros [|fuel] acc Hf; [lia|]. simpl. rewrite Hpar, Hpu.
      rewrite Hrec by lia. by rewrite <-app_assoc. }
    split. { destruct l; [done|]. done. }
    split; [by rewrite last_snoc|].
    split; [rewrite length_app; simpl; lia|].
    split; [by eapply linked_snoc|].
    intros i x Hx. apply lookup_app_Some in Hx as [Hx|[Hge Hx]]; [by apply Hidx|].
    rewrite Hlen in *. destruct (i - S k)%nat as [|?] eqn:E; [|done].
    injection Hx as <-. split; [done|]. rewrite Hk. lia.
Qed.

Lemma dz_bound g0 s vc0 L p :
  Inv g0 s vc0 L → passable g0 s → p ∈ visited L →
  dz (grid (this L)) p < Z.of_nat (cellCount g0).
Proof.
  intros HI Hs Hp. pose proof (dz_nonneg _ _ _ _ HI p Hp) as H0.
  destruct (reconstruct_visited g0 s vc0 L (grid (this L)) HI Hs (λ _, eq_refl)
              (Z.to_nat (dz (grid (this L)) p)) p Hp)
    as (l & _ & _ & _ & Hlen & _ & Hidx); [lia|].
  assert (NoDup l) as Hnd.
  { apply NoDup_alt. intros i j x Hi Hj.
    apply Hidx in Hi as [_ Hi]. apply Hidx in Hj as [_ Hj]. lia. }
  assert (length l ≤ size (visited L))%nat as Hle.
  { rewrite <-(size_list_to_set (C := gset Pos)) by done.
    apply subseteq_size. intros x Hx. apply elem_of_list_to_set in Hx.
    apply list_elem_of_lookup in Hx as [i Hi]. by apply Hidx in Hi as [? _]. }
  pose proof (visited_bound _ _ _ _ HI). lia.
Qed.

(** ** The loop terminates and its result is right *)

Lemma reaches_front L L' Lf fuel :
  bfs_round fuel L = Some (Continue L') → bfs_reaches L' Lf → bfs_reaches L Lf.
Proof.
  intros Hr. induction 1 as [|M M' f _ IH HM].
  - eapply reaches_next; [constructor|done].
  - eapply reaches_next; [exact IH|done].
Qed.

Lemma bfs_while_spec g0 s vc0 :
  passable g0 s →
  ∀ fuel L,
    Inv g0 s vc0 L →
    (2 * cellCount g0 + 1 + length (queue L) ≤ fuel + size (visited L))%nat →
    ∃ r v' Lf,
      bfs_while fuel L = Some (r, v') ∧ bfs_reaches L Lf ∧ Inv g0 s vc0 Lf ∧
      (Exhausted Lf r v' ∨ Found g0 s Lf r v').
Proof.
  intros Hs. induction fuel as [|fuel IH]; intros L HI Hfuel.
  { pose proof (visited_bound _ _ _ _ HI). lia. }
  simpl. unfold bfs_round.
  destruct (queue L) as [|cur rest] eqn:HQ.
  { exists noPath, (this L), L. split; [done|]. split; [constructor|].
    split; [done|]. by left. }
  rewrite (inv_paused _ _ _ _ HI).
  destruct (decide (goal g0 = Some cur)) as [Hg|Hg].
  - unfold bfs_body. rewrite decide_True
      by (simpl; by rewrite updCell_goal, (inv_goal _ _ _ _ HI)).
    assert (cur ∈ visited L) as Hcur by (eapply cur_visited; eauto).
    pose proof (dz_nonneg _ _ _ _ HI cur Hcur) as Hk0.
    pose proof (dz_bound _ _ _ _ cur HI Hs Hcur) as Hkb.
    pose proof (visited_bound _ _ _ _ HI) as HVb.
    destruct (reconstruct_visited g0 s vc0 L
                (grid (this (dequeue cur rest L))) HI Hs) with
      (k := Z.to_nat (dz (grid (this L)) cur)) (p := cur)
      as (l & Hrec & Hhd & Hlast & Hlen & Hlink & _); [|done|lia|].
    { intros q. simpl.
      destruct (decide (cur = q)) as [->|Hne].
      - rewrite cellOf_updCell_eq; [done|apply HI|by eapply cur_valid].
      - by rewrite cellOf_updCell_ne. }
    unfold reconstructPath. rewrite Hrec by (simpl in Hfuel; lia).
    rewrite app_nil_r. simpl.
    eexists _, _, L. split; [reflexivity|]. split; [constructor|]. split; [done|].
    right. exists cur, rest, l. rewrite Hlen. split_and!; try done. lia.
  - destruct (round_continue g0 s vc0 fuel L cur rest HI HQ Hg)
      as (L' & Hround & HI' & Hvc & _).
    unfold bfs_round in Hround. rewrite HQ, (inv_paused _ _ _ _ HI) in Hround.
    rewrite Hround.
    destruct (IH L' HI') as (r & v' & Lf & Hrun & Hreach & HIf & Hpost).
    { pose proof (inv_count _ _ _ _ HI) as H1.
      pose proof (inv_count _ _ _ _ HI') as H2.
      rewrite HQ in H1. simpl in *. lia. }
    exists r, v', Lf. split; [done|]. split; [|done].
    eapply (reaches_front _ _ _ fuel); [|done].
    unfold bfs_round. by rewrite HQ, (inv_paused _ _ _ _ HI).
Qed.

Lemma runBFS_spec v s fuel :
  wf_grid (grid v) → fresh (grid v) → isPaused v = false →
  start (grid v) = Some s → passable (grid v) s →
  (2 * cellCount (grid v) + 1 ≤ fuel)%nat →
  ∃ r v' Lf,
    runBFS fuel v = Some (r, v') ∧ Inv (grid v) s (visitedCount v) Lf ∧
    (Exhausted Lf r v' ∨ Found (grid v) s Lf r v').
Proof.
  intros Hwf Hfr Hp Hs Hpass Hfuel.
  destruct (init_inv v s Hwf Hfr Hp Hs) as (L0 & Hinit & HI0 & HQ0 & HV0); [apply Hpass|].
  destruct (bfs_while_spec (grid v) s (visitedCount v) Hpass fuel L0 HI0)
    as (r & v' & Lf & Hrun & _ & HIf & Hpost).
  { rewrite HQ0, HV0, size_singleton. simpl. lia. }
  exists r, v', Lf. split; [|done].
  unfold runBFS. rewrite Hinit. done.
Qed.

(** ** Properties of the specification *)

(** C1.  When the goal is reachable from the start through non-wall cells,
    [runBFS] returns [pathFound = true] and a path that begins at the start,
    ends at the goal, links orthogonally adjacent non-wall cells, and whose
    edge count, stored in [pathLength], is the minimum hop count. *)
Theorem runBFS_finds_shortest_path (v : BFSVisualizer) (s t : Pos) (fuel : nat) :
  wf_grid (grid v) → fresh (grid v) → isPaused v = false →
  start (grid v) = Some s → goal (grid v) = Some t →
  passable (grid v) s → reachable (grid v) s t →
  (2 * cellCount (grid v) + 1 ≤ fuel)%nat →
  ∃ p v',
    runBFS fuel v = Some (mkResult true p, v') ∧
    head p = Some s ∧ last p = Some t ∧ linked (grid v) p ∧
    pathLength v' = Z.of_nat (length p) - 1 ∧
    min_hops (grid v) s t (length p - 1).
Proof.
  intros Hwf Hfr Hp Hs Hg Hpass [n Hwalk] Hfuel.
  destruct (runBFS_spec v s fuel Hwf Hfr Hp Hs Hpass Hfuel)
    as (r & v' & Lf & Hrun & HI & [(HQ & _ & _)|Hfound]).
  - exfalso.
    pose proof (walk_visited_or_pending _ _ _ _ HI t n Hwalk HQ) as Ht.
    pose proof (inv_pending _ _ _ _ HI t Hg Ht) as Hq.
    rewrite HQ in Hq. set_solver.
  - destruct Hfound as (t' & rest & l & HQ & Hg' & -> & -> & Hhd & Hlast & Hlink & Hlen).
    assert (t' = t) as -> by congruence.
    exists l, (set_pathLength (Z.of_nat (length l) - 1) (this (dequeue t rest Lf))).
    split; [done|]. split; [done|]. split; [done|]. split; [done|].
    split; [done|].
    assert (t ∈ visited Lf) as Ht by (eapply cur_visited; eauto).
    destruct (visited_min_hops _ _ _ _ HI t Ht) as (k & Hd & Hmin).
    rewrite (dz_Fin _ _ _ Hd) in Hlen.
    replace (length l - 1)%nat with k by lia. done.
Qed.

(** C4.  When the goal is not reachable from the start, [runBFS] returns
    [pathFound = false] with an empty path, and the cells left in state
    [Visited] are exactly the cells reachable from the start. *)
Theorem runBFS_unreachable_goal (v : BFSVisualizer) (s t : Pos) (fuel : nat) :
  wf_grid (grid v) → fresh (grid v) → isPaused v = false →
  start (grid v) = Some s → goal (grid v) = Some t →
  passable (grid v) s → ¬ reachable (grid v) s t →
  (2 * cellCount (grid v) + 1 ≤ fuel)%nat →
  ∃ v',
    runBFS fuel v = Some (mkResult false [], v') ∧
    ∀ p, state (cellOf (grid v') p) = Visited ↔ reachable (grid v) s p.
Proof.
  intros Hwf Hfr Hp Hs Hg Hpass Hnot Hfuel.
  destruct (runBFS_spec v s fuel Hwf Hfr Hp Hs Hpass Hfuel)
    as (r & v' & Lf & Hrun & HI & [(HQ & -> & ->)|Hfound]).
  - exists (this Lf). split; [done|]. intros p.
    rewrite (inv_state _ _ _ _ HI p), HQ.
    destruct (decide (p ∈ visited Lf)) as [Hin|Hin].
    + rewrite decide_False by set_solver. split; [intros _|done].
      destruct (visited_min_hops _ _ _ _ HI p Hin) as (k & _ & Hw & _). by exists k.
    + split; [done|]. intros [k Hw]. exfalso. apply Hin.
      by eapply walk_visited_or_pending.
  - exfalso. destruct Hfound as (t' & rest & l & HQ & Hg' & _).
    assert (t' = t) as -> by congruence.
    assert (t ∈ visited Lf) as Ht by (eapply cur_visited; eauto).
    destruct (visited_min_hops _ _ _ _ HI t Ht) as (k & _ & Hw & _).
    apply Hnot. by exists k.
Qed.


Lemma grid5_wf : wf_grid (grid (started grid5)).
Proof. unfold wf_grid. simpl. split_and!; [lia|lia|done|repeat constructor]. Qed.

Lemma grid5_walk : walk (grid (started grid5)) (1, 1) (3, 3) 4.
Proof.
  apply (walk_hop _ _ (3, 2)); [|by vm_compute|by split].
  apply (walk_hop _ _ (3, 1)); [|by vm_compute|by split].
  apply (walk_hop _ _ (2, 1)); [|by vm_compute|by split].
  apply (walk_hop _ _ (1, 1)); [|by vm_compute|by split].
  constructor.
Qed.

Lemma runBFS_finds_shortest_path_witness :
  ∃ p v',
    runBFS 51 (started grid5) = Some (mkResult true p, v') ∧
    head p = Some (1, 1) ∧ last p = Some (3, 3) ∧ linked (grid (started grid5)) p ∧
    pathLength v' = Z.of_nat (length p) - 1 ∧
    min_hops (grid (started grid5)) (1, 1) (3, 3) (length p - 1).
Proof.
  apply (runBFS_finds_shortest_path (started grid5) (1, 1) (3, 3) 51).
  - exact grid5_wf.
  - apply Grid_reset_fresh.
  - reflexivity.
  - reflexivity.
  - reflexivity.
  - split; [reflexivity|by vm_compute].
  - exists 4%nat. exact grid5_walk.
  - vm_compute. lia.
Defined.

Lemma corridor_wf : wf_grid (grid (started corridor)).
Proof. unfold wf_grid. simpl. split_and!; [lia|lia|done|repeat constructor]. Qed.

Lemma corridor_blocked : ¬ reachable (grid (started corridor)) (0, 0) (2, 0).
Proof.
  intros [n Hw].
  assert (∀ q k, walk (grid (started corridor)) (0, 0) q k → q = (0, 0)) as Hstay.
  { induction 1 as [|q r k _ IH Hadj [Hv Ht]]; [done|]. subst q. exfalso.
    apply validPos_spec in Hv. destruct r as [c r]. unfold adjacent in Hadj.
    simpl in *.
    assert (c = 1 ∧ r = 0) as [-> ->] by lia.
    by apply Ht. }
  by apply Hstay in Hw.
Qed.

Lemma runBFS_unreachable_goal_witness :
  ∃ v',
    runBFS 7 (started corridor) = Some (mkResult false [], v') ∧
    ∀ p, state (cellOf (grid v') p) = Visited ↔
         reachable (grid (started corridor)) (0, 0) p.
Proof.
  apply (runBFS_unreachable_goal (started corridor) (0, 0) (2, 0) 7).
  - exact corridor_wf.
  - apply Grid_reset_fresh.
  - reflexivity.
  - reflexivity.
  - reflexivity.
  - split; [reflexivity|by vm_compute].
  - exact corridor_blocked.
  - vm_compute. lia.
Defined.


(** ** More fuel does not change a result *)

Lemma reconstructPath_from_mono g : ∀ fuel fuel' current acc l,
  (fuel ≤ fuel')%nat →
  reconstructPath_from fuel g current acc = Some l →
  reconstructPath_from fuel' g current acc = Some l.
Proof.
  induction fuel as [|fuel IH]; intros fuel' current acc l Hle Hrun.
  - destruct current; [done|]. by destruct fuel'.
  - destruct current as [c|]; [|by destruct fuel'].
    destruct fuel' as [|fuel']; [lia|]. simpl in *.
    apply IH; [lia|done].
Qed.

Lemma bfs_round_mono fuel fuel' L x :
  (fuel ≤ fuel')%nat → bfs_round fuel L = Some x → bfs_round fuel' L = Some x.
Proof.
  intros Hle. unfold bfs_round, bfs_body.
  destruct (queue L) as [|cur rest]; [done|].
  destruct (isPaused (this L)); [done|].
  case_decide; [|done]. unfold reconstructPath.
  destruct (reconstructPath_from fuel _ _ _) as [l|] eqn:E; [|done].
  by rewrite (reconstructPath_from_mono _ _ _ _ _ _ Hle E).
Qed.

Lemma bfs_while_mono : ∀ fuel fuel' L x,
  (fuel ≤ fuel')%nat → bfs_while fuel L = Some x → bfs_while fuel' L = Some x.
Proof.
  induction fuel as [|fuel IH]; intros fuel' L x Hle Hrun; [done|].
  destruct fuel' as [|fuel']; [lia|]. simpl in *.
  destruct (bfs_round fuel L) as [r|] eqn:E; [|done].
  rewrite (bfs_round_mono fuel fuel' L r) by (done || lia).
  destruct r as [r v|L']; [done|]. apply IH; [lia|done].
Qed.

Lemma runBFS_mono fuel fuel' v x :
  (fuel ≤ fuel')%nat → runBFS fuel v = Some x → runBFS fuel' v = Some x.
Proof.
  unfold runBFS. intros Hle. destruct (bfs_init v) as [L|]; [|done]. simpl.
  by apply bfs_while_mono.
Qed.

(** ** A run that receives no event *)

Lemma explore_fold_flags cur ns : ∀ L,
  isPaused (this (foldl (explore cur) L ns)) = isPaused (this L) ∧
  isRunning (this (foldl (explore cur) L ns)) = isRunning (this L).
Proof.
  induction ns as [|n ns IH]; intros L; [done|]. simpl.
  destruct (IH (explore cur L n)) as [-> ->].
  unfold explore. by case_decide.
Qed.

Lemma set_this_this L : set_this (this L) L = L.
Proof. by destruct L. Qed.

Lemma waitWhilePaused_running fuel sch v :
  isPaused v = false → waitWhilePaused fuel sch v = Some (sch, v).
Proof. intros H. destruct fuel; simpl; by rewrite H. Qed.

Lemma bfs_while_sched_no_event : ∀ fuel L,
  bfs_while_sched fuel [] L = bfs_while fuel L.
Proof.
  induction fuel as [|fuel IH]; intros L; [done|]. simpl.
  unfold bfs_round. destruct (queue L) as [|cur rest] eqn:HQ; [done|].
  destruct (isPaused (this L)) eqn:HP; [done|].
  rewrite set_this_this.
  destruct (bfs_body fuel cur rest L) as [[r v|L']|] eqn:E; [done| |done].
  assert (isPaused (this L') = false) as HP'.
  { unfold bfs_body in E. case_decide.
    - destruct (reconstructPath _ _ _); done.
    - injection E as <-.
      destruct (explore_fold_flags cur
                  (getNeighbors (grid (this (dequeue cur rest L))) cur)
                  (dequeue cur rest L)) as [Hflag _].
      simpl in Hflag. rewrite Hflag. done. }
  rewrite waitWhilePaused_running by done.
  rewrite set_this_this. apply IH.
Qed.

(** C6.  On the 5 by 5 grid without walls, start (1,1) and goal (3,3), a
    run to completion reports a path of length 4 and has dequeued 21 cells
    (the 17 cells nearer than the goal and 4 cells of the goal's layer);
    neighbours are expanded left, right, up, down. *)
Theorem bfs_5x5_scenario (fuel : nat) :
  (26 ≤ fuel)%nat →
  ∃ v',
    runBFS fuel (started grid5) =
      Some (mkResult true [(1, 1); (2, 1); (3, 1); (3, 2); (3, 3)], v') ∧
    pathLength v' = 4 ∧ visitedCount v' = 21 ∧
    getNeighbors grid5 (2, 2) = [(1, 2); (3, 2); (2, 1); (2, 3)].
Proof.
  intros Hfuel.
  destruct (runBFS 26 (started grid5)) as [[r v']|] eqn:E; [|by vm_compute in E].
  exists v'. rewrite (runBFS_mono 26 fuel _ _ Hfuel E).
  vm_compute in E. injection E as <- <-. done.
Qed.

Lemma bfs_5x5_scenario_witness :
  ∃ v',
    runBFS 26 (started grid5) =
      Some (mkResult true [(1, 1); (2, 1); (3, 1); (3, 2); (3, 3)], v') ∧
    pathLength v' = 4 ∧ visitedCount v' = 21 ∧
    getNeighbors grid5 (2, 2) = [(1, 2); (3, 2); (2, 1); (2, 3)].
Proof. apply (bfs_5x5_scenario 26). lia. Defined.

(** C6, as stated: the visited count of that run is not 16. *)
Lemma bfs_5x5_visited_count_not_16 :
  ¬ ∃ r v', runBFS 26 (started grid5) = Some (r, v') ∧
            pathLength v' = 4 ∧ visitedCount v' = 16.
Proof.
  intros (r & v' & Hrun & _ & Hvc).
  vm_compute in Hrun. injection Hrun as <- <-. discriminate Hvc.
Qed.

(** C7.  [toggleWall] ignores coordinates outside the grid, but [setStart]
    and [setGoal] do not: called with (-1,-1) on the initial 5 by 5 grid
    they turn the type of the current start (goal) cell into [Empty], while
    the [start] ([goal]) reference still names that cell. *)
Theorem setStart_out_of_range_changes_grid :
  isValidCell grid5 (-1) (-1) = false ∧
  toggleWall (-1) (-1) grid5 = grid5 ∧
  type (cellOf grid5 (1, 1)) = Start ∧
  type (cellOf (setStart (-1) (-1) grid5) (1, 1)) = Empty ∧
  start (setStart (-1) (-1) grid5) = Some (1, 1) ∧
  setStart (-1) (-1) grid5 ≠ grid5 ∧
  type (cellOf grid5 (3, 3)) = Goal ∧
  type (cellOf (setGoal (-1) (-1) grid5) (3, 3)) = Empty ∧
  goal (setGoal (-1) (-1) grid5) = Some (3, 3) ∧
  setGoal (-1) (-1) grid5 ≠ grid5.
Proof. split_and!; by vm_compute. Qed.


(** ** Further properties of the grid and of the BFS engine *)

Lemma cellOf_Grid_reset g p : cellOf (Grid_reset g) p = resetCell (cellOf g p).
Proof.
  unfold cellOf, cellAt, Grid_reset, validPos, isValidCell. simpl.
  destruct (_ && _); [|done].
  rewrite list_lookup_fmap. destruct (cells g !! Z.to_nat p.2) as [r|]; [|done].
  simpl. rewrite list_lookup_fmap. by destruct (r !! Z.to_nat p.1).
Qed.

Lemma Grid_reset_wf g : wf_grid g → wf_grid (Grid_reset g).
Proof.
  intros (Hc & Hr & Hlen & Hall). unfold Grid_reset. repeat split; simpl; [done|done| |].
  - by rewrite length_map.
  - rewrite Forall_forall in *. intros r Hin.
    apply list_elem_of_fmap in Hin as (r0 & -> & Hr0). rewrite length_map. by apply Hall.
Qed.

Lemma Grid_reset_idemp g : Grid_reset (Grid_reset g) = Grid_reset g.
Proof.
  unfold Grid_reset, set_cells. simpl. f_equal.
  rewrite map_map. apply map_ext. intros r. rewrite map_map. by apply map_ext.
Qed.

Lemma Grid_reset_updCell f p g :
  (∀ c, resetCell (f c) = resetCell c) → Grid_reset (updCell f p g) = Grid_reset g.
Proof.
  intros Hf. unfold updCell. destruct (validPos g p); [|done].
  unfold Grid_reset, set_cells. simpl. f_equal.
  generalize (Z.to_nat p.2) as i. generalize (Z.to_nat p.1) as j. intros j.
  induction (cells g) as [|r rs IH]; intros [|i]; simpl; [done|done| |].
  - f_equal. clear IH. revert j. induction r as [|c r IH]; intros [|j]; simpl; [done|done| |].
    + by rewrite Hf.
    + f_equal. apply IH.
  - f_equal. apply IH.
Qed.

Lemma explore_keeps_grid cur L n :
  Grid_reset (grid (this (explore cur L n))) = Grid_reset (grid (this L)).
Proof.
  unfold explore. case_decide; [done|]. simpl.
  by rewrite !Grid_reset_updCell.
Qed.

Lemma explore_fold_keeps_grid cur ns : ∀ L,
  Grid_reset (grid (this (foldl (explore cur) L ns))) = Grid_reset (grid (this L)).
Proof.
  induction ns as [|n ns IH]; intros L; [done|]. simpl.
  by rewrite IH, explore_keeps_grid.
Qed.

Lemma bfs_body_keeps_grid fuel cur rest L :
  match bfs_body fuel cur rest L with
  | Some (Return _ v') => Grid_reset (grid v') = Grid_reset (grid (this L))
  | Some (Continue L') => Grid_reset (grid (this L')) = Grid_reset (grid (this L))
  | None => True
  end.
Proof.
  unfold bfs_body. case_decide.
  - destruct (reconstructPath _ _ _); [|done]. simpl. by rewrite Grid_reset_updCell.
  - rewrite explore_fold_keeps_grid. simpl. by rewrite Grid_reset_updCell.
Qed.

Lemma handle_keeps_grid v e : Grid_reset (grid (handle v e)) = Grid_reset (grid v).
Proof. destruct e; simpl; [done|done|apply Grid_reset_idemp]. Qed.

Lemma await_keeps_grid sch v :
  Grid_reset (grid (await sch v).2) = Grid_reset (grid v).
Proof.
  unfold await. destruct sch as [|events sch]; [done|]. simpl.
  revert v. induction events as [|e events IH]; intros v; [done|]. simpl.
  by rewrite IH, handle_keeps_grid.
Qed.

Lemma waitWhilePaused_keeps_grid : ∀ fuel sch v sch' v',
  waitWhilePaused fuel sch v = Some (sch', v') →
  Grid_reset (grid v') = Grid_reset (grid v).
Proof.
  induction fuel as [|fuel IH]; intros sch v sch' v'; simpl.
  - destruct (_ && _); [done|]. by intros [= _ ->].
  - destruct (_ && _); [|by intros [= _ ->]].
    pose proof (await_keeps_grid sch v) as Ha.
    destruct (await sch v) as [sch1 v1]. simpl in Ha. intros Hw.
    apply IH in Hw. congruence.
Qed.

Lemma bfs_while_sched_keeps_grid : ∀ fuel sch L r v',
  bfs_while_sched fuel sch L = Some (r, v') →
  Grid_reset (grid v') = Grid_reset (grid (this L)).
Proof.
  induction fuel as [|fuel IH]; intros sch L r v'; simpl; [done|].
  destruct (queue L) as [|cur rest]; [by intros [= _ <-]|].
  destruct (isPaused (this L)); [by intros [= _ <-]|].
  pose proof (await_keeps_grid sch (this L)) as Ha.
  destruct (await sch (this L)) as [sch1 v1]. simpl in Ha.
  pose proof (bfs_body_keeps_grid fuel cur rest (set_this v1 L)) as Hb.
  destruct (bfs_body fuel cur rest (set_this v1 L)) as [[r1 w|L']|]; [| |done].
  - intros [= _ <-]. simpl in Hb. congruence.
  - simpl in Hb.
    destruct (waitWhilePaused fuel sch1 (this L')) as [[sch2 v2]|] eqn:Ew; [|done].
    apply waitWhilePaused_keeps_grid in Ew. intros Hrun. apply IH in Hrun.
    simpl in Hrun. congruence.
Qed.

Lemma runBFS_sched_reset fuel sch v v' r :
  runBFS_sched fuel sch v = Some (r, v') →
  Grid_reset (grid v') = Grid_reset (grid v).
Proof.
  unfold runBFS_sched, bfs_init. destruct (start (grid v)) as [s|]; [|done]. simpl.
  intros Hrun. apply bfs_while_sched_keeps_grid in Hrun. simpl in Hrun.
  by rewrite !Grid_reset_updCell in Hrun.
Qed.

Lemma runBFS_sched_nil fuel v : runBFS_sched fuel [] v = runBFS fuel v.
Proof.
  unfold runBFS_sched, runBFS. destruct (bfs_init v); [|done]. simpl.
  apply bfs_while_sched_no_event.
Qed.



Lemma started_ready g s :
  wf_grid g → start g = Some s → passable g s →
  wf_grid (grid (started g)) ∧ fresh (grid (started g)) ∧
  start (grid (started g)) = Some s ∧ passable (grid (started g)) s ∧
  cellCount (grid (started g)) = cellCount g.
Proof.
  intros Hwf Hs [Hv Ht]. split; [by apply Grid_reset_wf|].
  split; [apply Grid_reset_fresh|]. split; [done|]. split; [|done].
  split; [done|]. simpl. by rewrite cellOf_Grid_reset.
Qed.

(** Starting BFS again on the grid a run has left gives the same result
    and the same final state: a run leaves nothing behind that the reset at
    the start of the next run does not remove. *)
Theorem startBFS_repeatable (g : Grid) (s : Pos) (fuel : nat) :
  wf_grid g → start g = Some s → passable g s →
  (2 * cellCount g + 1 ≤ fuel)%nat →
  ∃ r v',
    runBFS fuel (started g) = Some (r, v') ∧
    runBFS fuel (started (grid v')) = Some (r, v').
Proof.
  intros Hwf Hs Hpass Hfuel.
  destruct (started_ready g s Hwf Hs Hpass) as (Hwf' & Hfr & Hs' & Hp' & Hcc).
  destruct (runBFS_spec (started g) s fuel Hwf' Hfr eq_refl Hs' Hp')
    as (r & v' & _ & Hrun & _); [by rewrite Hcc|].
  exists r, v'. split; [done|].
  assert (started (grid v') = started g) as ->; [|done].
  unfold started. f_equal.
  rewrite <-runBFS_sched_nil in Hrun.
  rewrite (runBFS_sched_reset _ _ _ _ _ Hrun). simpl. apply Grid_reset_idemp.
Qed.

Lemma startBFS_repeatable_witness :
  ∃ r v',
    runBFS 51 (started grid5) = Some (r, v') ∧
    runBFS 51 (started (grid v')) = Some (r, v').
Proof.
  apply (startBFS_repeatable grid5 (1, 1) 51).
  - unfold wf_grid. simpl. split_and!; [lia|lia|done|repeat constructor].
  - reflexivity.
  - split; [reflexivity|by vm_compute].
  - vm_compute. lia.
Defined.

(** The visited counter grows by exactly the number of cells the run
    leaves in state [Visited]. *)
Theorem runBFS_counts_visited (v : BFSVisualizer) (s : Pos) (fuel : nat) :
  wf_grid (grid v) → fresh (grid v) → isPaused v = false →
  start (grid v) = Some s → passable (grid v) s →
  (2 * cellCount (grid v) + 1 ≤ fuel)%nat →
  ∃ r v' (S : gset Pos),
    runBFS fuel v = Some (r, v') ∧
    (∀ p, p ∈ S ↔ state (cellOf (grid v') p) = Visited) ∧
    visitedCount v' = visitedCount v + Z.of_nat (size S).
Proof.
  intros Hwf Hfr Hp Hs Hpass Hfuel.
  destruct (runBFS_spec v s fuel Hwf Hfr Hp Hs Hpass Hfuel)
    as (r & v' & Lf & Hrun & HI & [(HQ & -> & ->)|Hfound]).
  - exists noPath, (this Lf), (visited Lf). split; [done|]. split.
    + intros p. rewrite (inv_state _ _ _ _ HI p), HQ.
      destruct (decide (p ∈ visited Lf)) as [Hin|Hin]; [|done].
      rewrite decide_False; [done|]. apply not_elem_of_nil.
    + rewrite (inv_count _ _ _ _ HI), HQ. simpl. lia.
  - destruct Hfound as (t & rest & l & HQ & Hg & -> & -> & _).
    assert (t ∈ visited Lf) as Ht by (eapply cur_visited; eauto).
    assert (validPos (grid (this Lf)) t = true) as Hv by (eapply cur_valid; eauto).
    assert (t ∉ rest) as Htr by (eapply cur_not_rest; eauto).
    assert (NoDup rest) as Hnd.
    { pose proof (inv_nodup _ _ _ _ HI) as H. rewrite HQ in H. by apply NoDup_cons in H as [_ ?]. }
    assert (list_to_set rest ⊆ visited Lf) as Hsub.
    { intros p Hp'. apply elem_of_list_to_set in Hp'.
      apply (inv_queue _ _ _ _ HI). rewrite HQ. by right. }
    eexists _, _, (visited Lf ∖ list_to_set rest). split; [done|]. split.
    + intros p. simpl. rewrite elem_of_difference, elem_of_list_to_set.
      rewrite cellOf_updCell by (done || apply HI).
      destruct (decide (t = p)) as [->|Hne]; [simpl; tauto|].
      rewrite (inv_state _ _ _ _ HI p), HQ.
      destruct (decide (p ∈ visited Lf)) as [Hin|Hin]; [|split; [tauto|done]].
      destruct (decide (p ∈ t :: rest)) as [Hq|Hq].
      * split; [|done]. intros [_ Hnr]. apply elem_of_cons in Hq as [->|Hq]; done.
      * split; [done|]. intros _. split; [done|]. intros Hr. apply Hq. by right.
    + simpl. rewrite (inv_count _ _ _ _ HI), HQ. simpl.
      pose proof (size_union_alt (list_to_set rest) (visited Lf)) as Hsz.
      replace (list_to_set rest ∪ visited Lf) with (visited Lf) in Hsz
        by (apply leibniz_equiv; set_solver).
      rewrite size_list_to_set in Hsz by done. lia.
Qed.

Lemma runBFS_counts_visited_witness :
  ∃ r v' (S : gset Pos),
    runBFS 51 (started grid5) = Some (r, v') ∧
    (∀ p, p ∈ S ↔ state (cellOf (grid v') p) = Visited) ∧
    visitedCount v' = visitedCount (started grid5) + Z.of_nat (size S).
Proof.
  apply (runBFS_counts_visited (started grid5) (1, 1) 51).
  - exact grid5_wf.
  - apply Grid_reset_fresh.
  - reflexivity.
  - reflexivity.
  - split; [reflexivity|by vm_compute].
  - vm_compute. lia.
Defined.

(** When the goal is found, the cells already dequeued are the layers
    below the goal and part of the goal's layer: every cell with fewer hops
    than the goal is [Visited], and no [Visited] cell has more hops than
    the goal. *)
Theorem runBFS_layer_order (v : BFSVisualizer) (s t : Pos) (fuel : nat) :
  wf_grid (grid v) → fresh (grid v) → isPaused v = false →
  start (grid v) = Some s → goal (grid v) = Some t →
  passable (grid v) s → reachable (grid v) s t →
  (2 * cellCount (grid v) + 1 ≤ fuel)%nat →
  ∃ r v',
    runBFS fuel v = Some (r, v') ∧
    (∀ p k, min_hops (grid v) s p k → (Z.of_nat k < pathLength v') →
            state (cellOf (grid v') p) = Visited) ∧
    (∀ p k, state (cellOf (grid v') p) = Visited → min_hops (grid v) s p k →
            Z.of_nat k ≤ pathLength v').
Proof.
  intros Hwf Hfr Hp Hs Hg Hpass [n Hwalk] Hfuel.
  destruct (runBFS_spec v s fuel Hwf Hfr Hp Hs Hpass Hfuel)
    as (r & v' & Lf & Hrun & HI & [(HQ & _ & _)|Hfound]).
  { exfalso.
    pose proof (walk_visited_or_pending _ _ _ _ HI t n Hwalk HQ) as Ht.
    pose proof (inv_pending _ _ _ _ HI t Hg Ht) as Hq.
    rewrite HQ in Hq. by apply elem_of_nil in Hq. }
  destruct Hfound as (t' & rest & l & HQ & Hg' & -> & -> & _ & _ & _ & Hlen).
  assert (t' = t) as -> by congruence.
  assert (t ∈ visited Lf) as Ht by (eapply cur_visited; eauto).
  assert (validPos (grid (this Lf)) t = true) as Hv by (eapply cur_valid; eauto).
  destruct (cur_dist _ _ _ _ _ _ HI HQ) as (d & Hd0 & Hd).
  pose proof (queue_lower _ _ _ _ _ _ HI HQ d Hd) as Hlow.
  rewrite (dz_Fin _ _ _ Hd) in Hlen.
  assert (∀ p, state (cellOf (grid (this (dequeue t rest Lf))) p) = Visited ↔
               p ∈ visited Lf ∧ p ∉ rest) as Hvis.
  { intros p. simpl. rewrite cellOf_updCell by (done || apply HI).
    destruct (decide (t = p)) as [->|Hne].
    - simpl. split; [|done]. intros _. split; [done|]. eapply cur_not_rest; eauto.
    - rewrite (inv_state _ _ _ _ HI p), HQ.
      destruct (decide (p ∈ visited Lf)) as [Hin|Hin]; [|split; [done|tauto]].
      destruct (decide (p ∈ t :: rest)) as [Hq|Hq].
      + split; [done|]. intros [_ Hnr]. apply elem_of_cons in Hq as [->|Hq]; done.
      + split; [|done]. intros _. split; [done|]. intros Hr. apply Hq. by right. }
  eexists _, _. split; [done|]. simpl. rewrite Hlen. split.
  - intros p k [Hw _] Hk. apply Hvis.
    destruct (walk_lower _ _ _ _ HI p k Hw) as [Hin Hout].
    destruct (decide (p ∈ visited Lf)) as [HpV|HpV].
    + split; [done|]. intros Hr. specialize (Hin HpV).
      assert (p ∈ queue Lf) as Hq by (rewrite HQ; by right).
      apply Hlow in Hq. lia.
    + exfalso. destruct (Hout HpV) as (q & Hq & Hlt). apply Hlow in Hq. lia.
  - intros p k Hst [Hw Hmin]. apply Hvis in Hst as [HpV Hnr].
    destruct (visited_min_hops _ _ _ _ HI p HpV) as (k' & Hdk & Hw' & Hmin').
    assert (k = k') as <- by (apply Nat.le_antisymm; [by apply Hmin|by apply Hmin']).
    destruct (decide (p = t)) as [->|Hne].
    + rewrite Hd in Hdk. injection Hdk as ->. lia.
    + assert (p ∉ queue Lf) as Hnq.
      { rewrite HQ. intros Hq. apply elem_of_cons in Hq as [->|Hq]; done. }
      pose proof (inv_done _ _ _ _ HI p t HpV Hnq) as Hdone.
      rewrite (dz_Fin _ _ _ Hd), (dz_Fin _ _ _ Hdk) in Hdone.
      apply Hdone. rewrite HQ. by left.
Qed.

Lemma runBFS_layer_order_witness :
  ∃ r v',
    runBFS 51 (started grid5) = Some (r, v') ∧
    (∀ p k, min_hops (grid (started grid5)) (1, 1) p k → (Z.of_nat k < pathLength v') →
            state (cellOf (grid v') p) = Visited) ∧
    (∀ p k, state (cellOf (grid v') p) = Visited →
            min_hops (grid (started grid5)) (1, 1) p k →
            Z.of_nat k ≤ pathLength v').
Proof.
  apply (runBFS_layer_order (started grid5) (1, 1) (3, 3) 51).
  - exact grid5_wf.
  - apply Grid_reset_fresh.
  - reflexivity.
  - reflexivity.
  - reflexivity.
  - split; [reflexivity|by vm_compute].
  - exists 4%nat. exact grid5_walk.
  - vm_compute. lia.
Defined.

(** ** The operations of the grid *)

Lemma cellOf_updCell_gen f p g q :
  wf_grid g →
  cellOf (updCell f p g) q =
    if decide (p = q) then (if validPos g p then f (cellOf g q) else cellOf g q)
    else cellOf g q.
Proof.
  intros Hwf. destruct (validPos g p) eqn:Hv.
  - by apply cellOf_updCell.
  - unfold updCell. rewrite Hv. by case_decide.
Qed.

Lemma set_start_cellOf s g q : cellOf (set_start s g) q = cellOf g q.
Proof. done. Qed.

Lemma set_goal_cellOf t g q : cellOf (set_goal t g) q = cellOf g q.
Proof. done. Qed.

Lemma cellOf_invalid g p : validPos g p = false → cellOf g p = newCell.
Proof. intros Hv. unfold cellOf, cellAt. by rewrite Hv. Qed.

(** [getNeighbors] returns, without repetition, exactly the cells of the
    grid that are orthogonally adjacent to the given one and are not walls;
    there are at most four. *)
Theorem getNeighbors_spec (g : Grid) (p : Pos) :
  NoDup (getNeighbors g p) ∧ (length (getNeighbors g p) ≤ 4)%nat ∧
  ∀ q, q ∈ getNeighbors g p ↔ adjacent p q ∧ passable g q.
Proof.
  split; [|split; [|intros q; apply elem_of_getNeighbors]].
  - unfold getNeighbors.
    assert (∀ l : list (Z * Z), NoDup l →
              NoDup (omap (λ d : Z * Z,
                             match getCell g (p.1 + d.1) (p.2 + d.2) with
                             | Some neighbor =>
                                 if decide (type (cellOf g neighbor) ≠ Wall)
                                 then Some neighbor else None
                             | None => None
                             end) l)) as Hnd.
    { induction 1 as [|d l Hd Hl IH]; csimpl; [constructor|].
      destruct (getCell g (p.1 + d.1) (p.2 + d.2)) as [n|] eqn:E; [|done].
      case_decide; [|done]. constructor; [|done].
      rewrite list_elem_of_omap. intros (d' & Hd' & Hn).
      unfold getCell in *.
      destruct (isValidCell g (p.1 + d.1) (p.2 + d.2)); [|done].
      destruct (isValidCell g (p.1 + d'.1) (p.2 + d'.2)); [|done].
      case_decide; [|done]. simplify_eq.
      apply Hd. destruct d, d'. simpl in *.
      replace z with z1 by lia. replace z0 with z2 by lia. done. }
    apply Hnd. unfold directions. repeat constructor; set_solver.
  - unfold getNeighbors, directions. csimpl.
    repeat (destruct (getCell g _ _); [case_decide|]); simpl; lia.
Qed.

Lemma alter_alter_id {A} (f f' : A → A) (l : list A) i x :
  l !! i = Some x → f (f' x) = x → alter f i (alter f' i l) = l.
Proof.
  revert i. induction l as [|y l IH]; intros [|i] Hx Hf; simplify_eq/=; f_equal; eauto.
Qed.

Lemma updCell_updCell_id f f' p g c :
  cellAt g p = Some c → f (f' c) = c → updCell f p (updCell f' p g) = g.
Proof.
  unfold cellAt, updCell. destruct (validPos g p) eqn:Hv; [|done].
  intros Hc Hf. destruct (cells g !! Z.to_nat p.2) as [r|] eqn:Er; [|done]. simpl in Hc.
  assert (validPos (set_cells (alter (alter f' (Z.to_nat p.1)) (Z.to_nat p.2) (cells g)) g) p
          = true) as -> by done.
  unfold set_cells. simpl. destruct g as [gc gr cs gs gg]. simpl in *. f_equal.
  apply (alter_alter_id _ _ _ _ r); [done|]. by apply (alter_alter_id _ _ _ _ c).
Qed.

(** Toggling the same position twice gives back the grid. *)
Theorem toggleWall_twice (g : Grid) (col row : Z) :
  wf_grid g → toggleWall col row (toggleWall col row g) = g.
Proof.
  intros Hwf. unfold toggleWall at 2.
  destruct (isValidCell g col row) eqn:Hv; [|unfold toggleWall; by rewrite Hv].
  destruct (cellAt_valid g (col, row) Hwf Hv) as [c Hc].
  assert (cellOf g (col, row) = c) as Hof by (unfold cellOf; by rewrite Hc).
  rewrite Hof. destruct (type c) eqn:Ht.
  - unfold toggleWall. unfold isValidCell in *. rewrite updCell_cols, updCell_rows, Hv.
    rewrite cellOf_updCell_eq by done. rewrite Hof. simpl.
    apply (updCell_updCell_id _ _ _ _ c); [done|]. destruct c; simpl in *; by subst.
  - unfold toggleWall. unfold isValidCell in *. rewrite updCell_cols, updCell_rows, Hv.
    rewrite cellOf_updCell_eq by done. rewrite Hof. simpl.
    apply (updCell_updCell_id _ _ _ _ c); [done|]. destruct c; simpl in *; by subst.
  - unfold toggleWall. rewrite Hv, Hof, Ht. done.
  - unfold toggleWall. rewrite Hv, Hof, Ht. done.
Qed.

Lemma toggleWall_twice_witness : toggleWall 2 2 (toggleWall 2 2 grid5) = grid5.
Proof.
  apply (toggleWall_twice grid5 2 2).
  unfold wf_grid. simpl. split_and!; [lia|lia|done|repeat constructor].
Defined.

Lemma toggleWall_cells (g : Grid) (col row : Z) :
  wf_grid g →
  (isValidCell g col row = false → toggleWall col row g = g) ∧
  start (toggleWall col row g) = start g ∧ goal (toggleWall col row g) = goal g ∧
  wf_grid (toggleWall col row g) ∧
  (isValidCell g col row = true →
   ∀ q, cellOf (toggleWall col row g) q =
        if decide (q = (col, row)) then set_type (flipWall (type (cellOf g q))) (cellOf g q)
        else cellOf g q).
Proof.
  intros Hwf. unfold toggleWall.
  destruct (isValidCell g col row) eqn:Hv.
  - split; [done|].
    destruct (type (cellOf g (col, row))) eqn:Ht;
      rewrite ?updCell_start, ?updCell_goal;
      (split; [done|]); (split; [done|]); (split; [by try apply updCell_wf|]);
      intros _ q; rewrite ?cellOf_updCell by done;
      destruct (decide (q = (col, row))) as [->|Hne];
      rewrite ?decide_True by done; rewrite ?decide_False by done;
      rewrite ?Ht; try done; by destruct (cellOf g (col, row)); simpl in *; subst.
  - by split_and!.
Qed.

(** [toggleWall] touches the type of the one cell it is given and nothing
    else: an empty cell becomes a wall, a wall becomes empty, a start or goal
    cell and every other cell stay as they are; with coordinates outside the
    grid the grid is returned unchanged. *)
Theorem toggleWall_spec (g : Grid) (col row : Z) :
  wf_grid g →
  (isValidCell g col row = false → toggleWall col row g = g) ∧
  start (toggleWall col row g) = start g ∧ goal (toggleWall col row g) = goal g ∧
  wf_grid (toggleWall col row g) ∧
  (isValidCell g col row = true →
   ∀ q, cellOf (toggleWall col row g) q =
        if decide (q = (col, row)) then set_type (flipWall (type (cellOf g q))) (cellOf g q)
        else cellOf g q).
Proof. exact (toggleWall_cells g col row). Qed.

Lemma toggleWall_spec_witness :
  cellOf (toggleWall 2 2 grid5) (2, 2) = set_type Wall (cellOf grid5 (2, 2)).
Proof.
  assert (wf_grid grid5) as Hwf
    by (unfold wf_grid; simpl; split_and!; [lia|lia|done|repeat constructor]).
  destruct (toggleWall_spec grid5 2 2 Hwf) as (_ & _ & _ & _ & H).
  rewrite H; reflexivity.
Defined.

Lemma isValidCell_updCell f p g col row :
  isValidCell (updCell f p g) col row = isValidCell g col row.
Proof. unfold isValidCell. by rewrite updCell_cols, updCell_rows. Qed.

Lemma setStart_cells (g : Grid) (col row : Z) :
  wf_grid g →
  wf_grid (setStart col row g) ∧
  goal (setStart col row g) = goal g ∧
  start (setStart col row g) =
    (if isValidCell g col row then Some (col, row) else start g) ∧
  ∀ q, cellOf (setStart col row g) q =
       if decide (q = (col, row) ∧ isValidCell g col row = true)
       then set_type Start (cellOf g q)
       else if decide (start g = Some q) then set_type Empty (cellOf g q)
       else cellOf g q.
Proof.
  intros Hwf. unfold setStart.
  set (g1 := match start g with Some s => updCell (set_type Empty) s g | None => g end).
  assert (wf_grid g1) as Hwf1 by (unfold g1; destruct (start g); [by apply updCell_wf|done]).
  assert (∀ c r, isValidCell g1 c r = isValidCell g c r) as Hval
    by (intros c r; unfold g1; destruct (start g); [apply isValidCell_updCell|done]).
  assert (start g1 = start g ∧ goal g1 = goal g) as [Hs1 Hg1]
    by (unfold g1; destruct (start g) eqn:E; by rewrite ?updCell_start, ?updCell_goal).
  assert (∀ q, cellOf g1 q =
               if decide (start g = Some q) then set_type Empty (cellOf g q)
               else cellOf g q) as Hc1.
  { intros q. unfold g1. destruct (start g) as [s|]; [|by case_decide].
    rewrite cellOf_updCell_gen by done.
    destruct (decide (s = q)) as [->|Hne].
    - rewrite decide_True by done. destruct (validPos g q) eqn:Hv; [done|].
      by rewrite cellOf_invalid.
    - rewrite decide_False by congruence. done. }
  rewrite Hval. destruct (isValidCell g col row) eqn:Hv.
  - split; [by apply updCell_wf|]. rewrite updCell_goal, updCell_start. simpl.
    split; [done|]. split; [done|]. intros q.
    rewrite cellOf_updCell; [|done|unfold validPos, isValidCell; simpl; by rewrite <- Hval in Hv].
    rewrite set_start_cellOf, Hc1.
    destruct (decide ((col, row) = q)) as [<-|Hne].
    + repeat case_decide; try done; naive_solver.
    + repeat case_decide; try done; naive_solver.
  - split; [done|]. split; [done|]. split; [done|]. intros q.
    rewrite decide_False by (intros [_ ?]; done). apply Hc1.
Qed.

(** [setStart]: the goal and the shape of the grid are kept; the cell that
    was the start gets type [Empty] whether or not the coordinates are in
    range; in range, [start] becomes the given cell and the cell gets type
    [Start] (also when it is the goal cell, which [goal] keeps referring to);
    out of range, [start] keeps referring to the old cell.  No other field
    of any cell changes. *)
Theorem setStart_spec (g : Grid) (col row : Z) :
  wf_grid g →
  wf_grid (setStart col row g) ∧
  goal (setStart col row g) = goal g ∧
  start (setStart col row g) =
    (if isValidCell g col row then Some (col, row) else start g) ∧
  ∀ q, cellOf (setStart col row g) q =
       if decide (q = (col, row) ∧ isValidCell g col row = true)
       then set_type Start (cellOf g q)
       else if decide (start g = Some q) then set_type Empty (cellOf g q)
       else cellOf g q.
Proof. exact (setStart_cells g col row). Qed.

Lemma setStart_spec_witness :
  start (setStart 2 2 grid5) = Some (2, 2) ∧ start (setStart 7 7 grid5) = Some (1, 1).
Proof.
  assert (wf_grid grid5) as Hwf
    by (unfold wf_grid; simpl; split_and!; [lia|lia|done|repeat constructor]).
  split.
  - destruct (setStart_spec grid5 2 2 Hwf) as (_ & _ & H & _). rewrite H; reflexivity.
  - destruct (setStart_spec grid5 7 7 Hwf) as (_ & _ & H & _). rewrite H; reflexivity.
Defined.

Lemma setGoal_cells (g : Grid) (col row : Z) :
  wf_grid g →
  wf_grid (setGoal col row g) ∧
  start (setGoal col row g) = start g ∧
  goal (setGoal col row g) =
    (if isValidCell g col row then Some (col, row) else goal g) ∧
  ∀ q, cellOf (setGoal col row g) q =
       if decide (q = (col, row) ∧ isValidCell g col row = true)
       then set_type Goal (cellOf g q)
       else if decide (goal g = Some q) then set_type Empty (cellOf g q)
       else cellOf g q.
Proof.
  intros Hwf. unfold setGoal.
  set (g1 := match goal g with Some s => updCell (set_type Empty) s g | None => g end).
  assert (wf_grid g1) as Hwf1 by (unfold g1; destruct (goal g); [by apply updCell_wf|done]).
  assert (∀ c r, isValidCell g1 c r = isValidCell g c r) as Hval
    by (intros c r; unfold g1; destruct (goal g); [apply isValidCell_updCell|done]).
  assert (start g1 = start g ∧ goal g1 = goal g) as [Hs1 Hg1]
    by (unfold g1; destruct (goal g) eqn:E; by rewrite ?updCell_start, ?updCell_goal).
  assert (∀ q, cellOf g1 q =
               if decide (goal g = Some q) then set_type Empty (cellOf g q)
               else cellOf g q) as Hc1.
  { intros q. unfold g1. destruct (goal g) as [s|]; [|by case_decide].
    rewrite cellOf_updCell_gen by done.
    destruct (decide (s = q)) as [->|Hne].
    - rewrite decide_True by done. destruct (validPos g q) eqn:Hv; [done|].
      by rewrite cellOf_invalid.
    - rewrite decide_False by congruence. done. }
  rewrite Hval. destruct (isValidCell g col row) eqn:Hv.
  - split; [by apply updCell_wf|]. rewrite updCell_goal, updCell_start. simpl.
    split; [done|]. split; [done|]. intros q.
    rewrite cellOf_updCell; [|done|unfold validPos, isValidCell; simpl; by rewrite <- Hval in Hv].
    rewrite set_goal_cellOf, Hc1.
    destruct (decide ((col, row) = q)) as [<-|Hne].
    + repeat case_decide; try done; naive_solver.
    + repeat case_decide; try done; naive_solver.
  - split; [done|]. split; [done|]. split; [done|]. intros q.
    rewrite decide_False by (intros [_ ?]; done). apply Hc1.
Qed.

(** [setGoal], the mirror image of [setStart]. *)
Theorem setGoal_spec (g : Grid) (col row : Z) :
  wf_grid g →
  wf_grid (setGoal col row g) ∧
  start (setGoal col row g) = start g ∧
  goal (setGoal col row g) =
    (if isValidCell g col row then Some (col, row) else goal g) ∧
  ∀ q, cellOf (setGoal col row g) q =
       if decide (q = (col, row) ∧ isValidCell g col row = true)
       then set_type Goal (cellOf g q)
       else if decide (goal g = Some q) then set_type Empty (cellOf g q)
       else cellOf g q.
Proof. exact (setGoal_cells g col row). Qed.

Lemma setGoal_spec_witness :
  goal (setGoal 2 2 grid5) = Some (2, 2) ∧ goal (setGoal 7 7 grid5) = Some (3, 3).
Proof.
  assert (wf_grid grid5) as Hwf
    by (unfold wf_grid; simpl; split_and!; [lia|lia|done|repeat constructor]).
  split.
  - destruct (setGoal_spec grid5 2 2 Hwf) as (_ & _ & H & _). rewrite H; reflexivity.
  - destruct (setGoal_spec grid5 7 7 Hwf) as (_ & _ & H & _). rewrite H; reflexivity.
Defined.

Lemma cellOf_Grid_clear g p :
  cellOf (Grid_clear g) p =
    resetCell (if decide (type (cellOf g p) = Wall) then set_type Empty (cellOf g p)
               else cellOf g p).
Proof.
  unfold cellOf, cellAt, Grid_clear, validPos, isValidCell. simpl.
  destruct (_ && _); [|done].
  rewrite list_lookup_fmap. destruct (cells g !! Z.to_nat p.2) as [r|]; [|done].
  simpl. rewrite list_lookup_fmap. by destruct (r !! Z.to_nat p.1).
Qed.

Lemma marks_unique_kept (g : Grid) (col row : Z) :
  wf_grid g → marks_unique g →
  marks_unique (setStart col row g) ∧ marks_unique (setGoal col row g) ∧
  marks_unique (toggleWall col row g) ∧
  marks_unique (Grid_reset g) ∧ marks_unique (Grid_clear g).
Proof.
  intros Hwf Hm. split_and!.
  - destruct (setStart_cells g col row Hwf) as (_ & Hg & Hs & Hc).
    intros q. rewrite Hg, Hs, Hc. destruct (Hm q) as [Hq1 Hq2].
    destruct (decide (q = (col, row) ∧ isValidCell g col row = true)) as [[-> ->]|Hn].
    + split; [done|]. simpl. done.
    + destruct (decide (start g = Some q)) as [E|E]; simpl.
      * split; [done|]. intros Ht. done.
      * split; [|done]. intros Ht. by specialize (Hq1 Ht).
  - destruct (setGoal_cells g col row Hwf) as (_ & Hs & Hg & Hc).
    intros q. rewrite Hg, Hs, Hc. destruct (Hm q) as [Hq1 Hq2].
    destruct (decide (q = (col, row) ∧ isValidCell g col row = true)) as [[-> ->]|Hn].
    + split; [|done]. simpl. done.
    + destruct (decide (goal g = Some q)) as [E|E]; simpl.
      * split; [|done]. intros Ht. done.
      * split; [done|]. intros Ht. by specialize (Hq2 Ht).
  - destruct (toggleWall_cells g col row Hwf) as (Hid & Hs & Hg & _ & Hc).
    destruct (isValidCell g col row) eqn:Hv; [|by rewrite Hid].
    intros q. rewrite Hs, Hg, Hc by done. destruct (Hm q) as [Hq1 Hq2].
    case_decide; [|done]. simpl.
    destruct (type (cellOf g q)); simpl; split; done || auto.
  - intros q. rewrite cellOf_Grid_reset. apply (Hm q).
  - intros q. rewrite cellOf_Grid_clear. destruct (Hm q) as [Hq1 Hq2].
    case_decide as E; simpl; [|done]. rewrite E in *. done.
Qed.

Lemma setStart_shape col row g :
  cols (setStart col row g) = cols g ∧ rows (setStart col row g) = rows g.
Proof.
  unfold setStart. destruct (start g); destruct (isValidCell _ _ _);
    rewrite ?updCell_cols, ?updCell_rows; simpl; by rewrite ?updCell_cols, ?updCell_rows.
Qed.

Lemma setGoal_shape col row g :
  cols (setGoal col row g) = cols g ∧ rows (setGoal col row g) = rows g.
Proof.
  unfold setGoal. destruct (goal g); destruct (isValidCell _ _ _);
    rewrite ?updCell_cols, ?updCell_rows; simpl; by rewrite ?updCell_cols, ?updCell_rows.
Qed.

Lemma emptyGrid_wf c r :
  0 ≤ c → 0 ≤ r →
  wf_grid (mkGrid c r (replicate (Z.to_nat r) (replicate (Z.to_nat c) newCell)) None None).
Proof.
  intros Hc Hr. unfold wf_grid. simpl. split_and!; [done|done|by rewrite length_replicate|].
  apply Forall_forall. intros x Hx. apply elem_of_replicate in Hx as [-> _].
  by rewrite length_replicate.
Qed.

Lemma emptyGrid_cellOf c r p :
  cellOf (mkGrid c r (replicate (Z.to_nat r) (replicate (Z.to_nat c) newCell)) None None) p
  = newCell.
Proof.
  unfold cellOf, cellAt. destruct (validPos _ _); [|done]. simpl.
  destruct (replicate (Z.to_nat r) _ !! Z.to_nat p.2) as [x|] eqn:E; [|done]. simpl.
  apply lookup_replicate in E as [-> _].
  destruct (replicate (Z.to_nat c) newCell !! Z.to_nat p.1) as [y|] eqn:E'; [|done].
  by apply lookup_replicate in E' as [-> _].
Qed.

Lemma initializeGrid_marks c r :
  0 ≤ c → 0 ≤ r → wf_grid (initializeGrid c r) ∧ marks_unique (initializeGrid c r).
Proof.
  intros Hc Hr. unfold initializeGrid.
  pose proof (emptyGrid_wf c r Hc Hr) as Hwf0.
  set (g0 := mkGrid c r _ None None) in *.
  assert (marks_unique g0) as Hm0
    by (intros p; unfold g0; by rewrite emptyGrid_cellOf).
  destruct (setStart_cells g0 1 1 Hwf0) as (Hwf1 & _).
  destruct (marks_unique_kept g0 1 1 Hwf0 Hm0) as (Hm1 & _).
  destruct (setGoal_cells _ (c - 2) (r - 2) Hwf1) as (Hwf2 & _).
  destruct (marks_unique_kept _ (c - 2) (r - 2) Hwf1 Hm1) as (_ & Hm2 & _).
  done.
Qed.

(** No operation of the grid ever produces a second start or goal cell:
    if every cell of type [Start] is the one [start] refers to and every cell
    of type [Goal] the one [goal] refers to, the same holds after [setStart],
    [setGoal], [toggleWall], [reset] and [clear], with any coordinates. *)
Theorem grid_operations_keep_marks_unique (g : Grid) (col row : Z) :
  wf_grid g → marks_unique g →
  marks_unique (setStart col row g) ∧ marks_unique (setGoal col row g) ∧
  marks_unique (toggleWall col row g) ∧
  marks_unique (Grid_reset g) ∧ marks_unique (Grid_clear g).
Proof. exact (marks_unique_kept g col row). Qed.

Lemma grid_operations_keep_marks_unique_witness :
  marks_unique (setStart 7 7 grid5) ∧ marks_unique (toggleWall 1 1 grid5).
Proof.
  destruct (initializeGrid_marks 5 5) as [Hwf Hm]; [lia|lia|].
  destruct (grid_operations_keep_marks_unique grid5 7 7 Hwf Hm) as (H1 & _).
  destruct (grid_operations_keep_marks_unique grid5 1 1 Hwf Hm) as (_ & _ & H2 & _).
  done.
Defined.

(** The grid the constructor builds, for any size: [rows] arrays of [cols]
    new cells, none of them a wall; with at least two columns and two rows
    the start is the cell at (1,1) and the goal the cell at
    (cols-2, rows-2), each carrying its type, except on the 3x3 grid where
    both are the cell at (1,1) and its type is [Goal]; a smaller grid has
    neither start nor goal. *)
Theorem initializeGrid_spec (c r : Z) :
  0 ≤ c → 0 ≤ r →
  wf_grid (initializeGrid c r) ∧
  cols (initializeGrid c r) = c ∧ rows (initializeGrid c r) = r ∧
  marks_unique (initializeGrid c r) ∧
  start (initializeGrid c r) = (if decide (2 ≤ c ∧ 2 ≤ r) then Some (1, 1) else None) ∧
  goal (initializeGrid c r) =
    (if decide (2 ≤ c ∧ 2 ≤ r) then Some (c - 2, r - 2) else None) ∧
  ∀ p, cellOf (initializeGrid c r) p =
       set_type (if decide (2 ≤ c ∧ 2 ≤ r ∧ p = (c - 2, r - 2)) then Goal
                 else if decide (2 ≤ c ∧ 2 ≤ r ∧ p = (1, 1)) then Start
                 else Empty) newCell.
Proof.
  intros Hc Hr. destruct (initializeGrid_marks c r Hc Hr) as [Hwf Hm].
  split; [done|]. unfold initializeGrid in *.
  pose proof (emptyGrid_wf c r Hc Hr) as Hwf0.
  pose proof (emptyGrid_cellOf c r) as Hc0.
  set (g0 := mkGrid c r _ None None) in *.
  destruct (setStart_shape 1 1 g0) as [Hcols1 Hrows1].
  destruct (setGoal_shape (c - 2) (r - 2) (setStart 1 1 g0)) as [Hcols2 Hrows2].
  destruct (setStart_cells g0 1 1 Hwf0) as (Hwf1 & Hg1 & Hs1 & Hc1).
  destruct (setGoal_cells _ (c - 2) (r - 2) Hwf1) as (_ & Hs2 & Hg2 & Hc2).
  assert (isValidCell g0 1 1 = bool_decide (2 ≤ c ∧ 2 ≤ r)) as Hv1.
  { unfold isValidCell, g0. simpl. case_bool_decide as E.
    - destruct E. repeat (apply andb_true_intro; split); lia.
    - apply not_true_is_false. intros Hv. apply E.
      repeat (apply andb_prop in Hv as [Hv ?]). lia. }
  assert (isValidCell (setStart 1 1 g0) (c - 2) (r - 2) = bool_decide (2 ≤ c ∧ 2 ≤ r)) as Hv2.
  { unfold isValidCell. rewrite Hcols1, Hrows1. unfold g0. simpl. case_bool_decide as E.
    - destruct E. repeat (apply andb_true_intro; split); lia.
    - apply not_true_is_false. intros Hv. apply E.
      repeat (apply andb_prop in Hv as [Hv ?]). lia. }
  rewrite Hv1 in Hs1, Hc1. rewrite Hv2 in Hg2, Hc2.
  split; [by rewrite Hcols2, Hcols1|]. split; [by rewrite Hrows2, Hrows1|].
  split; [done|].
  rewrite Hs2, Hs1, Hg2, Hg1.
  destruct (decide (2 ≤ c ∧ 2 ≤ r)) as [E|E].
  - rewrite bool_decide_eq_true_2 by done. split; [done|]. split; [done|].
    intros p. rewrite Hc2, Hg1, !Hc1, !Hc0. rewrite bool_decide_eq_true_2 by done.
    repeat case_decide; try done; exfalso; intuition congruence.
  - rewrite bool_decide_eq_false_2 by done. split; [done|]. split; [done|].
    intros p. rewrite Hc2, Hg1, !Hc1, !Hc0. rewrite bool_decide_eq_false_2 by done.
    repeat case_decide; try done; exfalso; intuition congruence.
Qed.

Lemma initializeGrid_spec_witness :
  start (initializeGrid 3 3) = Some (1, 1) ∧ goal (initializeGrid 3 3) = Some (1, 1) ∧
  type (cellOf (initializeGrid 3 3) (1, 1)) = Goal.
Proof.
  destruct (initializeGrid_spec 3 3) as (_ & _ & _ & _ & Hs & Hg & Hc); [lia|lia|].
  rewrite Hs, Hg, Hc. done.
Defined.

(** [reset] keeps the type of every cell, the start and the goal, so the
    neighbours of a cell are the same before and after; it leaves no run
    state behind, and resetting twice is resetting once. *)
Theorem Grid_reset_spec (g : Grid) :
  start (Grid_reset g) = start g ∧ goal (Grid_reset g) = goal g ∧
  (∀ p, type (cellOf (Grid_reset g) p) = type (cellOf g p)) ∧
  (∀ p, getNeighbors (Grid_reset g) p = getNeighbors g p) ∧
  fresh (Grid_reset g) ∧
  Grid_reset (Grid_reset g) = Grid_reset g.
Proof.
  split_and!; [done|done| | |apply Grid_reset_fresh|apply Grid_reset_idemp].
  - intros p. by rewrite cellOf_Grid_reset.
  - intros p. apply getNeighbors_ext; [done|done|].
    intros q. by rewrite cellOf_Grid_reset.
Qed.

(** [clear] is [reset] after turning every wall into an empty cell: no
    wall is left, every other cell keeps its type, start and goal are kept,
    no run state is left, and a second [clear] or [reset] changes nothing. *)
Theorem Grid_clear_spec (g : Grid) :
  start (Grid_clear g) = start g ∧ goal (Grid_clear g) = goal g ∧
  (∀ p, type (cellOf (Grid_clear g) p) ≠ Wall) ∧
  (∀ p, type (cellOf g p) ≠ Wall → type (cellOf (Grid_clear g) p) = type (cellOf g p)) ∧
  (∀ p, freshCell (cellOf (Grid_clear g) p)) ∧
  Grid_clear (Grid_clear g) = Grid_clear g ∧
  Grid_reset (Grid_clear g) = Grid_clear g ∧
  Grid_clear (Grid_reset g) = Grid_clear g.
Proof.
  split_and!; [done|done| | | | | |].
  - intros p. rewrite cellOf_Grid_clear. by case_decide.
  - intros p Hp. rewrite cellOf_Grid_clear. by case_decide.
  - intros p. by rewrite cellOf_Grid_clear.
  - unfold Grid_clear, set_cells. simpl. f_equal.
    rewrite map_map. apply map_ext. intros r. rewrite map_map. apply map_ext.
    intros c. by repeat case_decide.
  - unfold Grid_clear, Grid_reset, set_cells. simpl. f_equal.
    rewrite map_map. apply map_ext. intros r. rewrite map_map. by apply map_ext.
  - unfold Grid_clear, Grid_reset, set_cells. simpl. f_equal.
    rewrite map_map. apply map_ext. intros r. rewrite map_map. apply map_ext.
    intros c. by repeat case_decide.
Qed.

(** ** Clearing the surroundings of start and goal *)

Lemma clearWall_props col row g :
  wf_grid g →
  wf_grid (clearWall col row g) ∧
  cols (clearWall col row g) = cols g ∧ rows (clearWall col row g) = rows g ∧
  start (clearWall col row g) = start g ∧ goal (clearWall col row g) = goal g ∧
  ∀ q, cellOf (clearWall col row g) q =
       if decide (q = (col, row) ∧ type (cellOf g q) = Wall)
       then set_type Empty (cellOf g q) else cellOf g q.
Proof.
  intros Hwf. unfold clearWall, getCell.
  destruct (isValidCell g col row) eqn:Hv.
  - destruct (decide (type (cellOf g (col, row)) = Wall)) as [Ht|Ht].
    + split; [by apply updCell_wf|].
      rewrite updCell_cols, updCell_rows, updCell_start, updCell_goal.
      split_and!; try done. intros q. rewrite cellOf_updCell by done.
      repeat case_decide; simplify_eq; try done; exfalso; intuition congruence.
    + split_and!; try done. intros q.
      rewrite decide_False; [done|]. intros [-> ?]. done.
  - split_and!; try done. intros q.
    rewrite decide_False; [done|]. intros [-> Ht].
    by rewrite (cellOf_invalid g (col, row)) in Ht.
Qed.

Lemma clearAround_props p g :
  wf_grid g →
  wf_grid (clearAround p g) ∧
  cols (clearAround p g) = cols g ∧ rows (clearAround p g) = rows g ∧
  start (clearAround p g) = start g ∧ goal (clearAround p g) = goal g ∧
  ∀ q, cellOf (clearAround p g) q =
       if decide (near p q ∧ type (cellOf g q) = Wall)
       then set_type Empty (cellOf g q) else cellOf g q.
Proof.
  intros Hwf. unfold clearAround.
  assert (∀ ds g, wf_grid g →
            let g' := foldl (λ g d, clearWall (p.1 + d.1) (p.2 + d.2) g) g ds in
            wf_grid g' ∧ cols g' = cols g ∧ rows g' = rows g ∧
            start g' = start g ∧ goal g' = goal g ∧
            ∀ q, cellOf g' q =
                 if decide (q ∈ ((λ d : Z * Z, (p.1 + d.1, p.2 + d.2)) <$> ds) ∧
                            type (cellOf g q) = Wall)
                 then set_type Empty (cellOf g q) else cellOf g q) as Hfold.
  { induction ds as [|d ds IH]; intros g1 Hwf1; simpl.
    - split_and!; try done; intros q; (rewrite decide_False; [done|]);
        intros [Hin _]; by apply elem_of_nil in Hin.
    - destruct (clearWall_props (p.1 + d.1) (p.2 + d.2) g1 Hwf1)
        as (Hwf2 & Hc & Hr & Hs & Hg & Hcell).
      destruct (IH _ Hwf2) as (Hwf3 & Hc' & Hr' & Hs' & Hg' & Hcell').
      split; [done|]. split; [congruence|]. split; [congruence|].
      split; [congruence|]. split; [congruence|].
      intros q. rewrite Hcell', !Hcell. csimpl.
      repeat case_decide; rewrite ?elem_of_cons in *; try done; exfalso; simpl in *;
        intuition congruence. }
  destruct (Hfold offsets3 g Hwf) as (H1 & H2 & H3 & H4 & H5 & H6).
  split_and!; try done. intros q. rewrite H6.
  assert (q ∈ ((λ d : Z * Z, (p.1 + d.1, p.2 + d.2)) <$> offsets3) ↔ near p q) as Hnear.
  { unfold near, offsets3. destruct p as [pc pr], q as [qc qr]. simpl. split.
    - intros Hin. repeat (apply elem_of_cons in Hin as [Hin|Hin]; [simplify_eq; lia|]).
      by apply elem_of_nil in Hin.
    - intros [Hc Hr].
      assert (qc = pc + -1 ∨ qc = pc + 0 ∨ qc = pc + 1) as Hqc by lia.
      assert (qr = pr + -1 ∨ qr = pr + 0 ∨ qr = pr + 1) as Hqr by lia.
      destruct Hqc as [-> | [-> | ->]]; destruct Hqr as [-> | [-> | ->]];
        repeat first [by left|right]. }
  repeat case_decide; try done; exfalso; intuition.
Qed.

(** [ensureAccessibility] turns the walls among the cells around the start
    and around the goal into empty cells and changes nothing else, so that
    every cell of the grid next to the start or to the goal can be entered;
    without a start or a goal it fails. *)
Theorem ensureAccessibility_spec (g : Grid) (s t : Pos) :
  wf_grid g → start g = Some s → goal g = Some t →
  ∃ g',
    ensureAccessibility g = Some g' ∧
    wf_grid g' ∧ start g' = Some s ∧ goal g' = Some t ∧
    (∀ q, cellOf g' q =
          if decide ((near s q ∨ near t q) ∧ type (cellOf g q) = Wall)
          then set_type Empty (cellOf g q) else cellOf g q) ∧
    (∀ q, validPos g q = true → adjacent s q ∨ adjacent t q → passable g' q).
Proof.
  intros Hwf Hs Hg. unfold ensureAccessibility. rewrite Hs. simpl.
  destruct (clearAround_props s g Hwf) as (Hwf1 & Hc1 & Hr1 & Hs1 & Hg1 & Hcell1).
  rewrite Hg1, Hg. simpl.
  destruct (clearAround_props t _ Hwf1) as (Hwf2 & Hc2 & Hr2 & Hs2 & Hg2 & Hcell2).
  eexists. split; [done|]. split; [done|]. split; [congruence|]. split; [congruence|].
  assert (∀ q, cellOf (clearAround t (clearAround s g)) q =
               if decide ((near s q ∨ near t q) ∧ type (cellOf g q) = Wall)
               then set_type Empty (cellOf g q) else cellOf g q) as Hcell.
  { intros q. rewrite Hcell2, !Hcell1.
    repeat case_decide; try done; exfalso; simpl in *; intuition congruence. }
  split; [done|]. intros q Hv Hadj. split.
  - unfold validPos, isValidCell in *. by rewrite Hc2, Hr2, Hc1, Hr1.
  - rewrite Hcell. case_decide as E; [done|]. intros Hw. apply E. split; [|done].
    unfold adjacent, near in *. destruct Hadj; [left|right]; lia.
Qed.

Lemma ensureAccessibility_spec_witness :
  ∃ g', ensureAccessibility (toggleWall 1 2 grid5) = Some g' ∧ passable g' (1, 2).
Proof.
  destruct (ensureAccessibility_spec (toggleWall 1 2 grid5) (1, 1) (3, 3))
    as (g' & Hrun & _ & _ & _ & _ & Hpass).
  - unfold wf_grid. simpl. split_and!; [lia|lia|done|repeat constructor].
  - reflexivity.
  - reflexivity.
  - exists g'. split; [done|]. apply Hpass; [reflexivity|]. left. reflexivity.
Defined.

(** ** A whole run of [startBFS] *)

Lemma passable_reset g p : passable (Grid_reset g) p ↔ passable g p.
Proof. unfold passable. by rewrite cellOf_Grid_reset. Qed.

Lemma walk_reset g p q n : walk (Grid_reset g) p q n ↔ walk g p q n.
Proof.
  split; induction 1 as [|q r n Hw IH Ha Hp]; try constructor;
    econstructor; eauto; by apply passable_reset.
Qed.

Lemma linked_reset g l : linked (Grid_reset g) l ↔ linked g l.
Proof.
  induction l as [|a l IH]; [done|]. simpl. by rewrite passable_reset, IH.
Qed.

Lemma linked_valid g l : linked g l → Forall (λ p, validPos g p = true) l.
Proof.
  induction l as [|a l IH]; [constructor|]. simpl. intros ([Hv _] & _ & Hl).
  constructor; [done|]. by apply IH.
Qed.

Lemma foldl_lookup_seq {A B} (F : A → B → B) (l : list A) :
  ∀ n a b,
    foldl (λ b i, match l !! i with Some c => F c b | None => b end) b (seq a n)
    = foldl (λ b c, F c b) b (take n (drop a l)).
Proof.
  induction n as [|n IH]; intros a b; [by rewrite take_0|]. simpl.
  rewrite IH. destruct (l !! a) as [c|] eqn:E.
  - by rewrite (drop_S l c a E).
  - apply lookup_ge_None in E. rewrite !drop_ge by lia. by rewrite !take_nil.
Qed.

Lemma highlightPath_fold l v :
  highlightPath l v =
    set_grid (foldl (λ g c, updCell (set_state Path) c g) (grid v) (interior l)) v.
Proof.
  unfold highlightPath, interior.
  rewrite (foldl_lookup_seq (λ c v, set_grid (updCell (set_state Path) c (grid v)) v)).
  generalize (take (length l - 2) (drop 1 l)). intros cs. revert v.
  induction cs as [|c cs IH]; intros v; simpl; [by destruct v|].
  by rewrite IH.
Qed.

Lemma cellOf_mark_path l : ∀ g q,
  wf_grid g → Forall (λ p, validPos g p = true) l →
  cellOf (foldl (λ g c, updCell (set_state Path) c g) g l) q =
    if decide (q ∈ l) then set_state Path (cellOf g q) else cellOf g q.
Proof.
  induction l as [|c l IH]; intros g q Hwf Hall; [done|]. cbn [foldl].
  - apply Forall_cons in Hall as [Hc Hall].
    rewrite IH; [|by apply updCell_wf|].
    + rewrite cellOf_updCell by done.
      repeat case_decide; rewrite ?elem_of_cons in *; simplify_eq; try done; exfalso;
        intuition congruence.
    + eapply Forall_impl; [done|]. intros x. simpl. by rewrite updCell_validPos.
Qed.

Lemma Grid_reset_mark_path l g :
  Grid_reset (foldl (λ g c, updCell (set_state Path) c g) g l) = Grid_reset g.
Proof.
  revert g. induction l as [|c l IH]; intros g; simpl; [done|].
  rewrite IH. by apply Grid_reset_updCell.
Qed.

(** A whole run of [startBFS] on a grid whose goal can be reached: it
    ends with [isRunning] false and [pathLength] the minimum hop count; the
    cells of the returned shortest path other than its two ends are in state
    [Path] and no other cell is; and nothing but run state has changed. *)
Theorem startBFS_marks_shortest_path (v : BFSVisualizer) (s t : Pos) (fuel : nat) :
  wf_grid (grid v) → isRunning v = false →
  start (grid v) = Some s → goal (grid v) = Some t →
  passable (grid v) s → reachable (grid v) s t →
  (2 * cellCount (grid v) + 1 ≤ fuel)%nat →
  ∃ p v',
    startBFS fuel v = Some v' ∧ isRunning v' = false ∧
    head p = Some s ∧ last p = Some t ∧ linked (grid v) p ∧
    min_hops (grid v) s t (length p - 1) ∧
    pathLength v' = Z.of_nat (length p) - 1 ∧
    (∀ q, state (cellOf (grid v') q) = Path ↔ q ∈ interior p) ∧
    Grid_reset (grid v') = Grid_reset (grid v).
Proof.
  intros Hwf Hrun0 Hs Hg Hpass [n Hwalk] Hfuel.
  destruct (started_ready (grid v) s Hwf Hs Hpass) as (Hwf' & Hfr & Hs' & Hp' & Hcc).
  destruct (runBFS_spec (started (grid v)) s fuel Hwf' Hfr eq_refl Hs' Hp')
    as (r & v1 & Lf & Hrun & HI & [(HQ & _ & _)|Hfound]); [by rewrite Hcc| |].
  - exfalso. apply walk_reset in Hwalk.
    pose proof (walk_visited_or_pending _ _ _ _ HI t n Hwalk HQ) as Ht.
    pose proof (inv_pending _ _ _ _ HI t Hg Ht) as Hq.
    rewrite HQ in Hq. by apply elem_of_nil in Hq.
  - destruct Hfound as (t' & rest & l & HQ & Hg' & -> & -> & Hhd & Hlast & Hlink & Hlen).
    assert (t' = t) as -> by (simpl in Hg'; congruence).
    assert (t ∈ visited Lf) as Ht by (eapply cur_visited; eauto).
    assert (validPos (grid (this Lf)) t = true) as Hvt by (eapply cur_valid; eauto).
    pose proof (runBFS_sched_reset fuel [] (started (grid v))) as Hreset.
    rewrite runBFS_sched_nil in Hreset. specialize (Hreset _ _ Hrun).
    simpl in Hreset. rewrite Grid_reset_idemp in Hreset.
    unfold startBFS. rewrite Hrun0, Hrun. simpl. rewrite highlightPath_fold. simpl.
    set (g1 := updCell (set_state Visited) t (grid (this Lf))) in *.
    assert (wf_grid g1) as Hwf1 by (apply updCell_wf, HI).
    assert (Forall (λ p, validPos g1 p = true) (interior l)) as Hval.
    { apply linked_valid in Hlink. rewrite Forall_forall in *. intros q Hq.
      unfold g1. rewrite updCell_validPos. unfold validPos, isValidCell.
      rewrite (inv_cols _ _ _ _ HI), (inv_rows _ _ _ _ HI). apply Hlink.
      unfold interior in Hq. apply elem_of_take in Hq as (i & Hq & _).
      rewrite lookup_drop in Hq. by eapply list_elem_of_lookup_2. }
    exists l. eexists. split; [done|]. simpl. split; [done|]. split; [done|].
    split; [done|]. split; [by apply linked_reset|]. split.
    { destruct (visited_min_hops _ _ _ _ HI t Ht) as (k & Hd & Hmin).
      rewrite (dz_Fin _ _ _ Hd) in Hlen.
      replace (length l - 1)%nat with k by lia.
      destruct Hmin as [Hw Hleast]. split; [by apply walk_reset|].
      intros m Hm. apply Hleast. by apply walk_reset. }
    split; [done|]. split; [|by rewrite Grid_reset_mark_path].
    intros q. rewrite cellOf_mark_path by done.
    destruct (decide (q ∈ interior l)) as [Hin|Hin]; [done|].
    split; [|done]. unfold g1. rewrite cellOf_updCell by (done || apply HI).
    destruct (decide (t = q)) as [->|Hne]; [done|].
    rewrite (inv_state _ _ _ _ HI q). by repeat case_decide.
Qed.

Lemma startBFS_marks_shortest_path_witness :
  ∃ p v',
    startBFS 51 (mkBFS grid5 false false 0 0) = Some v' ∧ isRunning v' = false ∧
    head p = Some (1, 1) ∧ last p = Some (3, 3) ∧ linked grid5 p ∧
    min_hops grid5 (1, 1) (3, 3) (length p - 1) ∧
    pathLength v' = Z.of_nat (length p) - 1 ∧
    (∀ q, state (cellOf (grid v') q) = Path ↔ q ∈ interior p) ∧
    Grid_reset (grid v') = Grid_reset grid5.
Proof.
  apply (startBFS_marks_shortest_path (mkBFS grid5 false false 0 0) (1, 1) (3, 3) 51).
  - unfold wf_grid. simpl. split_and!; [lia|lia|done|repeat constructor].
  - reflexivity.
  - reflexivity.
  - reflexivity.
  - split; [reflexivity|by vm_compute].
  - exists 4%nat. apply grid5_walk.
  - vm_compute. lia.
Defined.

(** ** Pausing and resuming *)












End GridBFS.

(* ===================================================================== *)
(** * Part II: the directed graph and depth-first search                  *)
(* ===================================================================== *)

Module GraphDFS.

(** ** JavaScript [Map] with numeric keys

    A [Map] iterates in insertion order; [set] on a key that is present
    replaces the value where it stands, [set] on a new key appends. *)
Definition JsMap (V : Type) : Type := list (nat * V).

Fixpoint map_get {V} (k : nat) (m : JsMap V) : option V :=
  match m with
  | [] => None
  | (k', x) :: m' => if decide (k = k') then Some x else map_get k m'
  end.

Fixpoint map_set {V} (k : nat) (x : V) (m : JsMap V) : JsMap V :=
  match m with
  | [] => [(k, x)]
  | (k', y) :: m' => if decide (k = k') then (k, x) :: m' else (k', y) :: map_set k x m'
  end.

Fixpoint map_delete {V} (k : nat) (m : JsMap V) : JsMap V :=
  match m with
  | [] => []
  | (k', y) :: m' => if decide (k = k') then map_delete k m' else (k', y) :: map_delete k m'
  end.

(** Mutating the object stored under [k]. *)
Fixpoint map_alter {V} (f : V → V) (k : nat) (m : JsMap V) : JsMap V :=
  match m with
  | [] => []
  | (k', y) :: m' => if decide (k = k') then (k', f y) :: m' else (k', y) :: map_alter f k m'
  end.

Definition map_keys {V} (m : JsMap V) : list nat := m.*1.
Definition map_values {V} (m : JsMap V) : list V := m.*2.

(** ** Nodes and edges ([class GraphNode], [class Graph] of graph.js) *)

Inductive NodeState := Unvisited | Visiting | Visited | Cycle.
Inductive EdgeState := Normal | CycleEdge.

Global Instance NodeState_eq_dec : EqDecision NodeState.
Proof. solve_decision. Defined.
Global Instance EdgeState_eq_dec : EqDecision EdgeState.
Proof. solve_decision. Defined.

(** The value [addNeighbor] stores: [node] is a reference to the target,
    that is its id. *)
Record Edge := mkEdge { node : nat; weight : Z; edgeState : EdgeState }.

(** The fields of a node object other than its id (its reference) and its
    drawing data. *)
Record GraphNode := mkNode {
  neighbors : JsMap Edge;
  state : NodeState;
  parent : option nat;
  distance : Num;
  discoveryTime : Z;
  finishTime : Z
}.

Definition set_neighbors (ns : JsMap Edge) (n : GraphNode) : GraphNode :=
  mkNode ns (state n) (parent n) (distance n) (discoveryTime n) (finishTime n).
Definition set_state (s : NodeState) (n : GraphNode) : GraphNode :=
  mkNode (neighbors n) s (parent n) (distance n) (discoveryTime n) (finishTime n).
Definition set_parent (p : option nat) (n : GraphNode) : GraphNode :=
  mkNode (neighbors n) (state n) p (distance n) (discoveryTime n) (finishTime n).
Definition set_discoveryTime (t : Z) (n : GraphNode) : GraphNode :=
  mkNode (neighbors n) (state n) (parent n) (distance n) t (finishTime n).
Definition set_finishTime (t : Z) (n : GraphNode) : GraphNode :=
  mkNode (neighbors n) (state n) (parent n) (distance n) (discoveryTime n) t.
Definition set_edgeState (s : EdgeState) (e : Edge) : Edge :=
  mkEdge (node e) (weight e) s.

(** The fields the [GraphNode] constructor sets. *)
Definition newNode : GraphNode := mkNode [] Unvisited None Infinity (-1) (-1).

(** [addNeighbor(neighbor, weight)] *)
Definition addNeighbor (neighbor : nat) (weight : Z) (n : GraphNode) : GraphNode :=
  set_neighbors (map_set neighbor (mkEdge neighbor weight Normal) (neighbors n)) n.

(** [removeNeighbor(neighborId)] *)
Definition removeNeighbor (neighborId : nat) (n : GraphNode) : GraphNode :=
  set_neighbors (map_delete neighborId (neighbors n)) n.

(** [getNeighbors()] of a node: the targets of its edges, in order. *)
Definition targets (n : GraphNode) : list nat := node <$> map_values (neighbors n).

(** [reset()] of a node. *)
Definition GraphNode_reset (n : GraphNode) : GraphNode :=
  mkNode (prod_map id (set_edgeState Normal) <$> neighbors n)
    Unvisited None Infinity (-1) (-1).

Record Graph := mkGraph { nodes : JsMap GraphNode; nodeCount : nat }.

Definition set_nodes (ns : JsMap GraphNode) (g : Graph) : Graph := mkGraph ns (nodeCount g).

Definition newGraph : Graph := mkGraph [] 0.

(** [addNode(x, y, label)]: the graph and the id of the created node. *)
Definition addNode (g : Graph) : Graph * nat :=
  let id := nodeCount g in
  (mkGraph (map_set id newNode (nodes g)) (S (nodeCount g)), id).

(** [removeNode(nodeId)] *)
Definition removeNode (nodeId : nat) (g : Graph) : Graph :=
  match map_get nodeId (nodes g) with
  | None => g
  | Some _ =>
      set_nodes (map_delete nodeId (prod_map id (removeNeighbor nodeId) <$> nodes g)) g
  end.

(** [addEdge(fromId, toId, weight)] *)
Definition addEdge (fromId toId : nat) (weight : Z) (g : Graph) : Graph :=
  match map_get fromId (nodes g), map_get toId (nodes g) with
  | Some _, Some _ => set_nodes (map_alter (addNeighbor toId weight) fromId (nodes g)) g
  | _, _ => g
  end.

(** [removeEdge(fromId, toId)] *)
Definition removeEdge (fromId toId : nat) (g : Graph) : Graph :=
  match map_get fromId (nodes g) with
  | Some _ => set_nodes (map_alter (removeNeighbor toId) fromId (nodes g)) g
  | None => g
  end.

(** [getNode(nodeId)] *)
Definition getNode (nodeId : nat) (g : Graph) : option GraphNode := map_get nodeId (nodes g).

(** [getAllNodes()], as references. *)
Definition getAllNodes (g : Graph) : list nat := map_keys (nodes g).

(** [getAllEdges()]: [(from, to, weight, state)] for every edge. *)
Definition getAllEdges (g : Graph) : list (nat * nat * Z * EdgeState) :=
  '(from, n) ← nodes g;
  (λ e : nat * Edge, (from, node e.2, weight e.2, edgeState e.2)) <$> neighbors n.

Definition Graph_reset (g : Graph) : Graph :=
  set_nodes (prod_map id GraphNode_reset <$> nodes g) g.

(** The last loop of [addCycle()], for the array [cycleNodes] of nodes it
    has selected: an edge from each of them to the next, the last one
    wrapping around to the first. *)
Definition addCycle_edges (cycleNodes : list nat) (g : Graph) : Graph :=
  foldl (λ g i,
           match cycleNodes !! i, cycleNodes !! ((i + 1) `mod` length cycleNodes)%nat with
           | Some from, Some to => addEdge from to 1 g
           | _, _ => g
           end) g (seq 0 (length cycleNodes)).

(** Reading and writing the object behind a node reference. *)
Definition nodeOf (g : Graph) (n : nat) : GraphNode := default newNode (map_get n (nodes g)).
Definition updNode (f : GraphNode → GraphNode) (n : nat) (g : Graph) : Graph :=
  set_nodes (map_alter f n (nodes g)) g.

(** ** The DFS engine ([class DFSVisualizer]) *)

Record DFSVisualizer := mkDFS {
  graph : Graph;
  isRunning : bool;
  isPaused : bool;
  visitedCount : Z;
  cycleCount : Z;
  time : Z;
  cycles : list (list nat)
}.

Definition set_graph (g : Graph) (v : DFSVisualizer) : DFSVisualizer :=
  mkDFS g (isRunning v) (isPaused v) (visitedCount v) (cycleCount v) (time v) (cycles v).
Definition upd (f : GraphNode → GraphNode) (n : nat) (v : DFSVisualizer) : DFSVisualizer :=
  set_graph (updNode f n (graph v)) v.

(** [findCycleNodes(fromNode, toNode)]: walk [parent] from [fromNode] until
    [toNode] (or [null]), putting each node in front of [[toNode]]. *)
Fixpoint findCycleNodes_from (fuel : nat) (g : Graph) (current : option nat)
    (toNode : nat) (cycleNodes : list nat) : option (list nat) :=
  match current with
  | None => Some cycleNodes
  | Some c =>
      if decide (c = toNode) then Some cycleNodes
      else match fuel with
           | O => None
           | S fuel' =>
               findCycleNodes_from fuel' g (parent (nodeOf g c)) toNode (c :: cycleNodes)
           end
  end.

Definition findCycleNodes (fuel : nat) (g : Graph) (fromNode toNode : nat)
    : option (list nat) :=
  findCycleNodes_from fuel g (Some fromNode) toNode [toNode].

(** [currentNode.neighbors.get(nextNode.id)], then [edge.state = 'cycle']
    when the edge exists. *)
Definition markEdge (fromNode toNode : nat) (g : Graph) : Graph :=
  updNode (λ n, set_neighbors (map_alter (set_edgeState CycleEdge) toNode (neighbors n)) n)
    fromNode g.

(** The last loop of [highlightCycle]: the edge from each node of the cycle
    to the next one, the last node wrapping around to the first. *)
Definition markCycleEdges (cycleNodes : list nat) (g : Graph) : Graph :=
  foldl (λ g i,
           match cycleNodes !! i, cycleNodes !! ((i + 1) `mod` length cycleNodes)%nat with
           | Some currentNode, Some nextNode => markEdge currentNode nextNode g
           | _, _ => g
           end) g (seq 0 (length cycleNodes)).

(** [highlightCycle(fromNode, toNode)] *)
Definition highlightCycle (fuel : nat) (fromNode toNode : nat) (v : DFSVisualizer)
    : option DFSVisualizer :=
  let g1 := markEdge fromNode toNode (graph v) in
  cycleNodes ← findCycleNodes fuel g1 fromNode toNode;
  let g2 := foldl (λ g n, updNode (set_state Cycle) n g) g1 cycleNodes in
  let g3 := markCycleEdges cycleNodes g2 in
  Some (mkDFS g3 (isRunning v) (isPaused v) (visitedCount v) (cycleCount v) (time v)
          (cycles v ++ [cycleNodes])).

(** [while (this.isPaused && this.isRunning) await Utils.delay(100)] in a
    run that receives no event: the flags cannot change, so the loop is
    either skipped or never left. *)
Definition pauseWait (v : DFSVisualizer) : option DFSVisualizer :=
  if isPaused v && isRunning v then None else Some v.

(** [this.cycleCount++] *)
Definition countCycle (v : DFSVisualizer) : DFSVisualizer :=
  mkDFS (graph v) (isRunning v) (isPaused v) (visitedCount v) (cycleCount v + 1)
    (time v) (cycles v).

(** How the [for] loop of [dfsVisit] ends. *)
Inductive LoopEnd := Completed (v : DFSVisualizer) | Returned (v : DFSVisualizer).

(** The [for (let [neighborId, edge] of node.neighbors)] loop of
    [dfsVisit(node)]; [visit] is the recursive call. *)
Fixpoint forNeighbors (visit : nat → DFSVisualizer → option DFSVisualizer) (fuel : nat)
    (node : nat) (remaining : list nat) (v : DFSVisualizer) : option LoopEnd :=
  match remaining with
  | [] => Some (Completed v)
  | neighbor :: remaining' =>
      v1 ← match state (nodeOf (graph v) neighbor) with
           | Unvisited => visit neighbor (upd (set_parent (Some node)) neighbor v)
           | Visiting =>
               v' ← highlightCycle fuel node neighbor v;
               Some (countCycle v')
           | _ => Some v
           end;
      v2 ← pauseWait v1;
      if negb (isRunning v2) then Some (Returned v2)
      else forNeighbors visit fuel node remaining' v2
  end.

(** The statements of [dfsVisit] before and after its loop. *)
Definition enter (node : nat) (v : DFSVisualizer) : DFSVisualizer :=
  let g := updNode (set_discoveryTime (time v + 1))
             node (updNode (set_state Visiting) node (graph v)) in
  mkDFS g (isRunning v) (isPaused v) (visitedCount v + 1) (cycleCount v) (time v + 1)
    (cycles v).

Definition finish (node : nat) (v : DFSVisualizer) : DFSVisualizer :=
  let g := updNode (set_finishTime (time v + 1))
             node (updNode (set_state Visited) node (graph v)) in
  mkDFS g (isRunning v) (isPaused v) (visitedCount v) (cycleCount v) (time v + 1)
    (cycles v).

(** [dfsVisit(node)] *)
Fixpoint dfsVisit (fuel : nat) (node : nat) (v : DFSVisualizer) : option DFSVisualizer :=
  match fuel with
  | O => None
  | S fuel' =>
      let v1 := enter node v in
      match forNeighbors (dfsVisit fuel') fuel' node (targets (nodeOf (graph v1) node)) v1 with
      | None => None
      | Some (Returned v') => Some v'
      | Some (Completed v') => Some (finish node v')
      end
  end.

(** The loop of [runDFS] over the array [getAllNodes()] returned. *)
Fixpoint runDFS_loop (fuel : nat) (remaining : list nat) (v : DFSVisualizer)
    : option DFSVisualizer :=
  match remaining with
  | [] => Some v
  | node :: remaining' =>
      v1 ← (if decide (state (nodeOf (graph v) node) = Unvisited) then
              if isPaused v then Some v else dfsVisit fuel node v
            else Some v);
      v2 ← pauseWait v1;
      runDFS_loop fuel remaining' v2
  end.

(** [runDFS()] *)
Definition runDFS (fuel : nat) (v : DFSVisualizer) : option DFSVisualizer :=
  runDFS_loop fuel (getAllNodes (graph v)) v.

(** The state [startDFS] sets up before it calls [runDFS]. *)
Definition started (g : Graph) : DFSVisualizer :=
  mkDFS (Graph_reset g) true false 0 0 0 [].

(** [startDFS()] up to the end of [runDFS]; a request while a run is
    active is ignored. *)
Definition startDFS (fuel : nat) (v : DFSVisualizer) : option DFSVisualizer :=
  if isRunning v then Some v
  else v' ← runDFS fuel (started (graph v));
       Some (mkDFS (graph v') false (isPaused v') (visitedCount v') (cycleCount v')
               (time v') (cycles v')).

(** A graph built from a number of nodes and a list of edges, as the user
    interface builds one. *)
Definition buildGraph (n : nat) (edges : list (nat * nat)) : Graph :=
  foldl (λ g e, addEdge e.1 e.2 1 g) (Nat.iter n (λ g, (addNode g).1) newGraph) edges.

(** Three nodes in a ring, and a graph whose edges all lead to a node with
    a larger id. *)
Definition ring3 : Graph := buildGraph 3 [(0, 1); (1, 2); (2, 0)]%nat.
Definition dag4 : Graph := buildGraph 4 [(0, 1); (1, 2); (0, 2); (2, 3)]%nat.

(** Node 0 has an edge to node 1 and then an edge to itself, and node 1
    has an edge back to node 0. *)
Definition loopAfterBack : Graph := buildGraph 2 [(0, 1); (0, 0); (1, 0)]%nat.

(** ** Notions used by the specification *)

(** [g] has an edge from [a] to [b]. *)
Definition has_edge (g : Graph) (a b : nat) : Prop := b ∈ targets (nodeOf g a).

(** A directed path of at least one edge. *)
Inductive path (g : Graph) : nat → nat → Prop :=
  | path_edge a b : has_edge g a b → path g a b
  | path_step a b c : has_edge g a b → path g b c → path g a c.

Definition acyclic (g : Graph) : Prop := ∀ a, ¬ path g a a.

(** Every two consecutive nodes of the list are joined by an edge. *)
Fixpoint walk_in (g : Graph) (l : list nat) : Prop :=
  match l with
  | [] => True
  | a :: l' =>
      match l' with
      | [] => True
      | b :: _ => has_edge g a b
      end ∧ walk_in g l'
  end.

(** A recorded cycle is a closed walk: a non-empty node list whose
    consecutive nodes, and its last and first node, are joined by edges. *)
Definition closed_walk (g : Graph) (l : list nat) : Prop :=
  ∃ first, head l = Some first ∧ walk_in g (l ++ [first]).

(** Edges lead to nodes of the graph ([addEdge] checks both ends and
    [removeNode] removes the edges into the node). *)
Definition wf_graph (g : Graph) : Prop :=
  ∀ a b, has_edge g a b → b ∈ getAllNodes g.

(** What the operations of [Graph] maintain: node ids are unique and
    below [nodeCount]; the edges of a node are stored under the id of their
    target, once each; and edges lead to nodes of the graph. *)
Definition edges_ok (n : GraphNode) : Prop :=
  NoDup (map_keys (neighbors n)) ∧ Forall (λ ke, node ke.2 = ke.1) (neighbors n).

Definition graph_ok (g : Graph) : Prop :=
  NoDup (getAllNodes g) ∧
  Forall (λ k, (k < nodeCount g)%nat) (getAllNodes g) ∧
  Forall (λ kn, edges_ok kn.2) (nodes g) ∧
  wf_graph g.

(** A node without marks of a run: what [node.reset()] leaves. *)
Definition freshNode (n : GraphNode) : Prop :=
  state n = Unvisited ∧ parent n = None ∧ discoveryTime n = -1 ∧ finishTime n = -1.

Definition fresh (g : Graph) : Prop := Forall (λ kn, freshNode kn.2) (nodes g).

(** The part of a node that the traversal reads. *)
Definition view (n : GraphNode) : NodeState * option nat * Z * Z * list nat :=
  (state n, parent n, discoveryTime n, finishTime n, targets n).

(** The recursion stack, innermost call first: each node's [parent] is the
    next node of the stack. *)
Fixpoint parent_chain (g : Graph) (stk : list nat) : Prop :=
  match stk with
  | [] => True
  | a :: rest =>
      match rest with
      | [] => True
      | b :: _ => parent (nodeOf g a) = Some b
      end ∧ parent_chain g rest
  end.

(** Each node of the stack was entered along an edge from the next one. *)
Fixpoint tree_chain (g : Graph) (stk : list nat) : Prop :=
  match stk with
  | [] => True
  | a :: rest =>
      match rest with
      | [] => True
      | b :: _ => has_edge g b a
      end ∧ tree_chain g rest
  end.

(** The timestamps a node may carry in each state, the counter being [t]. *)
Definition stamps_ok (t : Z) (n : GraphNode) : Prop :=
  match state n with
  | Unvisited => discoveryTime n = -1 ∧ finishTime n = -1
  | Visiting | Cycle => 0 < discoveryTime n ≤ t ∧ finishTime n = -1
  | Visited => 0 < discoveryTime n ∧ discoveryTime n < finishTime n ∧ finishTime n ≤ t
  end.

(** [x] is one of the timestamps of [n]. *)
Definition stamp (n : GraphNode) (x : Z) : Prop :=
  discoveryTime n = x ∨ finishTime n = x.

(** The invariant of a run over the graph [g0], the calls of [dfsVisit] in
    progress being those of [stk]. *)
Record DInv (g0 : Graph) (stk : list nat) (v : DFSVisualizer) : Prop := mkDInv {
  d_ids : getAllNodes (graph v) = getAllNodes g0;
  d_succ : ∀ n, targets (nodeOf (graph v) n) = targets (nodeOf g0 n);
  d_running : isRunning v = true;
  d_paused : isPaused v = false;
  d_stack : ∀ n, n ∈ stk ↔
                 state (nodeOf (graph v) n) = Visiting ∨ state (nodeOf (graph v) n) = Cycle;
  d_nodup : NoDup stk;
  d_chain : parent_chain (graph v) stk;
  d_tree : tree_chain g0 stk;
  d_cycles : Forall (closed_walk g0) (cycles v);
  d_count : cycleCount v = Z.of_nat (length (cycles v));
  d_time0 : 0 ≤ time v;
  d_time : ∀ n, stamps_ok (time v) (nodeOf (graph v) n);
  d_distinct : ∀ n m x, 0 < x → stamp (nodeOf (graph v) n) x →
                        stamp (nodeOf (graph v) m) x → n = m;
  d_nocyc : cycles v = [] → ∀ n, state (nodeOf (graph v) n) ≠ Cycle;
  d_edges : cycles v = [] → ∀ a b,
            state (nodeOf (graph v) a) = Visited → has_edge g0 a b →
            state (nodeOf (graph v) b) = Visited ∧
            finishTime (nodeOf (graph v) b) < finishTime (nodeOf (graph v) a)
}.

(** What a step of the run keeps of the state before it. *)
Record Frame (g0 : Graph) (v v' : DFSVisualizer) : Prop := mkFrame {
  f_visited : ∀ n, state (nodeOf (graph v) n) = Visited →
                   view (nodeOf (graph v') n) = view (nodeOf (graph v) n);
  f_time : time v ≤ time v';
  f_cycles : cycles v `prefix_of` cycles v';
  f_acyclic : acyclic g0 →
              cycles v' = cycles v ∧
              (∀ n, state (nodeOf (graph v') n) = Cycle → state (nodeOf (graph v) n) = Cycle)
}.

(** ** The store of nodes *)

Lemma map_get_alter {V} (f : V → V) j k (m : JsMap V) :
  map_get k (map_alter f j m) = if decide (j = k) then f <$> map_get k m else map_get k m.
Proof.
  induction m as [|[k' y] m IH]; simpl; [by case_decide|].
  destruct (decide (j = k')) as [->|Hj]; simpl.
  - destruct (decide (k = k')) as [->|Hk].
    + by rewrite decide_True.
    + rewrite decide_False by done. done.
  - destruct (decide (k = k')) as [->|Hk].
    + by rewrite decide_False.
    + exact IH.
Qed.

Lemma map_keys_alter {V} (f : V → V) j (m : JsMap V) :
  map_keys (map_alter f j m) = map_keys m.
Proof.
  unfold map_keys. induction m as [|[k' y] m IH]; simpl; [done|].
  case_decide; csimpl; [done|]. by f_equal.
Qed.

Lemma map_get_Some_keys {V} k (m : JsMap V) : is_Some (map_get k m) ↔ k ∈ map_keys m.
Proof.
  unfold map_keys. induction m as [|[k' y] m IH]; simpl.
  - split; [by intros [? ?]|]. intros H. by apply elem_of_nil in H.
  - rewrite elem_of_cons. destruct (decide (k = k')) as [->|Hk].
    + split; [by left|by eexists].
    + rewrite IH. split; [by right|intros [?|?]; done].
Qed.

Lemma getAllNodes_updNode f j g : getAllNodes (updNode f j g) = getAllNodes g.
Proof. unfold getAllNodes, updNode. simpl. apply map_keys_alter. Qed.

Lemma nodeOf_updNode_ne f j k g : j ≠ k → nodeOf (updNode f j g) k = nodeOf g k.
Proof.
  intros Hne. unfold nodeOf, updNode. simpl. rewrite map_get_alter. by case_decide.
Qed.

Lemma nodeOf_updNode_eq f j g :
  j ∈ getAllNodes g → nodeOf (updNode f j g) j = f (nodeOf g j).
Proof.
  intros Hin. apply map_get_Some_keys in Hin as [n Hn].
  unfold nodeOf, updNode. simpl. rewrite map_get_alter, decide_True by done.
  by rewrite Hn.
Qed.

Lemma nodeOf_absent g n : n ∉ getAllNodes g → nodeOf g n = newNode.
Proof.
  intros Hn. unfold nodeOf. destruct (map_get n (nodes g)) eqn:E; [|done].
  exfalso. apply Hn, map_get_Some_keys. by eexists.
Qed.

Lemma state_in_graph g n : state (nodeOf g n) ≠ Unvisited → n ∈ getAllNodes g.
Proof.
  intros Hst. destruct (decide (n ∈ getAllNodes g)) as [|Hn]; [done|].
  by rewrite nodeOf_absent in Hst.
Qed.

Lemma has_edge_in_graph g a b : has_edge g a b → a ∈ getAllNodes g.
Proof.
  intros He. destruct (decide (a ∈ getAllNodes g)) as [|Hn]; [done|].
  unfold has_edge in He. rewrite nodeOf_absent in He by done.
  by apply elem_of_nil in He.
Qed.

(** Marking an edge changes no node field that the traversal reads. *)
Lemma targets_mark_edges t (ns : JsMap Edge) :
  node <$> map_values (map_alter (set_edgeState CycleEdge) t ns) = node <$> map_values ns.
Proof.
  unfold map_values. induction ns as [|[k e] ns IH]; simpl; [done|].
  case_decide; csimpl; [done|]. by f_equal.
Qed.

Lemma view_markEdge a b g n : view (nodeOf (markEdge a b g) n) = view (nodeOf g n).
Proof.
  unfold markEdge. destruct (decide (a = n)) as [->|Hne].
  - destruct (decide (n ∈ getAllNodes g)) as [Hin|Hin].
    + rewrite nodeOf_updNode_eq by done. unfold view, targets. simpl.
      by rewrite targets_mark_edges.
    + rewrite !nodeOf_absent; [done|done|by rewrite getAllNodes_updNode].
  - by rewrite nodeOf_updNode_ne.
Qed.

Lemma getAllNodes_markEdge a b g : getAllNodes (markEdge a b g) = getAllNodes g.
Proof. apply getAllNodes_updNode. Qed.

Lemma markCycleEdges_spec l g :
  getAllNodes (markCycleEdges l g) = getAllNodes g ∧
  ∀ n, view (nodeOf (markCycleEdges l g) n) = view (nodeOf g n).
Proof.
  unfold markCycleEdges. generalize (seq 0 (length l)).
  intros idx. revert g. induction idx as [|i idx IH]; intros g; [done|]. simpl.
  destruct (l !! i) as [a|]; [|apply IH].
  destruct (l !! _) as [b|]; [|apply IH].
  destruct (IH (markEdge a b g)) as [H1 H2]. split.
  - by rewrite H1, getAllNodes_markEdge.
  - intros n. by rewrite H2, view_markEdge.
Qed.

Lemma markCycle_nodes l : ∀ g,
  (∀ n, n ∈ l → n ∈ getAllNodes g) →
  getAllNodes (foldl (λ g n, updNode (set_state Cycle) n g) g l) = getAllNodes g ∧
  ∀ n, nodeOf (foldl (λ g n, updNode (set_state Cycle) n g) g l) n =
       if decide (n ∈ l) then set_state Cycle (nodeOf g n) else nodeOf g n.
Proof.
  induction l as [|a l IH]; intros g Hin; cbn [foldl].
  - split; [done|]. intros n. rewrite decide_False; [done|]. apply not_elem_of_nil.
  - destruct (IH (updNode (set_state Cycle) a g)) as [H1 H2].
    { intros n Hn. rewrite getAllNodes_updNode. apply Hin. by right. }
    split; [by rewrite H1, getAllNodes_updNode|].
    intros n. rewrite H2.
    assert (a ∈ getAllNodes g) as Ha by (apply Hin; by left).
    destruct (decide (n = a)) as [->|Hne].
    + rewrite (decide_True (P := a ∈ a :: l)) by by left.
      rewrite nodeOf_updNode_eq by done. by case_decide.
    + rewrite nodeOf_updNode_ne by done.
      destruct (decide (n ∈ l)) as [Hl|Hl].
      * rewrite decide_True; [done|by right].
      * rewrite decide_False; [done|]. rewrite elem_of_cons. tauto.
Qed.

(** ** Walks, stacks and timestamps *)

Lemma view_inv a b :
  view a = view b →
  state a = state b ∧ parent a = parent b ∧ discoveryTime a = discoveryTime b ∧
  finishTime a = finishTime b ∧ targets a = targets b.
Proof. unfold view. intros H. by simplify_eq. Qed.

Lemma stamps_ok_view t a b : view a = view b → stamps_ok t b → stamps_ok t a.
Proof.
  intros H. apply view_inv in H as (H1 & _ & H3 & H4 & _).
  unfold stamps_ok. by rewrite H1, H3, H4.
Qed.

Lemma stamp_view a b x : view a = view b → stamp a x → stamp b x.
Proof.
  intros H. apply view_inv in H as (_ & _ & H3 & H4 & _).
  unfold stamp. by rewrite H3, H4.
Qed.

Lemma stamps_ok_mono t t' n : t ≤ t' → stamps_ok t n → stamps_ok t' n.
Proof. unfold stamps_ok. destruct (state n); lia. Qed.

Lemma stamp_bound t n x : stamps_ok t n → stamp n x → 0 < x → x ≤ t.
Proof. unfold stamps_ok, stamp. destruct (state n); lia. Qed.

Lemma stamp_unvisited t n x : stamps_ok t n → state n = Unvisited → stamp n x → x = -1.
Proof. unfold stamps_ok, stamp. intros H E. rewrite E in H. lia. Qed.

Lemma parent_chain_ext g g' stk :
  (∀ a, a ∈ stk → parent (nodeOf g' a) = parent (nodeOf g a)) →
  parent_chain g stk → parent_chain g' stk.
Proof.
  induction stk as [|a stk IH]; [done|]. intros Hext [Ha Hrest]. split.
  - destruct stk as [|b stk]; [done|]. rewrite Hext; [done|by left].
  - apply IH; [|done]. intros b Hb. apply Hext. by right.
Qed.

Lemma parent_chain_app_r g l1 l2 : parent_chain g (l1 ++ l2) → parent_chain g l2.
Proof. induction l1 as [|a l1 IH]; [done|]. intros [_ H]. by apply IH. Qed.

Lemma tree_chain_app_l g l1 l2 : tree_chain g (l1 ++ l2) → tree_chain g l1.
Proof.
  induction l1 as [|a l1 IH]; [done|]. intros [Ha H]. split; [|by apply IH].
  destruct l1 as [|b l1]; [done|]. exact Ha.
Qed.

Lemma walk_in_app g l1 l2 :
  walk_in g l1 → walk_in g l2 →
  (∀ a b, last l1 = Some a → head l2 = Some b → has_edge g a b) →
  walk_in g (l1 ++ l2).
Proof.
  intros H1 H2 Hjoin. induction l1 as [|a l1 IH]; [done|].
  destruct H1 as [Ha H1]. destruct l1 as [|b l1].
  - simpl. split; [|done]. destruct l2 as [|c l2]; [done|]. by apply Hjoin.
  - split; [exact Ha|]. apply IH; [done|]. intros x y Hx Hy. by apply Hjoin.
Qed.

Lemma tree_chain_rev g l : tree_chain g l → walk_in g (rev l).
Proof.
  induction l as [|a l IH]; [done|]. intros [Ha Hl]. simpl.
  apply walk_in_app; [by apply IH|done|].
  intros x y Hx Hy. injection Hy as <-.
  destruct l as [|b l]; [done|].
  simpl in Hx. rewrite last_snoc in Hx. injection Hx as <-. exact Ha.
Qed.

Lemma walk_in_path g : ∀ l a b,
  walk_in g (a :: l) → l ≠ [] → last (a :: l) = Some b → path g a b.
Proof.
  induction l as [|c l IH]; intros a b Hw Hne Hlast; [done|].
  destruct Hw as [Hac Hw]. destruct l as [|d l].
  - simpl in Hlast. injection Hlast as <-. by apply path_edge.
  - eapply path_step; [exact Hac|]. apply IH; [done|done|done].
Qed.

Lemma closed_walk_path g l : closed_walk g l → ∃ a, path g a a.
Proof.
  intros (first & Hhd & Hw). exists first.
  destruct l as [|a l]; [done|]. injection Hhd as ->.
  apply (walk_in_path g (l ++ [first])); [done|by destruct l|].
  rewrite app_comm_cons. by rewrite last_snoc.
Qed.

(** [findCycleNodes] returns the part of the stack above the target,
    innermost node last but one, followed by the target. *)
Lemma findCycleNodes_chain g t post : ∀ pre acc fuel,
  parent_chain g (pre ++ t :: post) → t ∉ pre → (length pre ≤ fuel)%nat →
  findCycleNodes_from fuel g (head (pre ++ [t])) t acc = Some (rev pre ++ acc).
Proof.
  induction pre as [|a pre IH]; intros acc fuel Hchain Hnot Hfuel.
  - destruct fuel; simpl; by rewrite decide_True.
  - destruct fuel as [|fuel]; [simpl in Hfuel; lia|].
    simpl. rewrite decide_False by (intros ->; apply Hnot; by left).
    destruct Hchain as [Ha Hchain].
    assert (parent (nodeOf g a) = head (pre ++ [t])) as -> by by destruct pre.
    rewrite IH; [|done|intros ?; apply Hnot; by right|simpl in Hfuel; lia].
    by rewrite <-app_assoc.
Qed.

Lemma back_edge_closed_walk g pre t post :
  tree_chain g (pre ++ t :: post) →
  (∀ u, head (pre ++ [t]) = Some u → has_edge g u t) →
  closed_walk g (rev pre ++ [t]).
Proof.
  intros Htree Hback.
  destruct pre as [|u pre].
  - exists t. split; [done|]. simpl. split; [|done]. by apply Hback.
  - assert (tree_chain g ((u :: pre) ++ [t])) as Hpt.
    { replace ((u :: pre) ++ t :: post) with (((u :: pre) ++ [t]) ++ post) in Htree
        by by rewrite <-app_assoc.
      by apply tree_chain_app_l in Htree. }
    apply tree_chain_rev in Hpt. rewrite rev_app_distr in Hpt. simpl in Hpt.
    assert (∃ z, head (rev pre ++ [u]) = Some z) as [z Hz].
    { destruct (rev pre); by eexists. }
    exists z. split.
    { simpl. destruct (rev pre ++ [u]); [done|]. done. }
    simpl. rewrite <-!app_assoc. simpl.
    change (rev pre ++ u :: t :: [z]) with (rev pre ++ [u] ++ [t; z]).
    rewrite app_assoc. apply walk_in_app.
    + destruct Hpt as [_ Hpt]. exact Hpt.
    + simpl. split; [|done]. destruct Hpt as [Hpt _].
      destruct (rev pre ++ [u]) as [|z' l']; [done|]. injection Hz as ->. exact Hpt.
    + intros a b Ha Hb. injection Hb as <-. rewrite last_snoc in Ha.
      injection Ha as <-. by apply Hback.
Qed.

(** ** The steps of [dfsVisit] keep the invariant *)

Lemma Frame_refl g0 v : Frame g0 v v.
Proof. by constructor. Qed.

Lemma Frame_trans g0 v1 v2 v3 : Frame g0 v1 v2 → Frame g0 v2 v3 → Frame g0 v1 v3.
Proof.
  intros [Hv1 Ht1 Hc1 Ha1] [Hv2 Ht2 Hc2 Ha2]. constructor.
  - intros n Hn. rewrite <-(Hv1 n Hn). apply Hv2.
    destruct (view_inv _ _ (Hv1 n Hn)) as [-> _]. done.
  - lia.
  - by etrans.
  - intros Hac. destruct (Ha1 Hac) as [E1 F1]. destruct (Ha2 Hac) as [E2 F2].
    split; [congruence|]. intros n Hn. by apply F1, F2.
Qed.

Lemma fresh_stamp_distinct (f f' : nat → GraphNode) t u :
  (∀ n, stamps_ok t (f n)) →
  (∀ n m x, 0 < x → stamp (f n) x → stamp (f m) x → n = m) →
  (∀ n, n ≠ u → f' n = f n) →
  (∀ x, 0 < x → stamp (f' u) x → stamp (f u) x ∨ x = t + 1) →
  ∀ n m x, 0 < x → stamp (f' n) x → stamp (f' m) x → n = m.
Proof.
  intros Hok Hold Hsame Hnew n m x Hx Hn Hm.
  assert (∀ k, k ≠ u → stamp (f k) x → x ≤ t) as Hbound.
  { intros k _ Hk. by eapply stamp_bound. }
  destruct (decide (n = u)) as [->|Hnu]; destruct (decide (m = u)) as [->|Hmu].
  - done.
  - rewrite (Hsame m Hmu) in Hm. destruct (Hnew x Hx Hn) as [Hu| ->].
    + by eapply Hold.
    + specialize (Hbound m Hmu Hm). lia.
  - rewrite (Hsame n Hnu) in Hn. destruct (Hnew x Hx Hm) as [Hu| ->].
    + by eapply Hold.
    + specialize (Hbound n Hnu Hn). lia.
  - rewrite (Hsame n Hnu) in Hn. rewrite (Hsame m Hmu) in Hm. by eapply Hold.
Qed.

Lemma stack_in_graph g0 stk v n : DInv g0 stk v → n ∈ stk → n ∈ getAllNodes g0.
Proof.
  intros HI Hn. rewrite <-(d_ids _ _ _ HI). apply state_in_graph.
  apply (d_stack _ _ _ HI) in Hn as [E|E]; by rewrite E.
Qed.

Lemma enter_node u v n :
  u ∈ getAllNodes (graph v) →
  nodeOf (graph (enter u v)) n =
    if decide (n = u)
    then set_discoveryTime (time v + 1) (set_state Visiting (nodeOf (graph v) n))
    else nodeOf (graph v) n.
Proof.
  intros Hu. unfold enter. simpl. case_decide as E.
  - subst n. rewrite nodeOf_updNode_eq by by rewrite getAllNodes_updNode.
    by rewrite nodeOf_updNode_eq.
  - rewrite !nodeOf_updNode_ne by done. done.
Qed.

Lemma enter_inv g0 stk u v :
  DInv g0 stk v → u ∈ getAllNodes g0 →
  state (nodeOf (graph v) u) = Unvisited →
  (∀ p, head stk = Some p → parent (nodeOf (graph v) u) = Some p ∧ has_edge g0 p u) →
  DInv g0 (u :: stk) (enter u v) ∧ Frame g0 v (enter u v).
Proof.
  intros HI Hu Hst Hedge.
  assert (u ∈ getAllNodes (graph v)) as Hu' by by rewrite (d_ids _ _ _ HI).
  pose proof (enter_node u v) as Hnode.
  assert (u ∉ stk) as Hnotin.
  { intros Hin. apply (d_stack _ _ _ HI) in Hin. rewrite Hst in Hin.
    destruct Hin; discriminate. }
  split.
  - constructor.
    + unfold enter. simpl. rewrite !getAllNodes_updNode. apply HI.
    + intros n. rewrite Hnode by done. case_decide; [subst n|]; apply (d_succ _ _ _ HI).
    + apply (d_running _ _ _ HI).
    + apply (d_paused _ _ _ HI).
    + intros n. rewrite Hnode by done. rewrite elem_of_cons.
      case_decide as E; [subst n; simpl; tauto|].
      rewrite (d_stack _ _ _ HI n). tauto.
    + by apply NoDup_cons_2; [|apply HI].
    + split.
      * destruct stk as [|b stk]; [done|].
        rewrite Hnode by done. rewrite decide_True by done. simpl.
        by destruct (Hedge b eq_refl) as [-> _].
      * eapply parent_chain_ext; [|apply (d_chain _ _ _ HI)].
        intros a Ha. rewrite Hnode by done.
        rewrite decide_False by (intros ->; done). done.
    + split; [|apply (d_tree _ _ _ HI)].
      destruct stk as [|b stk]; [done|]. by destruct (Hedge b eq_refl) as [_ ?].
    + apply (d_cycles _ _ _ HI).
    + apply (d_count _ _ _ HI).
    + pose proof (d_time0 _ _ _ HI). unfold enter. simpl. lia.
    + intros n. rewrite Hnode by done.
      pose proof (d_time0 _ _ _ HI) as H0. pose proof (d_time _ _ _ HI n) as Hn.
      case_decide as E.
      * subst n. unfold stamps_ok in *. rewrite Hst in Hn.
        unfold enter. simpl. lia.
      * apply (stamps_ok_mono (time v)); [unfold enter; simpl; lia|done].
    + apply (fresh_stamp_distinct (nodeOf (graph v)) _ (time v) u);
        [apply (d_time _ _ _ HI)|apply (d_distinct _ _ _ HI)| |].
      * intros n Hne. rewrite Hnode by done. by rewrite decide_False.
      * intros x Hx. rewrite Hnode, decide_True by done.
        unfold stamp. simpl. intros [<-|Hf]; [by right|left; by right].
    + intros Hc n. rewrite Hnode by done.
      case_decide; [done|]. by apply (d_nocyc _ _ _ HI).
    + intros Hc a b Ha Hab. unfold enter in Hc. simpl in Hc.
      assert (a ≠ u) as Hau.
      { intros ->. rewrite Hnode, decide_True in Ha by done. discriminate. }
      rewrite Hnode, decide_False in Ha by done.
      destruct (d_edges _ _ _ HI Hc a b Ha Hab) as [Hb Hlt].
      assert (b ≠ u) as Hbu by (intros ->; congruence).
      rewrite !Hnode by done.
      rewrite (decide_False (P := b = u)) by done.
      rewrite (decide_False (P := a = u)) by done. done.
  - constructor.
    + intros n Hn. rewrite Hnode by done.
      rewrite decide_False; [done|]. intros ->. congruence.
    + unfold enter. simpl. lia.
    + done.
    + intros _. split; [done|]. intros n. rewrite Hnode by done.
      case_decide; [done|]. done.
Qed.

Lemma finish_node u v n :
  u ∈ getAllNodes (graph v) →
  nodeOf (graph (finish u v)) n =
    if decide (n = u)
    then set_finishTime (time v + 1) (set_state Visited (nodeOf (graph v) n))
    else nodeOf (graph v) n.
Proof.
  intros Hu. unfold finish. simpl. case_decide as E.
  - subst n. rewrite nodeOf_updNode_eq by by rewrite getAllNodes_updNode.
    by rewrite nodeOf_updNode_eq.
  - rewrite !nodeOf_updNode_ne by done. done.
Qed.

Lemma finish_inv g0 stk u v :
  DInv g0 (u :: stk) v →
  (cycles v = [] → ∀ b, has_edge g0 u b → state (nodeOf (graph v) b) = Visited) →
  DInv g0 stk (finish u v) ∧ Frame g0 v (finish u v) ∧
  state (nodeOf (graph (finish u v)) u) = Visited.
Proof.
  intros HI Hdone.
  assert (u ∈ getAllNodes (graph v)) as Hu'.
  { rewrite (d_ids _ _ _ HI). eapply stack_in_graph; [done|]. by left. }
  pose proof (finish_node u v) as Hnode.
  pose proof (d_nodup _ _ _ HI) as Hnd. apply NoDup_cons in Hnd as [Hnotin Hnd].
  assert (state (nodeOf (graph v) u) = Visiting ∨ state (nodeOf (graph v) u) = Cycle)
    as Hst by (apply (d_stack _ _ _ HI); by left).
  split; [|split].
  - constructor.
    + unfold finish. simpl. rewrite !getAllNodes_updNode. apply HI.
    + intros n. rewrite Hnode by done. case_decide; [subst n|]; apply (d_succ _ _ _ HI).
    + apply (d_running _ _ _ HI).
    + apply (d_paused _ _ _ HI).
    + intros n. rewrite Hnode by done.
      pose proof (d_stack _ _ _ HI n) as Hs. rewrite elem_of_cons in Hs.
      case_decide as E.
      * subst n. simpl. split; [done|]. intros [?|?]; discriminate.
      * rewrite <-Hs. tauto.
    + done.
    + destruct (d_chain _ _ _ HI) as [_ Hc].
      eapply parent_chain_ext; [|exact Hc].
      intros a Ha. rewrite Hnode by done.
      rewrite decide_False by (intros ->; done). done.
    + by destruct (d_tree _ _ _ HI) as [_ Ht].
    + apply (d_cycles _ _ _ HI).
    + apply (d_count _ _ _ HI).
    + pose proof (d_time0 _ _ _ HI). unfold finish. simpl. lia.
    + intros n. rewrite Hnode by done.
      pose proof (d_time0 _ _ _ HI) as H0. pose proof (d_time _ _ _ HI n) as Hn.
      case_decide as E.
      * subst n. unfold stamps_ok in *. unfold finish. simpl.
        destruct Hst as [E|E]; rewrite E in Hn; lia.
      * apply (stamps_ok_mono (time v)); [unfold finish; simpl; lia|done].
    + apply (fresh_stamp_distinct (nodeOf (graph v)) _ (time v) u);
        [apply (d_time _ _ _ HI)|apply (d_distinct _ _ _ HI)| |].
      * intros n Hne. rewrite Hnode by done. by rewrite decide_False.
      * intros x Hx. rewrite Hnode, decide_True by done.
        unfold stamp. simpl. intros [Hd|<-]; [left; by left|by right].
    + intros Hc n. rewrite Hnode by done.
      case_decide; [done|]. by apply (d_nocyc _ _ _ HI).
    + intros Hc a b Ha Hab. unfold finish in Hc. simpl in Hc.
      destruct (decide (a = u)) as [->|Hau].
      * assert (state (nodeOf (graph v) b) = Visited) as Hb by by apply Hdone.
        assert (b ≠ u) as Hbu by (intros ->; destruct Hst; congruence).
        rewrite !Hnode by done.
        rewrite (decide_False (P := b = u)) by done.
        rewrite (decide_True (P := u = u)) by done.
        split; [done|]. simpl.
        pose proof (d_time _ _ _ HI b) as Htb. unfold stamps_ok in Htb.
        rewrite Hb in Htb. lia.
      * rewrite Hnode, decide_False in Ha by done.
        destruct (d_edges _ _ _ HI Hc a b Ha Hab) as [Hb Hlt].
        assert (b ≠ u) as Hbu by (intros ->; destruct Hst; congruence).
        rewrite !Hnode by done.
        rewrite (decide_False (P := b = u)) by done.
        rewrite (decide_False (P := a = u)) by done. done.
  - constructor.
    + intros n Hn. rewrite Hnode by done.
      rewrite decide_False; [done|]. intros ->. destruct Hst; congruence.
    + unfold finish. simpl. lia.
    + done.
    + intros _. split; [done|]. intros n. rewrite Hnode by done.
      case_decide; [done|]. done.
  - rewrite Hnode, decide_True by done. done.
Qed.

Lemma setParent_inv g0 stk p t v :
  DInv g0 stk v → state (nodeOf (graph v) t) = Unvisited →
  DInv g0 stk (upd (set_parent p) t v) ∧ Frame g0 v (upd (set_parent p) t v) ∧
  state (nodeOf (graph (upd (set_parent p) t v)) t) = Unvisited ∧
  (t ∈ getAllNodes g0 → parent (nodeOf (graph (upd (set_parent p) t v)) t) = p).
Proof.
  intros HI Hst.
  assert (∀ n, nodeOf (graph (upd (set_parent p) t v)) n = nodeOf (graph v) n ∨
               n = t ∧ nodeOf (graph (upd (set_parent p) t v)) n =
                         set_parent p (nodeOf (graph v) n)) as Hnode.
  { intros n. unfold upd. simpl. destruct (decide (t = n)) as [->|Hne].
    - destruct (decide (n ∈ getAllNodes (graph v))) as [Hin|Hin].
      + right. by rewrite nodeOf_updNode_eq.
      + left. rewrite !nodeOf_absent; [done|done|by rewrite getAllNodes_updNode].
    - left. by rewrite nodeOf_updNode_ne. }
  assert (∀ n, view (nodeOf (graph (upd (set_parent p) t v)) n) = view (nodeOf (graph v) n)
               ∨ n = t) as Hview.
  { intros n. destruct (Hnode n) as [->|[-> _]]; [by left|by right]. }
  assert (∀ n, state (nodeOf (graph (upd (set_parent p) t v)) n) = state (nodeOf (graph v) n) ∧
               discoveryTime (nodeOf (graph (upd (set_parent p) t v)) n) =
                 discoveryTime (nodeOf (graph v) n) ∧
               finishTime (nodeOf (graph (upd (set_parent p) t v)) n) =
                 finishTime (nodeOf (graph v) n) ∧
               targets (nodeOf (graph (upd (set_parent p) t v)) n) =
                 targets (nodeOf (graph v) n)) as Hsame.
  { intros n. destruct (Hnode n) as [->|[-> ->]]; done. }
  assert (t ∉ stk) as Hnotin.
  { intros Hin. apply (d_stack _ _ _ HI) in Hin. rewrite Hst in Hin.
    destruct Hin; discriminate. }
  split; [|split; [|split]].
  - constructor.
    + unfold upd. simpl. rewrite getAllNodes_updNode. apply HI.
    + intros n. destruct (Hsame n) as (_ & _ & _ & ->). apply (d_succ _ _ _ HI).
    + apply (d_running _ _ _ HI).
    + apply (d_paused _ _ _ HI).
    + intros n. destruct (Hsame n) as (-> & _). apply (d_stack _ _ _ HI).
    + apply (d_nodup _ _ _ HI).
    + eapply parent_chain_ext; [|apply (d_chain _ _ _ HI)].
      intros a Ha. destruct (Hnode a) as [->|[-> _]]; done.
    + apply (d_tree _ _ _ HI).
    + apply (d_cycles _ _ _ HI).
    + apply (d_count _ _ _ HI).
    + apply (d_time0 _ _ _ HI).
    + intros n. pose proof (d_time _ _ _ HI n) as Hn.
      destruct (Hsame n) as (E1 & E2 & E3 & _).
      unfold stamps_ok in *. by rewrite E1, E2, E3.
    + intros n m x Hx Hn Hm. apply (d_distinct _ _ _ HI n m x Hx).
      * destruct (Hsame n) as (_ & E2 & E3 & _). unfold stamp in *. by rewrite <-E2, <-E3.
      * destruct (Hsame m) as (_ & E2 & E3 & _). unfold stamp in *. by rewrite <-E2, <-E3.
    + intros Hc n. destruct (Hsame n) as (-> & _). by apply (d_nocyc _ _ _ HI).
    + intros Hc a b. destruct (Hsame a) as (-> & _ & -> & _).
      destruct (Hsame b) as (-> & _ & -> & _). by apply (d_edges _ _ _ HI).
  - constructor.
    + intros n Hn. destruct (Hview n) as [|E]; [done|subst n; congruence].
    + simpl. lia.
    + done.
    + intros _. split; [done|]. intros n. by destruct (Hsame n) as (-> & _).
  - by destruct (Hsame t) as (-> & _).
  - intros Hin. unfold upd. simpl.
    rewrite nodeOf_updNode_eq by by rewrite (d_ids _ _ _ HI). done.
Qed.

Lemma elem_of_rev (l : list nat) x : x ∈ rev l ↔ x ∈ l.
Proof. rewrite !list_elem_of_In. symmetry. apply in_rev. Qed.

Lemma highlight_inv g0 stk u t v fuel :
  DInv g0 (u :: stk) v →
  state (nodeOf (graph v) t) = Visiting → has_edge g0 u t →
  (length (u :: stk) ≤ fuel)%nat →
  ∃ v' cn,
    highlightCycle fuel u t v = Some v' ∧ cycles v' = cycles v ++ [cn] ∧
    DInv g0 (u :: stk) (countCycle v') ∧ Frame g0 v (countCycle v') ∧ ¬ acyclic g0.
Proof.
  intros HI Hst Hedge Hfuel.
  assert (t ∈ u :: stk) as Hin by (apply (d_stack _ _ _ HI); by left).
  destruct (list_elem_of_split_l _ _ Hin) as (pre & post & HS & Hpre).
  assert (head (pre ++ [t]) = Some u) as Hhd.
  { destruct pre as [|a pre]; simpl in *; by simplify_eq. }
  set (g1 := markEdge u t (graph v)).
  assert (parent_chain g1 (pre ++ t :: post)) as Hchain.
  { rewrite <-HS. eapply parent_chain_ext; [|apply (d_chain _ _ _ HI)].
    intros a _. unfold g1. by destruct (view_inv _ _ (view_markEdge u t (graph v) a)) as (_ & -> & _). }
  assert (length pre ≤ fuel)%nat as Hlen.
  { apply (f_equal length) in HS. rewrite length_app in HS. simpl in *. lia. }
  pose proof (findCycleNodes_chain g1 t post pre [t] fuel Hchain Hpre Hlen) as Hfind.
  rewrite Hhd in Hfind.
  set (cn := rev pre ++ [t]) in *.
  assert (∀ n, n ∈ cn → n ∈ u :: stk) as Hcn.
  { intros n Hn. unfold cn in Hn. rewrite HS. rewrite elem_of_app in Hn.
    rewrite elem_of_app, elem_of_cons. destruct Hn as [Hn|Hn].
    - left. by apply elem_of_rev.
    - apply list_elem_of_singleton in Hn. right. by left. }
  assert (∀ n, n ∈ cn → n ∈ getAllNodes g1) as Hcn1.
  { intros n Hn. unfold g1. rewrite getAllNodes_markEdge, (d_ids _ _ _ HI).
    eapply stack_in_graph; [done|]. by apply Hcn. }
  destruct (markCycle_nodes cn g1 Hcn1) as [Hids2 Hnode2].
  set (g2 := foldl _ g1 cn) in *.
  destruct (markCycleEdges_spec cn g2) as [Hids3 Hview3].
  set (g3 := markCycleEdges cn g2) in *.
  assert (closed_walk g0 cn) as Hwalk.
  { apply (back_edge_closed_walk g0 pre t post).
    - rewrite <-HS. apply (d_tree _ _ _ HI).
    - intros u' Hu'. rewrite Hhd in Hu'. by injection Hu' as <-. }
  assert (∀ n, view (nodeOf g3 n) =
               if decide (n ∈ cn)
               then (Cycle, parent (nodeOf (graph v) n), discoveryTime (nodeOf (graph v) n),
                     finishTime (nodeOf (graph v) n), targets (nodeOf (graph v) n))
               else view (nodeOf (graph v) n)) as Hview.
  { intros n. rewrite Hview3, Hnode2.
    pose proof (view_markEdge u t (graph v) n) as H1. fold g1 in H1.
    destruct (view_inv _ _ H1) as (E1 & E2 & E3 & E4 & E5).
    case_decide; [|done]. unfold view, targets in *. simpl. by rewrite E2, E3, E4, E5. }
  assert (∀ n, state (nodeOf g3 n) =
               (if decide (n ∈ cn) then Cycle else state (nodeOf (graph v) n)) ∧
               parent (nodeOf g3 n) = parent (nodeOf (graph v) n) ∧
               discoveryTime (nodeOf g3 n) = discoveryTime (nodeOf (graph v) n) ∧
               finishTime (nodeOf g3 n) = finishTime (nodeOf (graph v) n) ∧
               targets (nodeOf g3 n) = targets (nodeOf (graph v) n)) as Hsame.
  { intros n. specialize (Hview n). unfold view in Hview.
    case_decide; by simplify_eq. }
  assert (∀ n, n ∈ u :: stk →
               state (nodeOf (graph v) n) = Visiting ∨ state (nodeOf (graph v) n) = Cycle)
    as Hstack by (intros n; apply (d_stack _ _ _ HI)).
  exists (mkDFS g3 (isRunning v) (isPaused v) (visitedCount v) (cycleCount v) (time v)
            (cycles v ++ [cn])), cn.
  split.
  { unfold highlightCycle, findCycleNodes. fold g1. rewrite Hfind. done. }
  split; [done|].
  split; [|split].
  - constructor; unfold countCycle;
      cbn [graph isRunning isPaused visitedCount cycleCount time cycles].
    + rewrite Hids3, Hids2. unfold g1. rewrite getAllNodes_markEdge. apply HI.
    + intros n. destruct (Hsame n) as (_ & _ & _ & _ & ->). apply (d_succ _ _ _ HI).
    + apply (d_running _ _ _ HI).
    + apply (d_paused _ _ _ HI).
    + intros n. destruct (Hsame n) as (-> & _). case_decide as E.
      * split; [by right|]. intros _. by apply Hcn.
      * apply (d_stack _ _ _ HI).
    + apply (d_nodup _ _ _ HI).
    + eapply parent_chain_ext; [|apply (d_chain _ _ _ HI)].
      intros a _. by destruct (Hsame a) as (_ & -> & _).
    + apply (d_tree _ _ _ HI).
    + apply Forall_app. split; [apply (d_cycles _ _ _ HI)|]. by constructor.
    + rewrite (d_count _ _ _ HI), length_app. simpl. lia.
    + apply (d_time0 _ _ _ HI).
    + intros n. pose proof (d_time _ _ _ HI n) as Hn.
      destruct (Hsame n) as (E1 & _ & E3 & E4 & _).
      unfold stamps_ok in *. rewrite E1, E3, E4.
      case_decide as E; [|done].
      destruct (Hstack n (Hcn n E)) as [Hs|Hs]; by rewrite Hs in Hn.
    + intros n m x Hx Hn Hm. apply (d_distinct _ _ _ HI n m x Hx).
      * destruct (Hsame n) as (_ & _ & E3 & E4 & _). unfold stamp in *. by rewrite <-E3, <-E4.
      * destruct (Hsame m) as (_ & _ & E3 & E4 & _). unfold stamp in *. by rewrite <-E3, <-E4.
    + intros Hc. by destruct (cycles v).
    + intros Hc. by destruct (cycles v).
  - constructor; unfold countCycle;
      cbn [graph isRunning isPaused visitedCount cycleCount time cycles].
    + intros n Hn. rewrite Hview. rewrite decide_False; [done|].
      intros E. destruct (Hstack n (Hcn n E)); congruence.
    + lia.
    + by apply prefix_app_r.
    + intros Hac. exfalso. destruct (closed_walk_path _ _ Hwalk) as [a Ha].
      by apply (Hac a).
  - intros Hac. destruct (closed_walk_path _ _ Hwalk) as [a Ha]. by apply (Hac a).
Qed.

(** ** [dfsVisit] and [runDFS] *)

Lemma stack_bound g0 stk v : DInv g0 stk v → (length stk ≤ length (getAllNodes g0))%nat.
Proof.
  intros HI. apply NoDup_incl_length.
  - apply NoDup_ListNoDup, (d_nodup _ _ _ HI).
  - intros n Hn. apply list_elem_of_In. apply list_elem_of_In in Hn.
    by eapply stack_in_graph.
Qed.

Lemma pauseWait_running g0 stk v : DInv g0 stk v → pauseWait v = Some v.
Proof. intros HI. unfold pauseWait. by rewrite (d_paused _ _ _ HI). Qed.

Lemma dfsVisit_S fuel node v :
  dfsVisit (S fuel) node v =
    match forNeighbors (dfsVisit fuel) fuel node
            (targets (nodeOf (graph (enter node v)) node)) (enter node v) with
    | None => None
    | Some (Returned v') => Some v'
    | Some (Completed v') => Some (finish node v')
    end.
Proof. reflexivity. Qed.

Section Visit.
Variable g0 : Graph.
Hypothesis Hwf : wf_graph g0.

(** The loop of [dfsVisit u], given that the recursive calls it makes
    behave as stated. *)
Lemma forNeighbors_spec fuel stk u
      (IH : ∀ t v,
          DInv g0 (u :: stk) v → t ∈ getAllNodes g0 →
          state (nodeOf (graph v) t) = Unvisited →
          parent (nodeOf (graph v) t) = Some u → has_edge g0 u t →
          ∃ v', dfsVisit fuel t v = Some v' ∧ DInv g0 (u :: stk) v' ∧ Frame g0 v v' ∧
                state (nodeOf (graph v') t) = Visited) :
  (length (u :: stk) ≤ fuel)%nat →
  ∀ ts v,
    DInv g0 (u :: stk) v → (∀ t, t ∈ ts → has_edge g0 u t) →
    ∃ v', forNeighbors (dfsVisit fuel) fuel u ts v = Some (Completed v') ∧
          DInv g0 (u :: stk) v' ∧ Frame g0 v v' ∧
          (cycles v' = [] → ∀ t, t ∈ ts → state (nodeOf (graph v') t) = Visited).
Proof.
  intros Hfuel. induction ts as [|t ts IHts]; intros v HI Hts.
  { exists v. split; [done|]. split; [done|]. split; [apply Frame_refl|].
    intros _ t Ht. by apply elem_of_nil in Ht. }
  assert (has_edge g0 u t) as Hut by (apply Hts; by left).
  assert (∃ v1, match state (nodeOf (graph v) t) with
                | Unvisited => dfsVisit fuel t (upd (set_parent (Some u)) t v)
                | Visiting => v' ← highlightCycle fuel u t v; Some (countCycle v')
                | _ => Some v
                end = Some v1 ∧
                DInv g0 (u :: stk) v1 ∧ Frame g0 v v1 ∧
                (cycles v1 = [] → state (nodeOf (graph v1) t) = Visited))
    as (v1 & Hstep & HI1 & HF1 & Hvis1).
  { destruct (state (nodeOf (graph v) t)) eqn:Hst.
    - destruct (setParent_inv g0 (u :: stk) (Some u) t v HI Hst)
        as (HIp & HFp & Hstp & Hpp).
      assert (t ∈ getAllNodes g0) as Ht by by eapply Hwf.
      destruct (IH t _ HIp Ht Hstp (Hpp Ht) Hut) as (v1 & Hrun & HI1 & HF1 & Hv1).
      exists v1. split; [done|]. split; [done|].
      split; [by eapply Frame_trans|done].
    - destruct (highlight_inv g0 stk u t v fuel HI Hst Hut Hfuel)
        as (v' & cn & Hrun & Hcyc & HI' & HF' & _).
      exists (countCycle v'). rewrite Hrun. split; [done|]. split; [done|].
      split; [done|]. unfold countCycle. simpl. rewrite Hcyc.
      intros Hnil. by destruct (cycles v).
    - exists v. split; [done|]. split; [done|]. split; [apply Frame_refl|done].
    - exists v. split; [done|]. split; [done|]. split; [apply Frame_refl|].
      intros Hnil. exfalso. by apply (d_nocyc _ _ _ HI Hnil t). }
  destruct (IHts v1 HI1) as (v2 & Hrest & HI2 & HF2 & Hvis2).
  { intros t' Ht'. apply Hts. by right. }
  exists v2. split.
  { simpl. rewrite Hstep. simpl. rewrite (pauseWait_running _ _ _ HI1). simpl.
    rewrite (d_running _ _ _ HI1). simpl. exact Hrest. }
  split; [done|]. split; [by eapply Frame_trans|].
  intros Hnil t' Ht'. apply elem_of_cons in Ht' as [->|Ht']; [|by apply Hvis2].
  assert (cycles v1 = []) as Hnil1.
  { pose proof (f_cycles _ _ _ HF2) as Hp. rewrite Hnil in Hp.
    by apply prefix_nil_inv in Hp. }
  pose proof (f_visited _ _ _ HF2 t (Hvis1 Hnil1)) as Hview.
  destruct (view_inv _ _ Hview) as [-> _]. by apply Hvis1.
Qed.

Lemma dfsVisit_spec : ∀ fuel stk u v,
  DInv g0 stk v → u ∈ getAllNodes g0 →
  state (nodeOf (graph v) u) = Unvisited →
  (∀ p, head stk = Some p → parent (nodeOf (graph v) u) = Some p ∧ has_edge g0 p u) →
  (2 * length (getAllNodes g0) + 1 ≤ fuel + length stk)%nat →
  ∃ v', dfsVisit fuel u v = Some v' ∧ DInv g0 stk v' ∧ Frame g0 v v' ∧
        state (nodeOf (graph v') u) = Visited.
Proof.
  induction fuel as [|fuel IH]; intros stk u v HI Hu Hst Hpar Hfuel.
  { pose proof (stack_bound _ _ _ HI). lia. }
  destruct (enter_inv g0 stk u v HI Hu Hst Hpar) as [HI1 HF1].
  pose proof (stack_bound _ _ _ HI1) as Hbound. simpl in Hbound.
  destruct (forNeighbors_spec fuel stk u) with
    (ts := targets (nodeOf (graph (enter u v)) u)) (v := enter u v)
    as (v2 & Hloop & HI2 & HF2 & Hvis2).
  - intros t w HIw Ht Hstw Hpw Hedge.
    apply (IH (u :: stk) t w HIw Ht Hstw).
    + intros p Hp. injection Hp as <-. done.
    + simpl. lia.
  - simpl. lia.
  - done.
  - intros t Ht. unfold has_edge. by rewrite <-(d_succ _ _ _ HI1).
  - destruct (finish_inv g0 stk u v2 HI2) as (HI3 & HF3 & Hst3).
    { intros Hnil b Hb. apply Hvis2; [done|].
      unfold has_edge in Hb. by rewrite (d_succ _ _ _ HI1). }
    exists (finish u v2). split.
    { by rewrite dfsVisit_S, Hloop. }
    split; [done|]. split; [|done].
    eapply Frame_trans; [exact HF1|]. by eapply Frame_trans.
Qed.

Lemma runDFS_loop_spec fuel :
  (2 * length (getAllNodes g0) + 1 ≤ fuel)%nat →
  ∀ ns v,
    DInv g0 [] v → (∀ n, n ∈ ns → n ∈ getAllNodes g0) →
    ∃ v', runDFS_loop fuel ns v = Some v' ∧ DInv g0 [] v' ∧ Frame g0 v v' ∧
          ∀ n, n ∈ ns → state (nodeOf (graph v') n) = Visited.
Proof.
  intros Hfuel. induction ns as [|n ns IH]; intros v HI Hns.
  { exists v. split; [done|]. split; [done|]. split; [apply Frame_refl|].
    intros n Hn. by apply elem_of_nil in Hn. }
  assert (∃ v1, (if decide (state (nodeOf (graph v) n) = Unvisited) then
                   if isPaused v then Some v else dfsVisit fuel n v
                 else Some v) = Some v1 ∧
                DInv g0 [] v1 ∧ Frame g0 v v1 ∧ state (nodeOf (graph v1) n) = Visited)
    as (v1 & Hstep & HI1 & HF1 & Hv1).
  { case_decide as Hst.
    - rewrite (d_paused _ _ _ HI).
      apply dfsVisit_spec; [done|apply Hns; by left|done|done|simpl; lia].
    - exists v. split; [done|]. split; [done|]. split; [apply Frame_refl|].
      destruct (state (nodeOf (graph v) n)) eqn:E; [done| |done|].
      + exfalso. assert (n ∈ @nil nat) as Hin by (apply (d_stack _ _ _ HI); by left).
        by apply elem_of_nil in Hin.
      + exfalso. assert (n ∈ @nil nat) as Hin by (apply (d_stack _ _ _ HI); by right).
        by apply elem_of_nil in Hin. }
  destruct (IH v1 HI1) as (v2 & Hrest & HI2 & HF2 & Hv2).
  { intros m Hm. apply Hns. by right. }
  exists v2. split.
  { simpl. rewrite Hstep. simpl. rewrite (pauseWait_running _ _ _ HI1). exact Hrest. }
  split; [done|]. split; [by eapply Frame_trans|].
  intros m Hm. apply elem_of_cons in Hm as [->|Hm]; [|by apply Hv2].
  pose proof (f_visited _ _ _ HF2 n Hv1) as Hview.
  destruct (view_inv _ _ Hview) as [-> _]. done.
Qed.

End Visit.

(** ** The state a run starts from *)

Lemma map_get_elem_of {V} k (m : JsMap V) x : map_get k m = Some x → (k, x) ∈ m.
Proof.
  induction m as [|[k' y] m IH]; simpl; [done|].
  case_decide as E; [intros [= ->]; subst; by left|]. intros H. right. by apply IH.
Qed.

(** A property of all edges can be checked entry by entry. *)
Lemma edges_check (P : nat → nat → Prop) g :
  Forall (λ kn, Forall (P kn.1) (targets kn.2)) (nodes g) →
  ∀ a b, has_edge g a b → P a b.
Proof.
  intros Hall a b Hab. unfold has_edge, nodeOf in Hab.
  destruct (map_get a (nodes g)) as [n|] eqn:E; [|by apply elem_of_nil in Hab].
  apply map_get_elem_of in E. rewrite Forall_forall in Hall.
  specialize (Hall _ E). simpl in *. rewrite Forall_forall in Hall. by apply Hall.
Qed.

Lemma increasing_acyclic g : (∀ a b, has_edge g a b → (a < b)%nat) → acyclic g.
Proof.
  intros Hinc.
  assert (∀ a b, path g a b → (a < b)%nat) as Hpath.
  { induction 1 as [a b Hab|a b c Hab _ IH]; [by apply Hinc|].
    apply Hinc in Hab. lia. }
  intros a Ha. apply Hpath in Ha. lia.
Qed.

Lemma map_get_fmap {V W} (f : V → W) k (m : JsMap V) :
  map_get k (prod_map id f <$> m) = f <$> map_get k m.
Proof.
  induction m as [|[k' y] m IH]; [done|]. csimpl. by case_decide.
Qed.

Lemma targets_reset n : targets (GraphNode_reset n) = targets n.
Proof.
  unfold targets, GraphNode_reset, map_values. simpl.
  induction (neighbors n) as [|[k e] l IH]; [done|]. csimpl. by f_equal.
Qed.

Lemma getAllNodes_reset g : getAllNodes (Graph_reset g) = getAllNodes g.
Proof.
  unfold getAllNodes, Graph_reset, map_keys. simpl.
  induction (nodes g) as [|[k n] l IH]; [done|]. csimpl. by f_equal.
Qed.

Lemma nodeOf_reset g n :
  nodeOf (Graph_reset g) n = newNode ∨
  nodeOf (Graph_reset g) n = GraphNode_reset (nodeOf g n).
Proof.
  unfold nodeOf, Graph_reset. simpl. rewrite map_get_fmap.
  destruct (map_get n (nodes g)); [by right|by left].
Qed.

Lemma targets_nodeOf_reset g n :
  targets (nodeOf (Graph_reset g) n) = targets (nodeOf g n).
Proof.
  unfold nodeOf, Graph_reset. simpl. rewrite map_get_fmap.
  destruct (map_get n (nodes g)); [apply targets_reset|done].
Qed.

Lemma fresh_nodeOf_reset g n : freshNode (nodeOf (Graph_reset g) n).
Proof. destruct (nodeOf_reset g n) as [->| ->]; done. Qed.

Lemma started_inv g : DInv g [] (started g).
Proof.
  pose proof (fresh_nodeOf_reset g) as Hfr.
  constructor; simpl.
  - apply getAllNodes_reset.
  - apply targets_nodeOf_reset.
  - done.
  - done.
  - intros n. destruct (Hfr n) as (-> & _). split; [intros H; by apply elem_of_nil in H|].
    intros [?|?]; discriminate.
  - apply NoDup_nil_2.
  - done.
  - done.
  - constructor.
  - done.
  - done.
  - intros n. destruct (Hfr n) as (Hs & _ & Hd & Hf). unfold stamps_ok. by rewrite Hs.
  - intros n m x Hx [Hn|Hn] _; destruct (Hfr n) as (_ & _ & Hd & Hf); lia.
  - intros _ n. by destruct (Hfr n) as (-> & _).
  - intros _ a b Ha. destruct (Hfr a) as (Hs & _). congruence.
Qed.

(** What [runDFS] establishes on any graph. *)
Lemma runDFS_spec g fuel :
  wf_graph g → (2 * length (getAllNodes g) + 1 ≤ fuel)%nat →
  ∃ v', runDFS fuel (started g) = Some v' ∧ DInv g [] v' ∧ Frame g (started g) v' ∧
        ∀ n, n ∈ getAllNodes g → state (nodeOf (graph v') n) = Visited.
Proof.
  intros Hwf Hfuel. unfold runDFS.
  replace (getAllNodes (graph (started g))) with (getAllNodes g)
    by (symmetry; apply getAllNodes_reset).
  apply runDFS_loop_spec; [done|done|apply started_inv|done].
Qed.

Lemma no_cycle_reported_acyclic g v :
  DInv g [] v → (∀ n, n ∈ getAllNodes g → state (nodeOf (graph v) n) = Visited) →
  cycles v = [] → acyclic g.
Proof.
  intros HI Hall Hnil.
  assert (∀ a b, path g a b →
                 finishTime (nodeOf (graph v) b) < finishTime (nodeOf (graph v) a)) as Hpath.
  { induction 1 as [a b Hab|a b c Hab _ IH].
    - apply (d_edges _ _ _ HI Hnil a b); [|done].
      apply Hall. by eapply has_edge_in_graph.
    - assert (finishTime (nodeOf (graph v) b) < finishTime (nodeOf (graph v) a)).
      { apply (d_edges _ _ _ HI Hnil a b); [|done].
        apply Hall. by eapply has_edge_in_graph. }
      lia. }
  intros a Ha. apply Hpath in Ha. lia.
Qed.

(** ** Properties of the specification *)

(** C2.  On a graph without cycles a complete run leaves every node in
    state [Visited], records no cycle ([cycles] empty, [cycleCount] 0), and
    stamps every node with a discovery time smaller than its finish time,
    all timestamps being distinct values, between 1 and the final value,
    of the counter [time]. *)
Theorem runDFS_acyclic (g : Graph) (fuel : nat) :
  wf_graph g → acyclic g → (2 * length (getAllNodes g) + 1 ≤ fuel)%nat →
  ∃ v',
    runDFS fuel (started g) = Some v' ∧
    (∀ n, n ∈ getAllNodes g → state (nodeOf (graph v') n) = Visited) ∧
    cycles v' = [] ∧ cycleCount v' = 0 ∧
    (∀ n, n ∈ getAllNodes g →
       0 < discoveryTime (nodeOf (graph v') n) ∧
       discoveryTime (nodeOf (graph v') n) < finishTime (nodeOf (graph v') n) ∧
       finishTime (nodeOf (graph v') n) ≤ time v') ∧
    (∀ n m x, 0 < x → stamp (nodeOf (graph v') n) x → stamp (nodeOf (graph v') m) x →
              n = m).
Proof.
  intros Hwf Hac Hfuel.
  destruct (runDFS_spec g fuel Hwf Hfuel) as (v' & Hrun & HI & HF & Hall).
  destruct (f_acyclic _ _ _ HF Hac) as [Hcyc _]. simpl in Hcyc.
  exists v'. split; [done|]. split; [done|]. split; [done|].
  split; [by rewrite (d_count _ _ _ HI), Hcyc|].
  split; [|apply (d_distinct _ _ _ HI)].
  intros n Hn. pose proof (d_time _ _ _ HI n) as Ht.
  unfold stamps_ok in Ht. by rewrite (Hall n Hn) in Ht.
Qed.

(** C3.  [cycleCount] counts the back edges the traversal met (it is
    incremented in that branch only) and one cycle is recorded for each of
    them; so a run that met a back edge recorded a cycle.  A graph that has
    a cycle makes the run meet one.  Every recorded cycle is a closed walk
    of the graph. *)
Theorem runDFS_records_closed_walks (g : Graph) (fuel : nat) :
  wf_graph g → (2 * length (getAllNodes g) + 1 ≤ fuel)%nat →
  ∃ v',
    runDFS fuel (started g) = Some v' ∧
    cycleCount v' = Z.of_nat (length (cycles v')) ∧
    (0 < cycleCount v' → cycles v' ≠ []) ∧
    (¬ acyclic g → cycles v' ≠ []) ∧
    Forall (closed_walk g) (cycles v').
Proof.
  intros Hwf Hfuel.
  destruct (runDFS_spec g fuel Hwf Hfuel) as (v' & Hrun & HI & HF & Hall).
  exists v'. split; [done|]. split; [apply (d_count _ _ _ HI)|].
  split; [|split; [|apply (d_cycles _ _ _ HI)]].
  - rewrite (d_count _ _ _ HI). intros Hpos Hnil. rewrite Hnil in Hpos. simpl in Hpos. lia.
  - intros Hcyc Hnil. apply Hcyc. by eapply no_cycle_reported_acyclic.
Qed.

(** C10.  After a complete run no node is left in state [Cycle]: every
    node of the graph is [Visited], whatever cycles were recorded. *)
Theorem runDFS_leaves_no_cycle_state (g : Graph) (fuel : nat) :
  wf_graph g → (2 * length (getAllNodes g) + 1 ≤ fuel)%nat →
  ∃ v',
    runDFS fuel (started g) = Some v' ∧
    (∀ n, state (nodeOf (graph v') n) ≠ Cycle) ∧
    (∀ n, n ∈ getAllNodes g → state (nodeOf (graph v') n) = Visited).
Proof.
  intros Hwf Hfuel.
  destruct (runDFS_spec g fuel Hwf Hfuel) as (v' & Hrun & HI & HF & Hall).
  exists v'. split; [done|]. split; [|done].
  intros n Hn. assert (n ∈ @nil nat) as Hin by (apply (d_stack _ _ _ HI); by right).
  by apply elem_of_nil in Hin.
Qed.

Lemma dag4_wf : wf_graph dag4.
Proof.
  unfold wf_graph.
  apply (edges_check (λ _ b, b ∈ getAllNodes dag4)). vm_compute. repeat constructor.
Qed.

Lemma dag4_acyclic : acyclic dag4.
Proof.
  apply increasing_acyclic, (edges_check (λ a b, (a < b)%nat)).
  vm_compute. repeat constructor.
Qed.

Lemma ring3_wf : wf_graph ring3.
Proof.
  unfold wf_graph.
  apply (edges_check (λ _ b, b ∈ getAllNodes ring3)). vm_compute. repeat constructor.
Qed.

Lemma ring3_cyclic : ¬ acyclic ring3.
Proof.
  intros H. apply (H 0%nat).
  apply (path_step _ _ 1%nat); [vm_compute; repeat constructor|].
  apply (path_step _ _ 2%nat); [vm_compute; repeat constructor|].
  apply path_edge. vm_compute. repeat constructor.
Qed.

Lemma runDFS_acyclic_witness :
  ∃ v',
    runDFS 9 (started dag4) = Some v' ∧
    (∀ n, n ∈ getAllNodes dag4 → state (nodeOf (graph v') n) = Visited) ∧
    cycles v' = [] ∧ cycleCount v' = 0 ∧
    (∀ n, n ∈ getAllNodes dag4 →
       0 < discoveryTime (nodeOf (graph v') n) ∧
       discoveryTime (nodeOf (graph v') n) < finishTime (nodeOf (graph v') n) ∧
       finishTime (nodeOf (graph v') n) ≤ time v') ∧
    (∀ n m x, 0 < x → stamp (nodeOf (graph v') n) x → stamp (nodeOf (graph v') m) x →
              n = m).
Proof.
  apply (runDFS_acyclic dag4 9).
  - exact dag4_wf.
  - exact dag4_acyclic.
  - vm_compute. lia.
Defined.

Lemma runDFS_records_closed_walks_witness :
  ∃ v',
    runDFS 7 (started ring3) = Some v' ∧
    cycleCount v' = Z.of_nat (length (cycles v')) ∧
    (0 < cycleCount v' → cycles v' ≠ []) ∧
    (¬ acyclic ring3 → cycles v' ≠ []) ∧
    Forall (closed_walk ring3) (cycles v').
Proof.
  apply (runDFS_records_closed_walks ring3 7).
  - exact ring3_wf.
  - vm_compute. lia.
Defined.

Lemma runDFS_leaves_no_cycle_state_witness :
  ∃ v',
    runDFS 7 (started ring3) = Some v' ∧
    (∀ n, state (nodeOf (graph v') n) ≠ Cycle) ∧
    (∀ n, n ∈ getAllNodes ring3 → state (nodeOf (graph v') n) = Visited).
Proof.
  apply (runDFS_leaves_no_cycle_state ring3 7).
  - exact ring3_wf.
  - vm_compute. lia.
Defined.

(** C9.  A self-loop is not always recorded: in [loopAfterBack] the back
    edge from node 1 marks node 0 [Cycle] before the self-loop of node 0 is
    examined, so that edge is skipped; the run records the cycle [1; 0]
    only, and the self-loop keeps state [Normal]. *)
Theorem self_loop_after_back_edge_missed :
  has_edge loopAfterBack 0 0 ∧
  ∃ v',
    runDFS 5 (started loopAfterBack) = Some v' ∧
    cycles v' = [[1; 0]]%nat ∧ cycleCount v' = 1 ∧
    [0%nat] ∉ cycles v' ∧
    (0%nat, 0%nat, 1, Normal) ∈ getAllEdges (graph v').
Proof.
  split; [vm_compute; repeat constructor|].
  destruct (runDFS 5 (started loopAfterBack)) as [v'|] eqn:E; [|by vm_compute in E].
  exists v'. vm_compute in E. injection E as <-.
  split; [done|]. split; [done|]. split; [done|]. split.
  - intros H. apply list_elem_of_singleton in H. discriminate.
  - vm_compute. repeat constructor.
Qed.

(** ** Further properties of the DFS engine *)

(** A complete run reports no cycle exactly when the graph has none. *)
Theorem runDFS_reports_cycle_iff_cyclic (g : Graph) (fuel : nat) :
  wf_graph g → (2 * length (getAllNodes g) + 1 ≤ fuel)%nat →
  ∃ v', runDFS fuel (started g) = Some v' ∧ (cycles v' = [] ↔ acyclic g).
Proof.
  intros Hwf Hfuel.
  destruct (runDFS_spec g fuel Hwf Hfuel) as (v' & Hrun & HI & HF & Hall).
  exists v'. split; [done|]. split.
  - intros Hnil. by eapply no_cycle_reported_acyclic.
  - intros Hac. by destruct (f_acyclic _ _ _ HF Hac) as [-> _].
Qed.

Lemma runDFS_reports_cycle_iff_cyclic_witness :
  ∃ v', runDFS 7 (started ring3) = Some v' ∧ (cycles v' = [] ↔ acyclic ring3).
Proof.
  apply (runDFS_reports_cycle_iff_cyclic ring3 7); [exact ring3_wf|vm_compute; lia].
Defined.

(** On any graph, with or without cycles, a complete run stamps every node
    with a discovery time smaller than its finish time, and no timestamp is
    used twice. *)
Theorem runDFS_timestamps (g : Graph) (fuel : nat) :
  wf_graph g → (2 * length (getAllNodes g) + 1 ≤ fuel)%nat →
  ∃ v',
    runDFS fuel (started g) = Some v' ∧
    (∀ n, n ∈ getAllNodes g →
       0 < discoveryTime (nodeOf (graph v') n) ∧
       discoveryTime (nodeOf (graph v') n) < finishTime (nodeOf (graph v') n) ∧
       finishTime (nodeOf (graph v') n) ≤ time v') ∧
    (∀ n m, n ∈ getAllNodes g → m ∈ getAllNodes g → n ≠ m →
       discoveryTime (nodeOf (graph v') n) ≠ discoveryTime (nodeOf (graph v') m) ∧
       discoveryTime (nodeOf (graph v') n) ≠ finishTime (nodeOf (graph v') m) ∧
       finishTime (nodeOf (graph v') n) ≠ finishTime (nodeOf (graph v') m)).
Proof.
  intros Hwf Hfuel.
  destruct (runDFS_spec g fuel Hwf Hfuel) as (v' & Hrun & HI & HF & Hall).
  assert (∀ n, n ∈ getAllNodes g →
               0 < discoveryTime (nodeOf (graph v') n) ∧
               discoveryTime (nodeOf (graph v') n) < finishTime (nodeOf (graph v') n) ∧
               finishTime (nodeOf (graph v') n) ≤ time v') as Hst.
  { intros n Hn. pose proof (d_time _ _ _ HI n) as Ht.
    unfold stamps_ok in Ht. by rewrite (Hall n Hn) in Ht. }
  exists v'. split; [done|]. split; [done|].
  intros n m Hn Hm Hne.
  pose proof (Hst n Hn) as Hn'. pose proof (Hst m Hm) as Hm'.
  split_and!; intros E; apply Hne.
  - apply (d_distinct _ _ _ HI n m (discoveryTime (nodeOf (graph v') n))); [lia|by left|].
    left. by rewrite E.
  - apply (d_distinct _ _ _ HI n m (discoveryTime (nodeOf (graph v') n))); [lia|by left|].
    right. by rewrite E.
  - apply (d_distinct _ _ _ HI n m (finishTime (nodeOf (graph v') n))); [lia|by right|].
    right. by rewrite E.
Qed.

Lemma runDFS_timestamps_witness :
  ∃ v',
    runDFS 7 (started ring3) = Some v' ∧
    (∀ n, n ∈ getAllNodes ring3 →
       0 < discoveryTime (nodeOf (graph v') n) ∧
       discoveryTime (nodeOf (graph v') n) < finishTime (nodeOf (graph v') n) ∧
       finishTime (nodeOf (graph v') n) ≤ time v') ∧
    (∀ n m, n ∈ getAllNodes ring3 → m ∈ getAllNodes ring3 → n ≠ m →
       discoveryTime (nodeOf (graph v') n) ≠ discoveryTime (nodeOf (graph v') m) ∧
       discoveryTime (nodeOf (graph v') n) ≠ finishTime (nodeOf (graph v') m) ∧
       finishTime (nodeOf (graph v') n) ≠ finishTime (nodeOf (graph v') m)).
Proof.
  apply (runDFS_timestamps ring3 7); [exact ring3_wf|vm_compute; lia].
Defined.

(** On a graph without cycles the finish times order the nodes against the
    edges: the target of an edge finishes before its source. *)
Theorem runDFS_finish_order (g : Graph) (fuel : nat) :
  wf_graph g → acyclic g → (2 * length (getAllNodes g) + 1 ≤ fuel)%nat →
  ∃ v',
    runDFS fuel (started g) = Some v' ∧
    ∀ a b, has_edge g a b →
           finishTime (nodeOf (graph v') b) < finishTime (nodeOf (graph v') a).
Proof.
  intros Hwf Hac Hfuel.
  destruct (runDFS_spec g fuel Hwf Hfuel) as (v' & Hrun & HI & HF & Hall).
  destruct (f_acyclic _ _ _ HF Hac) as [Hcyc _]. simpl in Hcyc.
  exists v'. split; [done|]. intros a b Hab.
  apply (d_edges _ _ _ HI Hcyc a b); [|done].
  apply Hall. by eapply has_edge_in_graph.
Qed.

Lemma runDFS_finish_order_witness :
  ∃ v',
    runDFS 9 (started dag4) = Some v' ∧
    ∀ a b, has_edge dag4 a b →
           finishTime (nodeOf (graph v') b) < finishTime (nodeOf (graph v') a).
Proof.
  apply (runDFS_finish_order dag4 9); [exact dag4_wf|exact dag4_acyclic|vm_compute; lia].
Defined.

(** ** The operations of the graph *)

Lemma map_get_set {V} j (x : V) k m :
  map_get k (map_set j x m) = if decide (j = k) then Some x else map_get k m.
Proof.
  induction m as [|[k' y] m IH]; simpl.
  - repeat case_decide; congruence.
  - destruct (decide (j = k')) as [->|Hj]; simpl.
    + repeat case_decide; congruence.
    + rewrite IH. repeat case_decide; congruence.
Qed.

Lemma map_keys_set {V} k (x : V) m :
  map_keys (map_set k x m) =
    if decide (k ∈ map_keys m) then map_keys m else map_keys m ++ [k].
Proof.
  unfold map_keys. induction m as [|[k' y] m IH]; [done|].
  cbn [map_set]. destruct (decide (k = k')) as [->|Hne]; csimpl.
  - destruct (decide (k' ∈ k' :: m.*1)) as [H|H]; [done|]. exfalso. apply H. by left.
  - rewrite IH. clear IH.
    destruct (decide (k ∈ m.*1)) as [H1|H1]; destruct (decide (k ∈ k' :: m.*1)) as [H2|H2];
      try done.
    + exfalso. apply H2. by right.
    + exfalso. apply elem_of_cons in H2. tauto.
Qed.


Lemma map_get_delete {V} j k (m : JsMap V) :
  map_get k (map_delete j m) = if decide (j = k) then None else map_get k m.
Proof.
  induction m as [|[k' y] m IH]; simpl; [by case_decide|].
  destruct (decide (j = k')) as [->|Hj]; simpl.
  - rewrite IH. repeat case_decide; congruence.
  - rewrite IH. repeat case_decide; congruence.
Qed.

Lemma map_keys_delete {V} j (m : JsMap V) :
  map_keys (map_delete j m) = filter (λ k, k ≠ j) (map_keys m).
Proof.
  unfold map_keys. induction m as [|[k' y] m IH]; simpl; [done|].
  destruct (decide (j = k')) as [->|Hj]; csimpl.
  - rewrite filter_cons_False by (intros H; by apply H). done.
  - rewrite filter_cons_True by congruence. by f_equal.
Qed.

Lemma map_keys_fmap {V W} (f : V → W) (m : JsMap V) :
  map_keys (prod_map id f <$> m) = map_keys m.
Proof.
  unfold map_keys. induction m as [|[k y] m IH]; [done|]. csimpl. by f_equal.
Qed.

Lemma Forall_map_set {V} (P : nat * V → Prop) k x m :
  P (k, x) → Forall P m → Forall P (map_set k x m).
Proof.
  intros Hx. induction 1 as [|[k' y] m Hy Hm IH]; simpl; [by repeat constructor|].
  case_decide; constructor; done.
Qed.

Lemma Forall_map_delete {V} (P : nat * V → Prop) j m :
  Forall P m → Forall P (map_delete j m).
Proof.
  induction 1 as [|[k' y] m Hy Hm IH]; simpl; [constructor|].
  case_decide; [done|by constructor].
Qed.

Lemma Forall_map_alter {V} (P : nat * V → Prop) f j m :
  (∀ y, P (j, y) → P (j, f y)) → Forall P m → Forall P (map_alter f j m).
Proof.
  intros Hf. induction 1 as [|[k' y] m Hy Hm IH]; simpl; [constructor|].
  case_decide; constructor; try done. subst. by apply Hf.
Qed.

Lemma map_get_NoDup {V} k (x : V) m :
  NoDup (map_keys m) → (k, x) ∈ m → map_get k m = Some x.
Proof.
  unfold map_keys. induction m as [|[k' y] m IH]; csimpl; intros Hnd Hin.
  - by apply elem_of_nil in Hin.
  - apply NoDup_cons in Hnd as [Hk' Hnd]. apply elem_of_cons in Hin as [Heq|Hin].
    + simplify_eq. by rewrite decide_True.
    + rewrite decide_False; [by apply IH|]. intros ->. apply Hk'.
      apply list_elem_of_fmap. by exists (k', x).
Qed.

Lemma targets_keys n : edges_ok n → targets n = map_keys (neighbors n).
Proof.
  intros [_ Hall]. unfold targets, map_values, map_keys.
  induction Hall as [|[k e] m He Hm IH]; [done|]. csimpl in *. by f_equal.
Qed.

Lemma edges_ok_newNode : edges_ok newNode.
Proof. split; [apply NoDup_nil_2|constructor]. Qed.

Lemma addNeighbor_ok b w n : edges_ok n → edges_ok (addNeighbor b w n).
Proof.
  intros [Hnd Hall]. split; simpl.
  - rewrite map_keys_set. case_decide as Hin; [done|].
    apply NoDup_app. split; [done|]. split; [|apply NoDup_singleton].
    intros x Hx Hb. apply list_elem_of_singleton in Hb. by subst.
  - by apply Forall_map_set.
Qed.

Lemma removeNeighbor_ok b n : edges_ok n → edges_ok (removeNeighbor b n).
Proof.
  intros [Hnd Hall]. split; simpl.
  - rewrite map_keys_delete. by apply NoDup_filter.
  - by apply Forall_map_delete.
Qed.


Lemma targets_addNeighbor b w n y :
  edges_ok n → y ∈ targets (addNeighbor b w n) ↔ y = b ∨ y ∈ targets n.
Proof.
  intros Hok. rewrite (targets_keys _ (addNeighbor_ok b w n Hok)), (targets_keys n Hok).
  simpl. rewrite map_keys_set. case_decide as Hin.
  - split; [by right|]. intros [->|?]; done.
  - rewrite elem_of_app, list_elem_of_singleton. tauto.
Qed.

Lemma targets_removeNeighbor b n y :
  edges_ok n → y ∈ targets (removeNeighbor b n) ↔ y ∈ targets n ∧ y ≠ b.
Proof.
  intros Hok. rewrite (targets_keys _ (removeNeighbor_ok b n Hok)), (targets_keys n Hok).
  simpl. rewrite map_keys_delete, list_elem_of_filter. tauto.
Qed.

Lemma nodeOf_ok g k : graph_ok g → edges_ok (nodeOf g k).
Proof.
  intros (_ & _ & Hall & _). unfold nodeOf.
  destruct (map_get k (nodes g)) as [n|] eqn:E; [|apply edges_ok_newNode].
  apply map_get_elem_of in E. rewrite Forall_forall in Hall. by apply (Hall _ E).
Qed.

Lemma nodeOf_addNode g k :
  nodeOf (addNode g).1 k = if decide (k = nodeCount g) then newNode else nodeOf g k.
Proof.
  unfold nodeOf, addNode. simpl. rewrite map_get_set. by repeat case_decide; subst.
Qed.

Lemma nodeOf_addEdge a b w g k :
  nodeOf (addEdge a b w g) k =
    if decide (k = a ∧ a ∈ getAllNodes g ∧ b ∈ getAllNodes g)
    then addNeighbor b w (nodeOf g k) else nodeOf g k.
Proof.
  unfold addEdge.
  destruct (map_get a (nodes g)) as [na|] eqn:Ea.
  - destruct (map_get b (nodes g)) as [nb|] eqn:Eb.
    + assert (a ∈ getAllNodes g) as Ha by (apply map_get_Some_keys; by eexists).
      assert (b ∈ getAllNodes g) as Hb by (apply map_get_Some_keys; by eexists).
      destruct (decide (k = a)) as [->|Hne].
      * rewrite decide_True by done. by apply (nodeOf_updNode_eq _ a g).
      * rewrite decide_False by tauto. by apply (nodeOf_updNode_ne _ a k g).
    + rewrite decide_False; [done|]. intros (_ & _ & Hb).
      apply map_get_Some_keys in Hb as [? ?]. congruence.
  - rewrite decide_False; [done|]. intros (_ & Ha & _).
    apply map_get_Some_keys in Ha as [? ?]. congruence.
Qed.

Lemma getAllNodes_addEdge a b w g : getAllNodes (addEdge a b w g) = getAllNodes g.
Proof.
  unfold addEdge. destruct (map_get a (nodes g)); [|done].
  destruct (map_get b (nodes g)); [|done]. apply (getAllNodes_updNode _ a g).
Qed.

Lemma nodeOf_removeEdge a b g k :
  nodeOf (removeEdge a b g) k =
    if decide (k = a) then removeNeighbor b (nodeOf g k) else nodeOf g k.
Proof.
  unfold removeEdge. destruct (map_get a (nodes g)) as [na|] eqn:Ea.
  - assert (a ∈ getAllNodes g) as Ha by (apply map_get_Some_keys; by eexists).
    destruct (decide (k = a)) as [->|Hne].
    + by apply (nodeOf_updNode_eq _ a g).
    + by apply (nodeOf_updNode_ne _ a k g).
  - case_decide as E; [|done]. subst k. unfold nodeOf. by rewrite Ea.
Qed.

Lemma getAllNodes_removeEdge a b g : getAllNodes (removeEdge a b g) = getAllNodes g.
Proof.
  unfold removeEdge. destruct (map_get a (nodes g)); [|done].
  apply (getAllNodes_updNode _ a g).
Qed.

Lemma nodeOf_removeNode a g k :
  a ∈ getAllNodes g →
  nodeOf (removeNode a g) k =
    if decide (k = a) then newNode else removeNeighbor a (nodeOf g k).
Proof.
  intros Ha. apply map_get_Some_keys in Ha as [na Ea].
  unfold removeNode, nodeOf. rewrite Ea. simpl.
  rewrite map_get_delete, map_get_fmap.
  destruct (decide (a = k)) as [->|Hne].
  - by rewrite decide_True.
  - rewrite decide_False by congruence. by destruct (map_get k (nodes g)).
Qed.

Lemma filter_all {A} (P : A → Prop) `{∀ x, Decision (P x)} (l : list A) :
  Forall P l → filter P l = l.
Proof.
  induction 1 as [|x l Hx Hl IH]; [done|]. rewrite filter_cons_True by done. by f_equal.
Qed.

Lemma getAllNodes_removeNode a g :
  getAllNodes (removeNode a g) = filter (λ k, k ≠ a) (getAllNodes g).
Proof.
  unfold removeNode. destruct (map_get a (nodes g)) as [na|] eqn:Ea.
  - unfold getAllNodes. simpl. by rewrite map_keys_delete, map_keys_fmap.
  - symmetry. apply filter_all. rewrite Forall_forall. intros k Hk ->.
    apply map_get_Some_keys in Hk as [? ?]. congruence.
Qed.

Lemma graph_ok_newGraph : graph_ok newGraph.
Proof.
  unfold graph_ok, wf_graph, has_edge. simpl. split_and!; try constructor.
  intros a b Hab. by apply elem_of_nil in Hab.
Qed.

Lemma graph_ok_fresh_id g : graph_ok g → nodeCount g ∉ getAllNodes g.
Proof.
  intros (_ & Hlt & _) Hin. rewrite Forall_forall in Hlt. apply Hlt in Hin. lia.
Qed.

Lemma getAllNodes_addNode g :
  graph_ok g → getAllNodes (addNode g).1 = getAllNodes g ++ [nodeCount g].
Proof.
  intros Hok. unfold getAllNodes, addNode. simpl. rewrite map_keys_set.
  rewrite decide_False; [done|]. by apply graph_ok_fresh_id.
Qed.

Lemma has_edge_in_nodes g a b : has_edge g a b → a ∈ getAllNodes g.
Proof.
  intros Hab. destruct (decide (a ∈ getAllNodes g)) as [|Hn]; [done|].
  unfold has_edge in Hab. rewrite nodeOf_absent in Hab by done.
  by apply elem_of_nil in Hab.
Qed.

Lemma graph_ok_addNode g : graph_ok g → graph_ok (addNode g).1.
Proof.
  intros Hok. pose proof Hok as (Hnd & Hlt & Hall & Hwf).
  unfold graph_ok. rewrite getAllNodes_addNode by done. split_and!.
  - apply NoDup_app. split; [done|]. split; [|apply NoDup_singleton].
    intros x Hx Hb. apply list_elem_of_singleton in Hb. subst.
    by apply (graph_ok_fresh_id g).
  - simpl. apply Forall_app. split; [|by repeat constructor].
    eapply Forall_impl; [done|]. simpl. lia.
  - simpl. apply Forall_map_set; [apply edges_ok_newNode|done].
  - intros a b. unfold has_edge. rewrite nodeOf_addNode, getAllNodes_addNode by done.
    case_decide; [intros Hnil; by apply elem_of_nil in Hnil|].
    intros Hab. apply elem_of_app. left. by apply (Hwf a b).
Qed.

Lemma graph_ok_addEdge a b w g : graph_ok g → graph_ok (addEdge a b w g).
Proof.
  intros Hok. pose proof Hok as (Hnd & Hlt & Hall & Hwf).
  unfold graph_ok. rewrite getAllNodes_addEdge. split_and!; [done| | |].
  - unfold addEdge. destruct (map_get a (nodes g)); [|done].
    by destruct (map_get b (nodes g)).
  - unfold addEdge. destruct (map_get a (nodes g)); [|done].
    destruct (map_get b (nodes g)); [|done]. simpl.
    apply Forall_map_alter; [|done]. intros y. apply addNeighbor_ok.
  - intros x y. unfold has_edge. rewrite nodeOf_addEdge, getAllNodes_addEdge.
    case_decide as E; [|apply Hwf].
    rewrite targets_addNeighbor by (by apply nodeOf_ok).
    intros [->|Hxy]; [tauto|by apply (Hwf x y)].
Qed.






Lemma has_edge_addEdge a b w g x y :
  graph_ok g →
  has_edge (addEdge a b w g) x y ↔
  has_edge g x y ∨ (x = a ∧ y = b ∧ a ∈ getAllNodes g ∧ b ∈ getAllNodes g).
Proof.
  intros Hok. unfold has_edge. rewrite nodeOf_addEdge.
  destruct (decide (x = a ∧ a ∈ getAllNodes g ∧ b ∈ getAllNodes g)) as [E|E].
  - rewrite targets_addNeighbor by (by apply nodeOf_ok). tauto.
  - tauto.
Qed.

(** [addEdge] adds the edge when both ends are nodes of the graph and
    changes nothing otherwise; the set of nodes stays; adding an edge that
    exists replaces its weight and state and does not duplicate it. *)
Theorem addEdge_spec (g : Graph) (a b : nat) (w : Z) :
  graph_ok g →
  getAllNodes (addEdge a b w g) = getAllNodes g ∧
  (∀ x y, has_edge (addEdge a b w g) x y ↔
          has_edge g x y ∨ (x = a ∧ y = b ∧ a ∈ getAllNodes g ∧ b ∈ getAllNodes g)) ∧
  (a ∉ getAllNodes g ∨ b ∉ getAllNodes g → addEdge a b w g = g) ∧
  (a ∈ getAllNodes g → b ∈ getAllNodes g →
   map_get b (neighbors (nodeOf (addEdge a b w g) a)) = Some (mkEdge b w Normal)) ∧
  (∀ x, NoDup (targets (nodeOf (addEdge a b w g) x))).
Proof.
  intros Hok. split_and!.
  - apply getAllNodes_addEdge.
  - intros x y. by apply has_edge_addEdge.
  - unfold addEdge. intros Hab.
    destruct (map_get a (nodes g)) as [na|] eqn:Ea; [|done].
    destruct (map_get b (nodes g)) as [nb|] eqn:Eb; [|done].
    exfalso. destruct Hab as [H|H]; apply H, map_get_Some_keys; by eexists.
  - intros Ha Hb. rewrite nodeOf_addEdge, decide_True by done. simpl.
    rewrite map_get_set. by rewrite decide_True.
  - intros x. pose proof (nodeOf_ok _ x (graph_ok_addEdge a b w g Hok)) as Hx.
    rewrite (targets_keys _ Hx). apply Hx.
Qed.

Lemma addEdge_spec_witness :
  has_edge (addEdge 0 1 5 ring3) 0 1 ∧ addEdge 0 7 5 ring3 = ring3.
Proof.
  assert (graph_ok ring3) as Hok.
  { unfold graph_ok. split_and!; [vm_compute; repeat constructor; set_solver
      |vm_compute; repeat constructor; lia| |].
    - vm_compute. repeat constructor; set_solver.
    - unfold wf_graph.
      apply (edges_check (λ _ b, b ∈ getAllNodes ring3)). vm_compute. repeat constructor. }
  destruct (addEdge_spec ring3 0 1 5 Hok) as (_ & H1 & _).
  destruct (addEdge_spec ring3 0 7 5 Hok) as (_ & _ & H2 & _).
  split.
  - apply H1. right. vm_compute. split_and!; try done; repeat constructor.
  - apply H2. right. vm_compute. intros H.
    repeat (apply elem_of_cons in H as [H|H]; [discriminate|]). by apply elem_of_nil in H.
Defined.

Lemma has_edge_addNode g x y :
  graph_ok g → has_edge (addNode g).1 x y ↔ has_edge g x y.
Proof.
  intros Hok. unfold has_edge. rewrite nodeOf_addNode.
  destruct (decide (x = nodeCount g)) as [->|Hne]; [|done].
  rewrite (nodeOf_absent g (nodeCount g)) by (by apply graph_ok_fresh_id). done.
Qed.

Lemma iter_addNode n :
  let g := Nat.iter n (λ g, (addNode g).1) newGraph in
  graph_ok g ∧ nodeCount g = n ∧ getAllNodes g = seq 0 n ∧ ∀ a b, ¬ has_edge g a b.
Proof.
  induction n as [|n IH].
  - split; [apply graph_ok_newGraph|]. split; [done|]. split; [done|].
    intros a b Hab. by apply elem_of_nil in Hab.
  - change (Nat.iter (S n) (λ g, (addNode g).1) newGraph)
      with (addNode (Nat.iter n (λ g, (addNode g).1) newGraph)).1.
    cbv zeta in *. destruct IH as (Hok & Hcnt & Hids & Hno).
    set (g := Nat.iter n (λ g, (addNode g).1) newGraph) in *.
    split; [by apply graph_ok_addNode|]. split; [simpl; by rewrite Hcnt|].
    split.
    + rewrite getAllNodes_addNode by done. rewrite Hids, Hcnt.
      by rewrite seq_S.
    + intros a b. rewrite has_edge_addNode by done. apply Hno.
Qed.

Lemma foldl_addEdge es g :
  let g' := foldl (λ g e, addEdge e.1 e.2 1 g) g es in
  graph_ok g →
  graph_ok g' ∧ nodeCount g' = nodeCount g ∧ getAllNodes g' = getAllNodes g ∧
  ∀ a b, has_edge g' a b ↔
         has_edge g a b ∨ ((a, b) ∈ es ∧ a ∈ getAllNodes g ∧ b ∈ getAllNodes g).
Proof.
  revert g. induction es as [|[x y] es IH]; intros g; simpl; intros Hok.
  - split; [done|]. split; [done|]. split; [done|]. intros a b.
    split; [by left|]. intros [?|(Hin & _)]; [done|]. by apply elem_of_nil in Hin.
  - destruct (IH (addEdge x y 1 g) (graph_ok_addEdge x y 1 g Hok))
      as (Hok' & Hcnt & Hids & Hedges).
    split; [done|]. rewrite getAllNodes_addEdge in *.
    split.
    { rewrite Hcnt. unfold addEdge. destruct (map_get x (nodes g)); [|done].
      by destruct (map_get y (nodes g)). }
    split; [done|]. intros a b. rewrite Hedges, has_edge_addEdge by done.
    rewrite elem_of_cons. split.
    + intros [[?|(-> & -> & ? & ?)]|(? & ? & ?)]; eauto 8.
    + intros [?|([?|?] & ? & ?)]; simplify_eq; eauto 8.
Qed.

Lemma buildGraph_props n es :
  graph_ok (buildGraph n es) ∧ nodeCount (buildGraph n es) = n ∧
  getAllNodes (buildGraph n es) = seq 0 n ∧
  ∀ a b, has_edge (buildGraph n es) a b ↔ (a, b) ∈ es ∧ (a < n)%nat ∧ (b < n)%nat.
Proof.
  destruct (iter_addNode n) as (Hok & Hcnt & Hids & Hno).
  destruct (foldl_addEdge es _ Hok) as (Hok' & Hcnt' & Hids' & Hedges).
  unfold buildGraph. split; [done|]. split; [congruence|]. split; [congruence|].
  intros a b. rewrite Hedges, Hids, !elem_of_seq. split.
  - intros [Hab|(? & ? & ?)]; [by apply Hno in Hab|]. split; [done|]. lia.
  - intros (? & ? & ?). right. split; [done|]. lia.
Qed.

(** [addNode] gives the new node the id [nodeCount], which no node of the
    graph has; the node is appended to the nodes in iteration order, it has
    no edges, and the edges of the graph are as before. *)
Theorem addNode_spec (g : Graph) :
  graph_ok g →
  (addNode g).2 = nodeCount g ∧ (addNode g).2 ∉ getAllNodes g ∧
  nodeCount (addNode g).1 = S (nodeCount g) ∧
  getAllNodes (addNode g).1 = getAllNodes g ++ [(addNode g).2] ∧
  nodeOf (addNode g).1 (addNode g).2 = newNode ∧
  ∀ x y, has_edge (addNode g).1 x y ↔ has_edge g x y.
Proof.
  intros Hok. split_and!; [done|by apply graph_ok_fresh_id|done| | |].
  - by apply getAllNodes_addNode.
  - rewrite nodeOf_addNode. by rewrite decide_True.
  - intros x y. by apply has_edge_addNode.
Qed.

Lemma addNode_spec_witness :
  getAllNodes (addNode ring3).1 = getAllNodes ring3 ++ [3%nat].
Proof.
  destruct (buildGraph_props 3 [(0, 1); (1, 2); (2, 0)]%nat) as (Hok & _).
  destruct (addNode_spec ring3 Hok) as (_ & _ & _ & H & _). exact H.
Defined.

(** [removeEdge] removes the edge between the two given nodes and no
    other; the set of nodes stays. *)
Theorem removeEdge_spec (g : Graph) (a b : nat) :
  graph_ok g →
  getAllNodes (removeEdge a b g) = getAllNodes g ∧
  ∀ x y, has_edge (removeEdge a b g) x y ↔ has_edge g x y ∧ ¬ (x = a ∧ y = b).
Proof.
  intros Hok. split; [apply getAllNodes_removeEdge|].
  intros x y. unfold has_edge. rewrite nodeOf_removeEdge.
  destruct (decide (x = a)) as [->|Hne].
  - rewrite targets_removeNeighbor by (by apply nodeOf_ok). tauto.
  - tauto.
Qed.

Lemma removeEdge_spec_witness :
  ¬ has_edge (removeEdge 0 1 ring3) 0 1 ∧ has_edge (removeEdge 0 1 ring3) 1 2.
Proof.
  destruct (buildGraph_props 3 [(0, 1); (1, 2); (2, 0)]%nat) as (Hok & _ & _ & He).
  destruct (removeEdge_spec ring3 0 1 Hok) as (_ & H). split.
  - intros H1. apply H in H1 as [_ H1]. by apply H1.
  - apply H. split; [|intros [? _]; discriminate].
    apply He. split; [|lia]. right. left.
Defined.

(** [removeNode] removes the node and every edge from or to it, and
    nothing else; on an id that is not in the graph it does nothing. *)
Theorem removeNode_spec (g : Graph) (a : nat) :
  graph_ok g →
  getAllNodes (removeNode a g) = filter (λ k, k ≠ a) (getAllNodes g) ∧
  nodeCount (removeNode a g) = nodeCount g ∧
  (a ∉ getAllNodes g → removeNode a g = g) ∧
  ∀ x y, has_edge (removeNode a g) x y ↔ has_edge g x y ∧ x ≠ a ∧ y ≠ a.
Proof.
  intros Hok. pose proof Hok as (_ & _ & _ & Hwf).
  assert (a ∉ getAllNodes g → removeNode a g = g) as Hid.
  { intros Ha. unfold removeNode. destruct (map_get a (nodes g)) eqn:E; [|done].
    exfalso. apply Ha, map_get_Some_keys. by eexists. }
  split; [apply getAllNodes_removeNode|].
  split; [unfold removeNode; by destruct (map_get a (nodes g))|].
  split; [done|]. intros x y.
  destruct (decide (a ∈ getAllNodes g)) as [Ha|Ha].
  - unfold has_edge. rewrite nodeOf_removeNode by done.
    destruct (decide (x = a)) as [->|Hne].
    + split; [intros Hnil; by apply elem_of_nil in Hnil|tauto].
    + rewrite targets_removeNeighbor by (by apply nodeOf_ok). tauto.
  - rewrite Hid by done. split; [|tauto]. intros Hxy. split; [done|]. split.
    + intros ->. by apply Ha, (has_edge_in_nodes g a y).
    + intros ->. by apply Ha, (Hwf x a).
Qed.

Lemma removeNode_spec_witness :
  getAllNodes (removeNode 1 ring3) = [0; 2]%nat ∧ ¬ has_edge (removeNode 1 ring3) 0 1.
Proof.
  destruct (buildGraph_props 3 [(0, 1); (1, 2); (2, 0)]%nat) as (Hok & _ & _ & He).
  destruct (removeNode_spec ring3 1 Hok) as (H1 & _ & _ & H2). split.
  - rewrite H1. reflexivity.
  - intros H. apply H2 in H as (_ & _ & H). by apply H.
Defined.

(** [getAllEdges] lists exactly the edges of the graph. *)
Theorem getAllEdges_spec (g : Graph) (a b : nat) :
  graph_ok g →
  has_edge g a b ↔ ∃ w s, (a, b, w, s) ∈ getAllEdges g.
Proof.
  intros (Hnd & _ & _ & _). unfold getAllEdges, has_edge. split.
  - intros Hab. unfold nodeOf in Hab.
    destruct (map_get a (nodes g)) as [n|] eqn:E; [|by apply elem_of_nil in Hab].
    apply map_get_elem_of in E. unfold targets, map_values in Hab.
    apply list_elem_of_fmap in Hab as (e & -> & He).
    apply list_elem_of_fmap in He as ([k e'] & -> & He).
    exists (weight e'), (edgeState e'). apply list_elem_of_bind.
    exists (a, n). split; [|done]. apply list_elem_of_fmap. by exists (k, e').
  - intros (w & s & Hin). apply list_elem_of_bind in Hin as ([k n] & Hin & Hkn).
    apply list_elem_of_fmap in Hin as ([j e] & Heq & He). simpl in Heq. simplify_eq.
    unfold nodeOf. rewrite (map_get_NoDup _ _ _ Hnd Hkn). simpl.
    unfold targets, map_values. apply list_elem_of_fmap. exists e. split; [done|].
    apply list_elem_of_fmap. by exists (j, e).
Qed.

Lemma getAllEdges_spec_witness : ∃ w s, (2%nat, 0%nat, w, s) ∈ getAllEdges ring3.
Proof.
  destruct (buildGraph_props 3 [(0, 1); (1, 2); (2, 0)]%nat) as (Hok & _ & _ & He).
  apply (getAllEdges_spec ring3 2 0 Hok), He. split; [|lia]. do 2 right. left.
Defined.

Lemma GraphNode_reset_idemp n : GraphNode_reset (GraphNode_reset n) = GraphNode_reset n.
Proof.
  unfold GraphNode_reset. simpl. f_equal. rewrite <- list_fmap_compose.
  apply list_fmap_ext. by intros _ [k e] _.
Qed.

Lemma Graph_reset_idemp g : Graph_reset (Graph_reset g) = Graph_reset g.
Proof.
  unfold Graph_reset, set_nodes. simpl. f_equal. rewrite <- list_fmap_compose.
  apply list_fmap_ext. intros _ [k n] _. simpl. unfold prod_map. simpl.
  by rewrite GraphNode_reset_idemp.
Qed.

(** [reset] of the graph keeps nodes and edges, leaves every node without
    marks of a run and every edge in state normal, and resetting twice is
    resetting once. *)
Theorem Graph_reset_spec (g : Graph) :
  getAllNodes (Graph_reset g) = getAllNodes g ∧
  (∀ a b, has_edge (Graph_reset g) a b ↔ has_edge g a b) ∧
  (∀ n, freshNode (nodeOf (Graph_reset g) n)) ∧
  (∀ a b w s, (a, b, w, s) ∈ getAllEdges (Graph_reset g) → s = Normal) ∧
  Graph_reset (Graph_reset g) = Graph_reset g.
Proof.
  split_and!.
  - apply getAllNodes_reset.
  - intros a b. unfold has_edge. by rewrite targets_nodeOf_reset.
  - apply fresh_nodeOf_reset.
  - intros a b w s Hin. unfold getAllEdges, Graph_reset in Hin. simpl in Hin.
    apply list_elem_of_bind in Hin as ([k n] & Hin & Hkn).
    apply list_elem_of_fmap in Hkn as ([k' n'] & Heq & _). simpl in Heq. simplify_eq.
    apply list_elem_of_fmap in Hin as ([j e] & Heq & He). simpl in He.
    apply list_elem_of_fmap in He as ([j' e'] & Heq' & _).
    unfold prod_map in Heq'. simpl in *. by simplify_eq.
  - apply Graph_reset_idemp.
Qed.

(** ** What a run keeps *)

Section Preserved.
Variable R : DFSVisualizer → DFSVisualizer → Prop.
Hypothesis R_refl : ∀ v, R v v.
Hypothesis R_trans : ∀ a b c, R a b → R b c → R a c.
Hypothesis R_parent : ∀ p n v, R v (upd (set_parent p) n v).
Hypothesis R_cycle : ∀ fuel a b v v', highlightCycle fuel a b v = Some v' → R v (countCycle v').
Hypothesis R_visit : ∀ n v w, R (enter n v) w → R v (finish n w).
Hypothesis R_return : ∀ n v w, R (enter n v) w → isRunning w = false → R v w.

Lemma pauseWait_Some v v' : pauseWait v = Some v' → v' = v.
Proof. unfold pauseWait. destruct (_ && _); congruence. Qed.

Lemma forNeighbors_preserved visit fuel node ts v e :
  (∀ n v v', visit n v = Some v' → R v v') →
  forNeighbors visit fuel node ts v = Some e →
  match e with
  | Completed w => R v w
  | Returned w => R v w ∧ isRunning w = false
  end.
Proof.
  intros Hvisit. revert v. induction ts as [|t ts IH]; intros v; simpl.
  - intros [= <-]. apply R_refl.
  - intros Hrun. apply bind_Some in Hrun as (v1 & H1 & Hrun).
    apply bind_Some in Hrun as (v2 & H2 & Hrun).
    apply pauseWait_Some in H2. subst v2.
    assert (R v v1) as Hv1.
    { destruct (state (nodeOf (graph v) t)).
      - apply Hvisit in H1. eapply R_trans; [apply R_parent|exact H1].
      - apply bind_Some in H1 as (v' & Hh & [= <-]). by eapply R_cycle.
      - injection H1 as <-. apply R_refl.
      - injection H1 as <-. apply R_refl. }
    destruct (isRunning v1) eqn:Hr; simpl in Hrun.
    + apply IH in Hrun. destruct e; [by eapply R_trans|].
      destruct Hrun as [? ?]. split; [by eapply R_trans|done].
    + injection Hrun as <-. done.
Qed.

Lemma dfsVisit_preserved fuel node v v' : dfsVisit fuel node v = Some v' → R v v'.
Proof.
  revert node v v'. induction fuel as [|fuel IH]; intros node v v'; [done|].
  rewrite dfsVisit_S.
  destruct (forNeighbors _ _ _ _ _) as [[w|w]|] eqn:Hloop; [| |done].
  - intros [= <-]. apply forNeighbors_preserved in Hloop; [|apply IH]. by apply R_visit.
  - intros [= <-]. apply forNeighbors_preserved in Hloop as [? ?]; [|apply IH].
    by eapply R_return.
Qed.

Lemma runDFS_loop_preserved fuel ns v v' : runDFS_loop fuel ns v = Some v' → R v v'.
Proof.
  revert v. induction ns as [|n ns IH]; intros v; simpl.
  - intros [= <-]. apply R_refl.
  - intros Hrun. apply bind_Some in Hrun as (v1 & H1 & Hrun).
    apply bind_Some in Hrun as (v2 & H2 & Hrun).
    apply pauseWait_Some in H2. subst v2. apply IH in Hrun.
    eapply R_trans; [|exact Hrun].
    case_decide; [|injection H1 as <-; apply R_refl].
    destruct (isPaused v); [injection H1 as <-; apply R_refl|].
    by apply dfsVisit_preserved in H1.
Qed.

End Preserved.

Lemma Graph_reset_updNode f n g :
  (∀ x, GraphNode_reset (f x) = GraphNode_reset x) →
  Graph_reset (updNode f n g) = Graph_reset g.
Proof.
  intros Hf. unfold Graph_reset, updNode, set_nodes. simpl. f_equal.
  induction (nodes g) as [|[k x] m IH]; [done|]. simpl.
  case_decide; csimpl; [|by rewrite IH]. unfold prod_map. simpl. by rewrite Hf.
Qed.

Lemma Graph_reset_markEdge a b g : Graph_reset (markEdge a b g) = Graph_reset g.
Proof.
  apply Graph_reset_updNode. intros x. unfold GraphNode_reset. simpl. f_equal.
  induction (neighbors x) as [|[k e] m IH]; [done|]. simpl.
  case_decide; csimpl; [done|]. by rewrite IH.
Qed.

Lemma Graph_reset_highlightCycle fuel a b v v' :
  highlightCycle fuel a b v = Some v' → Graph_reset (graph v') = Graph_reset (graph v).
Proof.
  unfold highlightCycle. intros H. apply bind_Some in H as (cyc & _ & [= <-]). simpl.
  unfold markCycleEdges.
  assert (∀ l g, Graph_reset
            (foldl (λ g i,
                      match cyc !! i, cyc !! ((i + 1) `mod` length cyc)%nat with
                      | Some currentNode, Some nextNode => markEdge currentNode nextNode g
                      | _, _ => g
                      end) g l) = Graph_reset g) as H1.
  { induction l as [|i l IH]; intros g; simpl; [done|]. rewrite IH.
    destruct (cyc !! i); [|done]. destruct (cyc !! _); [|done].
    apply Graph_reset_markEdge. }
  assert (∀ l g, Graph_reset (foldl (λ g n, updNode (set_state Cycle) n g) g l)
                 = Graph_reset g) as H2.
  { induction l as [|i l IH]; intros g; simpl; [done|]. rewrite IH.
    by apply Graph_reset_updNode. }
  by rewrite H1, H2, Graph_reset_markEdge.
Qed.

Lemma runDFS_loop_reset fuel ns v v' :
  runDFS_loop fuel ns v = Some v' → Graph_reset (graph v') = Graph_reset (graph v).
Proof.
  apply (runDFS_loop_preserved
           (λ v v', Graph_reset (graph v') = Graph_reset (graph v))).
  - done.
  - intros a b c Hab Hbc. by rewrite Hbc.
  - intros p n v0. simpl. by apply Graph_reset_updNode.
  - intros fuel0 a b v0 v0' H. simpl. by eapply Graph_reset_highlightCycle.
  - intros n v0 w H. simpl in *. rewrite !Graph_reset_updNode in * by done. done.
  - intros n v0 w H _. simpl in *. rewrite !Graph_reset_updNode in * by done. done.
Qed.

(** A run changes nothing but the marks that [reset] clears: after a
    complete run, resetting the graph gives what resetting it before the run
    gave, so nodes, edges and weights are as before, and running again from
    the result gives the same result again. *)
Theorem runDFS_changes_only_marks (g : Graph) (fuel : nat) :
  wf_graph g → (2 * length (getAllNodes g) + 1 ≤ fuel)%nat →
  ∃ v',
    runDFS fuel (started g) = Some v' ∧
    Graph_reset (graph v') = Graph_reset g ∧
    getAllNodes (graph v') = getAllNodes g ∧
    (∀ a b, has_edge (graph v') a b ↔ has_edge g a b) ∧
    runDFS fuel (started (graph v')) = Some v'.
Proof.
  intros Hwf Hfuel.
  destruct (runDFS_spec g fuel Hwf Hfuel) as (v' & Hrun & HI & _ & _).
  assert (Graph_reset (graph v') = Graph_reset g) as Hreset.
  { apply runDFS_loop_reset in Hrun. simpl in Hrun. by rewrite Graph_reset_idemp in Hrun. }
  exists v'. split; [done|]. split; [done|].
  split; [apply (d_ids _ _ _ HI)|].
  split; [intros a b; unfold has_edge; by rewrite (d_succ _ _ _ HI)|].
  unfold started. by rewrite Hreset.
Qed.

Lemma runDFS_changes_only_marks_witness :
  ∃ v',
    runDFS 7 (started ring3) = Some v' ∧
    Graph_reset (graph v') = Graph_reset ring3 ∧
    getAllNodes (graph v') = getAllNodes ring3 ∧
    (∀ a b, has_edge (graph v') a b ↔ has_edge ring3 a b) ∧
    runDFS 7 (started (graph v')) = Some v'.
Proof.
  apply (runDFS_changes_only_marks ring3 7); [exact ring3_wf|vm_compute; lia].
Defined.

Lemma runDFS_loop_clock fuel ns v v' :
  runDFS_loop fuel ns v = Some v' → isRunning v = true →
  isRunning v' = true ∧ time v' - time v = 2 * (visitedCount v' - visitedCount v).
Proof.
  apply (runDFS_loop_preserved
           (λ v v', isRunning v = true →
                    isRunning v' = true ∧
                    time v' - time v = 2 * (visitedCount v' - visitedCount v))).
  - intros v0 Hr. split; [done|lia].
  - intros a b c Hab Hbc Hr. destruct (Hab Hr) as [Hr' Ht].
    destruct (Hbc Hr') as [Hr'' Ht']. split; [done|lia].
  - intros p n v0 Hr. simpl. split; [done|lia].
  - intros fuel0 a b v0 v0' H Hr. unfold highlightCycle in H.
    apply bind_Some in H as (cyc & _ & [= <-]). simpl. split; [done|lia].
  - intros n v0 w H Hr. destruct (H Hr) as [Hr' Ht]. simpl in *. split; [done|lia].
  - intros n v0 w H Hw Hr. destruct (H Hr) as [Hr' _]. congruence.
Qed.

(** The clock of a run ticks exactly twice for every node it visits: at
    the end of a complete run [time] is twice [visitedCount], and the run is
    still marked as running ([startDFS] clears the flag afterwards). *)
Theorem runDFS_clock (g : Graph) (fuel : nat) :
  wf_graph g → (2 * length (getAllNodes g) + 1 ≤ fuel)%nat →
  ∃ v',
    runDFS fuel (started g) = Some v' ∧
    time v' = 2 * visitedCount v' ∧ isRunning v' = true ∧ isPaused v' = false.
Proof.
  intros Hwf Hfuel.
  destruct (runDFS_spec g fuel Hwf Hfuel) as (v' & Hrun & HI & _ & _).
  exists v'. split; [done|].
  apply runDFS_loop_clock in Hrun as [Hr Ht]; [|done]. simpl in Ht.
  split; [lia|]. split; [done|]. apply (d_paused _ _ _ HI).
Qed.

Lemma runDFS_clock_witness :
  ∃ v',
    runDFS 9 (started dag4) = Some v' ∧
    time v' = 2 * visitedCount v' ∧ isRunning v' = true ∧ isPaused v' = false.
Proof.
  apply (runDFS_clock dag4 9); [exact dag4_wf|vm_compute; lia].
Defined.

(** A whole run of [startDFS]: whatever counters and cycles an earlier
    run has left in the visualizer, the run ends with [isRunning] false, has
    recorded no cycle exactly when the graph is acyclic, counts the cycles it
    recorded, and starting again gives the same state again. *)
Theorem startDFS_spec (v : DFSVisualizer) (fuel : nat) :
  wf_graph (graph v) → isRunning v = false →
  (2 * length (getAllNodes (graph v)) + 1 ≤ fuel)%nat →
  ∃ v',
    startDFS fuel v = Some v' ∧
    isRunning v' = false ∧ isPaused v' = false ∧
    (cycles v' = [] ↔ acyclic (graph v)) ∧
    cycleCount v' = Z.of_nat (length (cycles v')) ∧
    Forall (closed_walk (graph v)) (cycles v') ∧
    (∀ n, n ∈ getAllNodes (graph v) → state (nodeOf (graph v') n) = Visited) ∧
    startDFS fuel v' = Some v'.
Proof.
  intros Hwf Hrun0 Hfuel.
  destruct (runDFS_spec (graph v) fuel Hwf Hfuel) as (w & Hrun & HI & HF & Hall).
  assert (Graph_reset (graph w) = Graph_reset (graph v)) as Hreset.
  { pose proof (runDFS_loop_reset _ _ _ _ Hrun) as H. simpl in H.
    by rewrite Graph_reset_idemp in H. }
  unfold startDFS. rewrite Hrun0, Hrun. simpl. eexists. split; [done|]. simpl.
  split; [done|]. split; [apply (d_paused _ _ _ HI)|]. split.
  { split.
    - intros Hnil. by eapply no_cycle_reported_acyclic.
    - intros Hac. by destruct (f_acyclic _ _ _ HF Hac) as [-> _]. }
  split; [apply (d_count _ _ _ HI)|]. split; [apply (d_cycles _ _ _ HI)|].
  split; [done|].
  unfold started in *. by rewrite Hreset, Hrun.
Qed.

Lemma startDFS_spec_witness :
  ∃ v',
    startDFS 7 (mkDFS ring3 false true 5 5 5 [[0%nat]]) = Some v' ∧
    isRunning v' = false ∧ isPaused v' = false ∧
    (cycles v' = [] ↔ acyclic ring3) ∧
    cycleCount v' = Z.of_nat (length (cycles v')) ∧
    Forall (closed_walk ring3) (cycles v') ∧
    (∀ n, n ∈ getAllNodes ring3 → state (nodeOf (graph v') n) = Visited) ∧
    startDFS 7 v' = Some v'.
Proof.
  apply (startDFS_spec (mkDFS ring3 false true 5 5 5 [[0%nat]]) 7);
    [exact ring3_wf|reflexivity|vm_compute; lia].
Defined.

(** ** Adding a cycle *)

Lemma walk_in_lookup g l :
  (∀ i a b, l !! i = Some a → l !! S i = Some b → has_edge g a b) → walk_in g l.
Proof.
  induction l as [|a l IH]; [done|]. intros H. simpl. split.
  - destruct l as [|b l]; [done|]. by apply (H 0%nat).
  - apply IH. intros i x y Hx Hy. by apply (H (S i)).
Qed.

Lemma addCycle_edges_props cyc g :
  graph_ok g → Forall (λ n, n ∈ getAllNodes g) cyc →
  graph_ok (addCycle_edges cyc g) ∧
  getAllNodes (addCycle_edges cyc g) = getAllNodes g ∧
  ∀ a b, has_edge (addCycle_edges cyc g) a b ↔
         has_edge g a b ∨
         ∃ i, cyc !! i = Some a ∧ cyc !! ((i + 1) `mod` length cyc)%nat = Some b.
Proof.
  intros Hok Hall. unfold addCycle_edges.
  assert (∀ js g1, graph_ok g1 → getAllNodes g1 = getAllNodes g →
            let g' := foldl (λ g i,
                         match cyc !! i, cyc !! ((i + 1) `mod` length cyc)%nat with
                         | Some from, Some to => addEdge from to 1 g
                         | _, _ => g
                         end) g1 js in
            graph_ok g' ∧ getAllNodes g' = getAllNodes g ∧
            ∀ a b, has_edge g' a b ↔
                   has_edge g1 a b ∨
                   ∃ i, i ∈ js ∧ cyc !! i = Some a ∧
                        cyc !! ((i + 1) `mod` length cyc)%nat = Some b) as Hfold.
  { induction js as [|j js IH]; intros g1 Hok1 Hids; cbn [foldl].
    - split; [done|]. split; [done|]. intros a b. split; [by left|].
      intros [?|(i & Hi & _)]; [done|]. by apply elem_of_nil in Hi.
    - destruct (cyc !! j) as [x|] eqn:Ex.
      + destruct (cyc !! ((j + 1) `mod` length cyc)%nat) as [y|] eqn:Ey.
        * destruct (IH (addEdge x y 1 g1)) as (Hok' & Hids' & Hedges).
          { by apply graph_ok_addEdge. }
          { by rewrite getAllNodes_addEdge. }
          split; [done|]. split; [done|]. intros a b.
          rewrite Hedges, has_edge_addEdge by done.
          rewrite Forall_forall in Hall.
          assert (x ∈ getAllNodes g1) as Hx
            by (rewrite Hids; by eapply Hall, list_elem_of_lookup_2).
          assert (y ∈ getAllNodes g1) as Hy
            by (rewrite Hids; by eapply Hall, list_elem_of_lookup_2).
          split.
          -- intros [[?|(-> & -> & _)]|(i & Hi & ? & ?)]; [by left| |].
             ++ right. exists j. split; [by left|done].
             ++ right. exists i. split; [by right|done].
          -- intros [?|(i & Hi & Ha & Hb)]; [by left; left|].
             apply elem_of_cons in Hi as [->|Hi].
             ++ left. right. rewrite Ex in Ha. rewrite Ey in Hb. by simplify_eq.
             ++ right. by exists i.
        * destruct (IH g1 Hok1 Hids) as (Hok' & Hids' & Hedges).
          split; [done|]. split; [done|]. intros a b. rewrite Hedges. split.
          -- intros [?|(i & Hi & ? & ?)]; [by left|]. right. exists i. split; [by right|done].
          -- intros [?|(i & Hi & Ha & Hb)]; [by left|].
             apply elem_of_cons in Hi as [->|Hi]; [congruence|]. right. by exists i.
      + destruct (IH g1 Hok1 Hids) as (Hok' & Hids' & Hedges).
        split; [done|]. split; [done|]. intros a b. rewrite Hedges. split.
        * intros [?|(i & Hi & ? & ?)]; [by left|]. right. exists i. split; [by right|done].
        * intros [?|(i & Hi & Ha & Hb)]; [by left|].
          apply elem_of_cons in Hi as [->|Hi]; [congruence|]. right. by exists i. }
  destruct (Hfold (seq 0 (length cyc)) g Hok eq_refl) as (H1 & H2 & H3).
  split; [done|]. split; [done|]. intros a b. rewrite H3. split.
  - intros [?|(i & _ & ? & ?)]; [by left|]. right. by exists i.
  - intros [?|(i & Ha & Hb)]; [by left|]. right. exists i. split; [|done].
    apply elem_of_seq. apply lookup_lt_Some in Ha. lia.
Qed.

(** The edges [addCycle] adds close a cycle through the nodes it has
    selected, whichever nodes of the graph these are, and they leave the
    graph well formed with its old nodes and edges; a run of the detector on
    the result records a cycle. *)
Theorem addCycle_edges_spec (g : Graph) (cyc : list nat) (fuel : nat) :
  graph_ok g → cyc ≠ [] → Forall (λ n, n ∈ getAllNodes g) cyc →
  (2 * length (getAllNodes g) + 1 ≤ fuel)%nat →
  graph_ok (addCycle_edges cyc g) ∧
  getAllNodes (addCycle_edges cyc g) = getAllNodes g ∧
  (∀ a b, has_edge g a b → has_edge (addCycle_edges cyc g) a b) ∧
  closed_walk (addCycle_edges cyc g) cyc ∧
  ¬ acyclic (addCycle_edges cyc g) ∧
  ∃ v', runDFS fuel (started (addCycle_edges cyc g)) = Some v' ∧ cycles v' ≠ [].
Proof.
  intros Hok Hne Hall Hfuel.
  destruct (addCycle_edges_props cyc g Hok Hall) as (Hok' & Hids & Hedges).
  assert (closed_walk (addCycle_edges cyc g) cyc) as Hcw.
  { destruct (head cyc) as [c0|] eqn:Eh; [|by destruct cyc].
    exists c0. split; [done|]. rewrite head_lookup in Eh.
    apply walk_in_lookup. intros i a b Ha Hb. apply Hedges. right. exists i.
    assert (S i < length (cyc ++ [c0]))%nat as Hlt by (by eapply lookup_lt_Some).
    rewrite length_app in Hlt. change (length [c0]) with 1%nat in Hlt.
    assert (i < length cyc)%nat as Hi by lia.
    rewrite lookup_app_l in Ha by done. split; [done|].
    destruct (decide (S i < length cyc)%nat) as [Hs|Hs].
    - rewrite lookup_app_l in Hb by done.
      replace ((i + 1) `mod` length cyc)%nat with (S i); [done|].
      rewrite Nat.mod_small by lia. lia.
    - assert (S i = length cyc) as Heq by lia.
      rewrite lookup_app_r in Hb by lia. rewrite Heq, Nat.sub_diag in Hb.
      replace (i + 1)%nat with (length cyc) by lia.
      rewrite Nat.Div0.mod_same. simpl in Hb. by simplify_eq. }
  assert (¬ acyclic (addCycle_edges cyc g)) as Hcyc.
  { intros Hac. destruct (closed_walk_path _ _ Hcw) as [a Ha]. by apply (Hac a). }
  split; [done|]. split; [done|].
  split; [intros a b Hab; apply Hedges; by left|]. split; [done|]. split; [done|].
  destruct Hok' as (_ & _ & _ & Hwf').
  destruct (runDFS_spec (addCycle_edges cyc g) fuel Hwf') as (v' & Hrun & HI & _ & Hvis);
    [by rewrite Hids|].
  exists v'. split; [done|]. intros Hnil. apply Hcyc.
  by eapply no_cycle_reported_acyclic.
Qed.

Lemma addCycle_edges_spec_witness :
  ¬ acyclic (addCycle_edges [3; 1; 0]%nat dag4).
Proof.
  destruct (buildGraph_props 4 [(0, 1); (1, 2); (0, 2); (2, 3)]%nat) as (Hok & _ & Hids & _).
  destruct (addCycle_edges_spec dag4 [3; 1; 0]%nat 9 Hok) as (_ & _ & _ & _ & H & _).
  - done.
  - unfold dag4. rewrite Hids. repeat constructor; apply elem_of_seq; lia.
  - unfold dag4. rewrite Hids. simpl. lia.
  - exact H.
Defined.

End GraphDFS.
